(** * Print-job orchestration of the printer dashboard

    A shallow embedding of the page-range validation of [web/app.js] and
    [static/dashboard.js], and of the job queue, job history and progress
    monitor of the [PrintDashboard] class of [static/dashboard.js].

    Conventions of the embedding:
    - a JavaScript string is the list of its UTF-16 code units ([N]);
    - a JavaScript number holding a progress percentage is a rational [Q];
      [Math.random()] is an input of the monitor tick;
    - job objects live in a store indexed by reference, the queue holds
      references and the history holds copies, as the object spread of
      [addJobToHistory] makes them;
    - [setInterval] and [setTimeout] are the set of live intervals and the
      list of pending time-outs of the dashboard state; a callback runs as
      one atomic step, and the [await] of [printDocument] splits it into the
      submission and the arrival of the answer. *)

From Stdlib Require Import ZArith NArith QArith Qminmax Qround Qpower Lia Lqa.
From Stdlib Require Import List Bool.
From Stdlib Require Import Ascii String.
From stdpp Require Import base option list gmap.

#[local] Set Warnings "-clear-no-such-hyp".

Local Open Scope N_scope.

(* ===================================================================== *)
(** ** JavaScript strings *)
(* ===================================================================== *)

(** One UTF-16 code unit. *)
Definition code_unit := N.

Definition jsstring := list code_unit.

(** A string literal of the source (ASCII only). *)
Definition js (s : string) : jsstring :=
  List.map N_of_ascii (list_ascii_of_string s).

(** The class [\d] of a regular expression without the [u] flag. *)
Definition is_digit (c : code_unit) : bool :=
  (48 <=? c) && (c <=? 57).

(** The class [\s]: WhiteSpace and LineTerminator of ECMAScript. *)
Definition is_space (c : code_unit) : bool :=
  ((9 <=? c) && (c <=? 13))            (* TAB, LF, VT, FF, CR *)
  || (c =? 32)                          (* SPACE *)
  || (c =? 160)                         (* NO-BREAK SPACE *)
  || (c =? 5760)                        (* U+1680 *)
  || ((8192 <=? c) && (c <=? 8202))     (* U+2000 .. U+200A *)
  || (c =? 8232) || (c =? 8233)         (* U+2028, U+2029 *)
  || (c =? 8239)                        (* U+202F *)
  || (c =? 8287)                        (* U+205F *)
  || (c =? 12288)                       (* U+3000 *)
  || (c =? 65279).                      (* U+FEFF *)

Definition hyphen : code_unit := 45.
Definition comma : code_unit := 44.

Definition is_hyphen (c : code_unit) : bool := c =? hyphen.
Definition is_comma (c : code_unit) : bool := c =? comma.

(** [s.replace(/\s/g, '')]: every white-space code unit is deleted. *)
Definition strip_spaces (s : jsstring) : jsstring :=
  List.filter (fun c => negb (is_space c)) s.

Fixpoint jsstring_eqb (s t : jsstring) : bool :=
  match s, t with
  | [], [] => true
  | c :: s', d :: t' => (c =? d) && jsstring_eqb s' t'
  | _, _ => false
  end.

(** Truthiness of a string: only the empty string is falsy. *)
Definition truthy (s : jsstring) : bool :=
  match s with [] => false | _ :: _ => true end.

Fixpoint starts_with (sub s : jsstring) : bool :=
  match sub, s with
  | [], _ => true
  | _ :: _, [] => false
  | c :: sub', d :: s' => (c =? d) && starts_with sub' s'
  end.

(** [s.includes(sub)]: [sub] occurs in [s] as a contiguous block. *)
Fixpoint includes (s sub : jsstring) : bool :=
  starts_with sub s ||
  match s with
  | [] => false
  | _ :: s' => includes s' sub
  end.

(* ===================================================================== *)
(** ** Regular expressions *)
(* ===================================================================== *)

(** The fragment of the regular-expression syntax that the two patterns of
    the source use: character classes, sequence, [?], [+] and [*]. *)
Inductive regex : Type :=
  | Void : regex
  | Eps : regex
  | Class : (code_unit -> bool) -> regex
  | Cat : regex -> regex -> regex
  | Alt : regex -> regex -> regex
  | Star : regex -> regex.

(** [r+] and [r?]. *)
Definition Plus (r : regex) : regex := Cat r (Star r).
Definition Opt (r : regex) : regex := Alt r Eps.

(** The words of a regular expression. *)
Inductive Lang : regex -> jsstring -> Prop :=
  | Lang_eps : Lang Eps []
  | Lang_class p c : p c = true -> Lang (Class p) [c]
  | Lang_cat r1 r2 u v : Lang r1 u -> Lang r2 v -> Lang (Cat r1 r2) (u ++ v)
  | Lang_alt_l r1 r2 u : Lang r1 u -> Lang (Alt r1 r2) u
  | Lang_alt_r r1 r2 u : Lang r2 u -> Lang (Alt r1 r2) u
  | Lang_star_nil r : Lang (Star r) []
  | Lang_star_app r u v : Lang r u -> Lang (Star r) v -> Lang (Star r) (u ++ v).

Fixpoint nullable (r : regex) : bool :=
  match r with
  | Void => false
  | Eps => true
  | Class _ => false
  | Cat r1 r2 => nullable r1 && nullable r2
  | Alt r1 r2 => nullable r1 || nullable r2
  | Star _ => true
  end.

(** The words of [deriv c r] are the words [w] with [c :: w] a word of [r]. *)
Fixpoint deriv (c : code_unit) (r : regex) : regex :=
  match r with
  | Void => Void
  | Eps => Void
  | Class p => if p c then Eps else Void
  | Cat r1 r2 =>
      if nullable r1
      then Alt (Cat (deriv c r1) r2) (deriv c r2)
      else Cat (deriv c r1) r2
  | Alt r1 r2 => Alt (deriv c r1) (deriv c r2)
  | Star r1 => Cat (deriv c r1) (Star r1)
  end.

(** [/^r$/.test(s)]: with both anchors and no flag the test succeeds exactly
    when the whole of [s] is a word of [r]. *)
Fixpoint regex_test (r : regex) (s : jsstring) : bool :=
  match s with
  | [] => nullable r
  | c :: s' => regex_test (deriv c r) s'
  end.

(* ===================================================================== *)
(** ** Page ranges *)
(* ===================================================================== *)

(** [\d+(-\d+)?], the token shared by the two patterns. *)
Definition range_token : regex :=
  Cat (Plus (Class is_digit))
      (Opt (Cat (Class is_hyphen) (Plus (Class is_digit)))).

(** web/app.js, validatePageRange:
    [const pattern = /^\d+(-\d+)?(,\d+(-\d+)?)*$/]. *)
Definition pattern : regex :=
  Cat range_token (Star (Cat (Class is_comma) range_token)).

(** static/dashboard.js, printDocument:
    [const pageRangePattern = /^\d+(-\d+)?(,\s*\d+(-\d+)?)*$/]. *)
Definition pageRangePattern : regex :=
  Cat range_token
      (Star (Cat (Class is_comma)
                 (Cat (Star (Class is_space)) range_token))).

(** web/app.js:
<<
function validatePageRange(pageRange) {
    const pattern = /^\d+(-\d+)?(,\d+(-\d+)?)*$/;
    return pattern.test(pageRange.replace(/\s/g, ''));
}
>> *)
Definition validatePageRange (pageRange : jsstring) : bool :=
  regex_test pattern (strip_spaces pageRange).

(** The outcome of the validation block at the head of a submission: the
    message shown when the submission stops there, or nothing when the
    function goes on to build and send the job. *)
Inductive gate : Type :=
  | Refused (message : jsstring)
  | Proceeds.

(** web/app.js, submitPrintJob:
<<
if (pageRangeType === 'range' && pageRange) {
    if (!validatePageRange(pageRange)) {
        showAlert('error', 'Invalid page range format. ...');
        return;
    }
}
>> *)
Definition submitPrintJob_gate (pageRangeType pageRange : jsstring) : gate :=
  if jsstring_eqb pageRangeType (js "range") && truthy pageRange then
    if negb (validatePageRange pageRange)
    then Refused (js "Invalid page range format. Use examples: 1-5, 1,3,5, 1-3,5,7-9")
    else Proceeds
  else Proceeds.

(** static/dashboard.js, printDocument ([settings.page_range] is [null] or
    a string):
<<
if (settings.page_range && settings.page_range !== 'odd'
                        && settings.page_range !== 'even') {
    const pageRangePattern = /^\d+(-\d+)?(,\s*\d+(-\d+)?)*$/;
    if (!pageRangePattern.test(settings.page_range)) {
        this.showMessage('Invalid page range format. ...', 'error');
        return;
    }
}
>> *)
Definition printDocument_gate (page_range : option jsstring) : gate :=
  match page_range with
  | None => Proceeds
  | Some s =>
      if truthy s && negb (jsstring_eqb s (js "odd"))
                  && negb (jsstring_eqb s (js "even")) then
        if negb (regex_test pageRangePattern s)
        then Refused (js "Invalid page range format. Use format like: 1-5, 8, 10-12")
        else Proceeds
      else Proceeds
  end.

(** *** The grammar of the specification

    The page-range grammar as the specification words it: one or more
    tokens, each a single integer or two integers separated by a hyphen,
    separated by a comma that white space may follow. It is stated on the
    shape of the string, independently of the matcher above. *)

(** [\d+]: a non-empty run of decimal digits. *)
Definition digit_string (w : jsstring) : Prop :=
  w <> [] /\ Forall (fun c => is_digit c = true) w.

(** [\d+(-\d+)?] *)
Inductive Token : jsstring -> Prop :=
  | Token_single a : digit_string a -> Token a
  | Token_range a b :
      digit_string a -> digit_string b -> Token (a ++ hyphen :: b).

(** [(,\s*\d+(-\d+)?)*] *)
Inductive Continuation : jsstring -> Prop :=
  | Continuation_end : Continuation []
  | Continuation_more ws t rest :
      Forall (fun c => is_space c = true) ws -> Token t -> Continuation rest ->
      Continuation (comma :: ws ++ t ++ rest).

(** [^\d+(-\d+)?(,\s*\d+(-\d+)?)*$] *)
Definition PageRangeGrammar (s : jsstring) : Prop :=
  exists t rest, s = t ++ rest /\ Token t /\ Continuation rest.

(** A string without any white-space code unit. *)
Definition spaceless (s : jsstring) : Prop :=
  Forall (fun c => is_space c = false) s.

(** The number that a run of decimal digits denotes. *)
Definition decimal_value (w : jsstring) : N :=
  fold_left (fun acc c => acc * 10 + (c - 48)) w 0.

(* ===================================================================== *)
(** ** Jobs, the printer status report and the dashboard state *)
(* ===================================================================== *)

(** The values of [job.status] that the dashboard writes: ['pending'],
    ['printing'], ['completed'], ['error'], ['cancelled']. *)
Inductive JobStatus : Type :=
  | Pending | Printing | Completed | Error | Cancelled.

(** The terminal states of a job. *)
Definition terminal (s : JobStatus) : bool :=
  match s with
  | Completed | Error | Cancelled => true
  | Pending | Printing => false
  end.

(** The fields of a job object that the queue, the monitor and the history
    read or write ([name], [printer], [timestamp] and the settings are
    carried along and never inspected). [job_error] is [None] while the
    [error] property is absent. *)
Record Job : Type := mkJob {
  job_id : nat;
  job_fileName : jsstring;
  job_status : JobStatus;
  job_progress : Q;
  job_error : option jsstring
}.

Definition set_status (s : JobStatus) (j : Job) : Job :=
  mkJob (job_id j) (job_fileName j) s (job_progress j) (job_error j).

Definition set_progress (p : Q) (j : Job) : Job :=
  mkJob (job_id j) (job_fileName j) (job_status j) p (job_error j).

Definition set_error (e : jsstring) (j : Job) : Job :=
  mkJob (job_id j) (job_fileName j) (job_status j) (job_progress j) (Some e).

(** [{...job, completedAt: new Date()}]. *)
Record HistoryEntry : Type := mkEntry {
  entry_job : Job;
  completedAt : N
}.

(** One entry of [printerStatus.jobs]. *)
Record QueueEntry : Type := mkQueueEntry {
  document : option jsstring;
  pages_printed : Z;
  total_pages : option Z
}.

(** The body of [/api/printers/<id>/status/detailed]. *)
Record PrinterStatus : Type := mkPrinterStatus {
  ps_status : jsstring;
  ps_message : option jsstring;
  ps_jobs : option (list QueueEntry)
}.

(** What one poll of the monitor gets back. Every exception of the [try]
    block ([fetch] or [json()] rejecting, a malformed body) is raised before
    the first write to the job. *)
Inductive Response : Type :=
  | FetchThrows
  | NotOk
  | Ok (printerStatus : PrinterStatus).

(** What the [fetch] of [printDocument] gets back. *)
Inductive Dispatch : Type :=
  | DispatchOk
  | DispatchFailed (detail : option jsstring)
  | DispatchThrows (message : jsstring).

Inductive message_type : Type := MsgError | MsgSuccess | MsgInfo.

Record Dashboard : Type := mkDashboard {
  store : gmap nat Job;            (* the job objects, by reference *)
  jobQueue : list nat;             (* this.jobQueue *)
  jobHistory : list HistoryEntry;  (* this.jobHistory *)
  jobIdCounter : nat;              (* this.jobIdCounter *)
  awaiting : gset nat;             (* jobs whose print request is in flight *)
  intervals : gset nat;            (* jobs whose monitor interval is live *)
  timeouts : list nat;             (* pending removeJobFromQueue(jobId) *)
  messages : list (jsstring * message_type)   (* showMessage calls *)
}.

(** The constructor of [PrintDashboard]. *)
Definition new_dashboard : Dashboard :=
  mkDashboard ∅ [] [] 1 ∅ ∅ [] [].

Definition with_store (m : gmap nat Job) (d : Dashboard) : Dashboard :=
  mkDashboard m (jobQueue d) (jobHistory d) (jobIdCounter d) (awaiting d)
              (intervals d) (timeouts d) (messages d).

Definition with_queue (q : list nat) (d : Dashboard) : Dashboard :=
  mkDashboard (store d) q (jobHistory d) (jobIdCounter d) (awaiting d)
              (intervals d) (timeouts d) (messages d).

Definition with_history (h : list HistoryEntry) (d : Dashboard) : Dashboard :=
  mkDashboard (store d) (jobQueue d) h (jobIdCounter d) (awaiting d)
              (intervals d) (timeouts d) (messages d).

Definition with_counter (n : nat) (d : Dashboard) : Dashboard :=
  mkDashboard (store d) (jobQueue d) (jobHistory d) n (awaiting d)
              (intervals d) (timeouts d) (messages d).

Definition with_awaiting (a : gset nat) (d : Dashboard) : Dashboard :=
  mkDashboard (store d) (jobQueue d) (jobHistory d) (jobIdCounter d) a
              (intervals d) (timeouts d) (messages d).

Definition with_intervals (i : gset nat) (d : Dashboard) : Dashboard :=
  mkDashboard (store d) (jobQueue d) (jobHistory d) (jobIdCounter d)
              (awaiting d) i (timeouts d) (messages d).

Definition with_timeouts (t : list nat) (d : Dashboard) : Dashboard :=
  mkDashboard (store d) (jobQueue d) (jobHistory d) (jobIdCounter d)
              (awaiting d) (intervals d) t (messages d).

Definition showMessage (text : jsstring) (type : message_type)
    (d : Dashboard) : Dashboard :=
  mkDashboard (store d) (jobQueue d) (jobHistory d) (jobIdCounter d)
              (awaiting d) (intervals d) (timeouts d)
              (messages d ++ [(text, type)]).

(** [clearInterval(interval)] of the monitor of the job object [r]. *)
Definition clearInterval (r : nat) (d : Dashboard) : Dashboard :=
  with_intervals (intervals d ∖ {[r]}) d.

(** [setTimeout(() => this.removeJobFromQueue(jobId), ...)]. *)
Definition setTimeout_remove (jobId : nat) (d : Dashboard) : Dashboard :=
  with_timeouts (timeouts d ++ [jobId]) d.

(* ===================================================================== *)
(** ** Queue and history management *)
(* ===================================================================== *)

(** The callback [j => j.id === jobId], on a reference of the queue. *)
Definition has_id (d : Dashboard) (jobId : nat) (r : nat) : bool :=
  match store d !! r with
  | Some j => Nat.eqb (job_id j) jobId
  | None => false
  end.

(** [Array.prototype.findIndex], [None] standing for [-1]. *)
Fixpoint findIndex {A : Type} (p : A -> bool) (l : list A) : option nat :=
  match l with
  | [] => None
  | x :: l' => if p x then Some O else S <$> findIndex p l'
  end.

(** [addJobToQueue(job)] *)
Definition addJobToQueue (r : nat) (d : Dashboard) : Dashboard :=
  with_queue (jobQueue d ++ [r]) d.

(** [updateJobInQueue(job)]: the slot of the first queued job with the same
    id is overwritten with the reference [r]. *)
Definition updateJobInQueue (r : nat) (d : Dashboard) : Dashboard :=
  match store d !! r with
  | None => d
  | Some job =>
      match findIndex (has_id d (job_id job)) (jobQueue d) with
      | Some index => with_queue (<[index := r]> (jobQueue d)) d
      | None => d
      end
  end.

(** [addJobToHistory(job)]:
<<
this.jobHistory.unshift({ ...job, completedAt: new Date() });
if (this.jobHistory.length > 20) {
    this.jobHistory = this.jobHistory.slice(0, 20);
}
>> *)
Definition addJobToHistory (now : N) (job : Job) (d : Dashboard) : Dashboard :=
  let unshifted := mkEntry job now :: jobHistory d in
  with_history
    (if Nat.ltb 20 (length unshifted) then take 20 unshifted else unshifted) d.

(** [removeJobFromQueue(jobId)] *)
Definition removeJobFromQueue (now : N) (jobId : nat) (d : Dashboard) : Dashboard :=
  match findIndex (has_id d jobId) (jobQueue d) with
  | None => d
  | Some jobIndex =>
      match jobQueue d !! jobIndex ≫= (fun r => store d !! r) with
      | None => d
      | Some job =>
          addJobToHistory now job (with_queue (delete jobIndex (jobQueue d)) d)
      end
  end.

(** [cancelJob(jobId)]:
<<
const job = this.jobQueue.find(j => j.id === jobId);
if (job) {
    job.status = 'cancelled';
    job.progress = 0;
    this.updateJobInQueue(job);
    setTimeout(() => { this.removeJobFromQueue(jobId); }, 1000);
}
>> *)
Definition cancelJob (jobId : nat) (d : Dashboard) : Dashboard :=
  match List.find (has_id d jobId) (jobQueue d) with
  | None => d
  | Some r =>
      match store d !! r with
      | None => d
      | Some job =>
          let job' := set_progress 0 (set_status Cancelled job) in
          setTimeout_remove jobId
            (updateJobInQueue r (with_store (<[r := job']> (store d)) d))
      end
  end.

(** [clearQueue()] *)
Definition clearQueue (now : N) (d : Dashboard) : Dashboard :=
  let each d r :=
    match store d !! r with
    | None => d
    | Some job =>
        let job' := set_status Cancelled job in
        addJobToHistory now job' (with_store (<[r := job']> (store d)) d)
    end in
  showMessage (js "Print queue cleared") MsgInfo
    (with_queue [] (fold_left each (jobQueue d) d)).

(** [clearHistory()] *)
Definition clearHistory (d : Dashboard) : Dashboard :=
  showMessage (js "Job history cleared") MsgInfo (with_history [] d).

(* ===================================================================== *)
(** ** The progress monitor *)
(* ===================================================================== *)

(** [a < b] on numbers. *)
Definition Qltb (a b : Q) : bool := negb (Qle_bool b a).

(** [x || dflt] on a possibly absent string. *)
Definition or_default (x : option jsstring) (dflt : jsstring) : jsstring :=
  match x with
  | Some s => if truthy s then s else dflt
  | None => dflt
  end.

(** The callback of [printerStatus.jobs?.find]:
    [pJob => pJob.document && pJob.document.includes(job.fileName)]. *)
Definition entry_matches (job : Job) (pJob : QueueEntry) : bool :=
  match document pJob with
  | Some doc => truthy doc && includes doc (job_fileName job)
  | None => false
  end.

Definition currentJob (printerStatus : PrinterStatus) (job : Job)
    : option QueueEntry :=
  match ps_jobs printerStatus with
  | Some jobs => List.find (entry_matches job) jobs
  | None => None
  end.

(** [(currentJob.pages_printed / currentJob.total_pages) * 100] *)
Definition pages_ratio (printed total : Z) : Q :=
  (inject_Z printed / inject_Z total * 100)%Q.

(** [printerStatus.status === 'error' || printerStatus.status === 'offline'] *)
Definition printer_failed (printerStatus : PrinterStatus) : bool :=
  jsstring_eqb (ps_status printerStatus) (js "error")
  || jsstring_eqb (ps_status printerStatus) (js "offline").

(** [`Printer ${printerStatus.status}: ${printerStatus.message || 'Unknown error'}`] *)
Definition failure_message (printerStatus : PrinterStatus) : jsstring :=
  js "Printer " ++ ps_status printerStatus ++ js ": "
  ++ or_default (ps_message printerStatus) (js "Unknown error").

(** What one run of the interval callback has done so far to the things it
    owns: its job object, its interval, and the removals it has scheduled. *)
Record frame : Type := mkFrame {
  fr_job : Job;
  fr_cleared : bool;      (* clearInterval(interval) was called *)
  fr_scheduled : nat      (* setTimeout(removeJobFromQueue(job.id), 2000) calls *)
}.

Definition on_job (g : Job -> Job) (f : frame) : frame :=
  mkFrame (g (fr_job f)) (fr_cleared f) (fr_scheduled f).

(**
<<
job.progress = 100;
job.status = 'completed';
clearInterval(interval);
setTimeout(() => { this.removeJobFromQueue(job.id); }, 2000);
>> *)
Definition completes (f : frame) : frame :=
  mkFrame (set_status Completed (set_progress 100 (fr_job f)))
          true (S (fr_scheduled f)).

(** How the [try] statement of the callback is left. *)
Inductive flow : Type :=
  | Returned      (* by the [return] of the printer-failure branch *)
  | Falls.        (* to the statements after the [try] *)

(** [job.progress += Math.random() * 10 + 5] *)
Definition simulated (rnd : Q) (job : Job) : Job :=
  set_progress (job_progress job + (rnd * 10 + 5))%Q job.

(** The [if (currentJob) { ... } else { ... }] statement:
<<
if (currentJob) {
    if (currentJob.total_pages > 0) {
        job.progress = Math.min(95, (currentJob.pages_printed / currentJob.total_pages) * 100);
    } else {
        job.progress = Math.min(90, job.progress + 10);
    }
} else {
    if (job.progress < 95) {
        job.progress = Math.min(95, job.progress + 15);
    } else {
        job.progress = 100; job.status = 'completed'; ...
    }
}
>> *)
Definition queue_progress (printerStatus : PrinterStatus) (f : frame) : frame :=
  let job := fr_job f in
  match currentJob printerStatus job with
  | Some cur =>
      match total_pages cur with
      | Some total =>
          if (0 <? total)%Z then
            on_job (set_progress
                      (Qmin 95 (pages_ratio (pages_printed cur) total))) f
          else
            on_job (set_progress (Qmin 90 (job_progress job + 10))) f
      | None =>
          on_job (set_progress (Qmin 90 (job_progress job + 10))) f
      end
  | None =>
      if Qltb (job_progress job) 95 then
        on_job (set_progress (Qmin 95 (job_progress job + 15))) f
      else
        completes f
  end.

(**
<<
job.status = 'error';
job.error = `Printer ${printerStatus.status}: ...`;
clearInterval(interval);
>> *)
Definition fails (printerStatus : PrinterStatus) (f : frame) : frame :=
  mkFrame (set_error (failure_message printerStatus)
                     (set_status Error (fr_job f)))
          true (fr_scheduled f).

(** The [try { ... } catch { ... }] statement of the callback. *)
Definition poll (resp : Response) (rnd : Q) (f : frame) : flow * frame :=
  match resp with
  | Ok printerStatus =>
      let f1 := queue_progress printerStatus f in
      if printer_failed printerStatus
      then (Returned, fails printerStatus f1)
      else (Falls, f1)
  | NotOk => (Falls, on_job (simulated rnd) f)
  | FetchThrows => (Falls, on_job (simulated rnd) f)
  end.

(** The statements after the [try]:
    [if (job.progress >= 100) { ... }], before [updateJobInQueue]. *)
Definition ensure_cap (f : frame) : frame :=
  if Qle_bool 100 (job_progress (fr_job f)) then completes f else f.

(** The guard at the head of the callback:
    [job.status === 'error' || job.status === 'cancelled']. *)
Definition stopped (s : JobStatus) : bool :=
  match s with
  | Error | Cancelled => true
  | _ => false
  end.

(** The effect of one callback on its job, interval and time-outs alone. *)
Definition tick_frame (resp : Response) (rnd : Q) (job : Job) : flow * frame :=
  let f0 := mkFrame job false 0 in
  if stopped (job_status job) then (Returned, mkFrame job true 0)
  else
    match poll resp rnd f0 with
    | (Returned, f) => (Returned, f)
    | (Falls, f) => (Falls, ensure_cap f)
    end.

(** The writes of a frame, made visible in the dashboard. *)
Definition commit (r : nat) (f : frame) (d : Dashboard) : Dashboard :=
  let d1 := with_store (<[r := fr_job f]> (store d)) d in
  let d2 := if fr_cleared f then clearInterval r d1 else d1 in
  with_timeouts
    (timeouts d2 ++ replicate (fr_scheduled f) (job_id (fr_job f))) d2.

(** One firing of the interval that [monitorJobProgress(job)] installs for
    the job object [r]. A cleared interval does not fire. On both [return]
    paths the callback ends with [this.removeJobFromQueue(job.id)], on the
    other paths with [this.updateJobInQueue(job)]. *)
Definition monitor_tick (r : nat) (now : N) (resp : Response) (rnd : Q)
    (d : Dashboard) : Dashboard :=
  if bool_decide (r ∈ intervals d) then
    match store d !! r with
    | None => d
    | Some job =>
        match tick_frame resp rnd job with
        | (Returned, f) => removeJobFromQueue now (job_id job) (commit r f d)
        | (Falls, f) => updateJobInQueue r (commit r f d)
        end
    end
  else d.

(** [monitorJobProgress(job)]: the interval is installed. *)
Definition monitorJobProgress (r : nat) (d : Dashboard) : Dashboard :=
  with_intervals ({[r]} ∪ intervals d) d.

(* ===================================================================== *)
(** ** Submission *)
(* ===================================================================== *)

(** [printDocument()] up to the [await] of the print request. [selected] is
    the name of the current file when a file, its id and a printer are all
    set. The new job object gets the counter value as id and reference. *)
Definition printDocument (selected : option jsstring)
    (page_range : option jsstring) (d : Dashboard) : Dashboard :=
  match selected with
  | None => showMessage (js "Please select a file and printer") MsgError d
  | Some name =>
      match printDocument_gate page_range with
      | Refused message => showMessage message MsgError d
      | Proceeds =>
          let jobId := jobIdCounter d in
          let job := mkJob jobId name Pending 0 None in
          let d1 := with_counter (S jobId) d in
          let d2 := with_store (<[jobId := job]> (store d1)) d1 in
          with_awaiting ({[jobId]} ∪ awaiting d2) (addJobToQueue jobId d2)
      end
  end.

(** [printDocument()] after the [await], for the job object [r]. *)
Definition printResponse (r : nat) (outcome : Dispatch) (d : Dashboard)
    : Dashboard :=
  if bool_decide (r ∈ awaiting d) then
    let d0 := with_awaiting (awaiting d ∖ {[r]}) d in
    match store d0 !! r with
    | None => d0
    | Some job =>
        match outcome with
        | DispatchOk =>
            let d1 := with_store (<[r := set_status Printing job]> (store d0)) d0 in
            monitorJobProgress r
              (showMessage
                 (js "Print job with document processing started: "
                    ++ job_fileName job) MsgSuccess
                 (updateJobInQueue r d1))
        | DispatchFailed detail =>
            let d1 := with_store (<[r := set_status Error job]> (store d0)) d0 in
            showMessage (js "Print failed: " ++ or_default detail (js "Unknown error"))
                        MsgError (updateJobInQueue r d1)
        | DispatchThrows message =>
            let d1 := with_store (<[r := set_status Error job]> (store d0)) d0 in
            showMessage (js "Print error: " ++ message)
                        MsgError (updateJobInQueue r d1)
        end
    end
  else d.

(* ===================================================================== *)
(** ** The dashboard as a transition system *)
(* ===================================================================== *)

Inductive event : Type :=
  | PrintDocument (selected : option jsstring) (page_range : option jsstring)
  | PrintResponse (r : nat) (outcome : Dispatch)
  | Tick (r : nat) (now : N) (resp : Response) (rnd : Q)
  | CancelJob (jobId : nat)
  | TimeoutFires (k : nat) (now : N)
  | ClearQueue (now : N)
  | ClearHistory.

(** The [k]-th pending time-out fires. *)
Definition timeout_fires (k : nat) (now : N) (d : Dashboard) : Dashboard :=
  match timeouts d !! k with
  | None => d
  | Some jobId =>
      removeJobFromQueue now jobId (with_timeouts (delete k (timeouts d)) d)
  end.

Definition step (d : Dashboard) (e : event) : Dashboard :=
  match e with
  | PrintDocument selected page_range => printDocument selected page_range d
  | PrintResponse r outcome => printResponse r outcome d
  | Tick r now resp rnd => monitor_tick r now resp rnd d
  | CancelJob jobId => cancelJob jobId d
  | TimeoutFires k now => timeout_fires k now d
  | ClearQueue now => clearQueue now d
  | ClearHistory => clearHistory d
  end.

Definition run (d : Dashboard) (events : list event) : Dashboard :=
  fold_left step events d.

(** The progress and the status of the job object [r]. *)
Definition progress_of (r : nat) (d : Dashboard) : option Q :=
  job_progress <$> store d !! r.

Definition status_of (r : nat) (d : Dashboard) : option JobStatus :=
  job_status <$> store d !! r.

(* ===================================================================== *)
(** ** Well-formed dashboards, and the scenarios used below *)
(* ===================================================================== *)

(** [d'] differs from [d] in the queue and the history at most. *)
Definition same_jobs (d d' : Dashboard) : Prop :=
  store d' = store d /\ jobIdCounter d' = jobIdCounter d
  /\ awaiting d' = awaiting d /\ intervals d' = intervals d
  /\ messages d' = messages d.

(** What every dashboard built by the constructor and the operations above
    satisfies: a job object is stored under its id, ids are below the
    counter, a progress is at most 100, and a job waits for the answer to
    its print request before its monitor exists. *)
Definition wf (d : Dashboard) : Prop :=
  (forall r job, store d !! r = Some job ->
     job_id job = r /\ (r < jobIdCounter d)%nat /\ (job_progress job <= 100)%Q)
  /\ (forall r, r ∈ awaiting d ∪ intervals d -> (r < jobIdCounter d)%nat)
  /\ awaiting d ## intervals d.



(** The status provider cannot be reached: [response.ok] is false or the
    [try] block throws. *)
Definition unreachable (resp : Response) : Prop :=
  resp = NotOk \/ resp = FetchThrows.

(** The monitor of the job object [r] has run and has been stopped; it
    cannot be installed again. *)
Definition retired (r : nat) (d : Dashboard) : Prop :=
  (r < jobIdCounter d)%nat /\ (r ∉ awaiting d) /\ (r ∉ intervals d).

(** [job'] is [job], or [job] after [job.status = 'cancelled']. *)
Definition maybe_cancelled (job job' : Job) : Prop :=
  job' = job \/ job' = set_status Cancelled job.

Definition report : jsstring := js "report.pdf".

(** The printer is ready and reports the queue [jobs]. *)
Definition printer_ready (jobs : list QueueEntry) : Response :=
  Ok (mkPrinterStatus (js "ready") None (Some jobs)).

(** The printer reports the document with [printed] of [total] pages. *)
Definition queued (printed total : Z) : Response :=
  printer_ready [mkQueueEntry (Some report) printed (Some total)].

Definition printer_offline : Response :=
  Ok (mkPrinterStatus (js "offline") (Some (js "Out of paper")) (Some [])).

(** A fresh dashboard on which [report.pdf] was submitted and accepted by
    the server: job 1 is printing and its monitor is installed. *)
Definition printing_dashboard : Dashboard :=
  run new_dashboard
      [PrintDocument (Some report) None; PrintResponse 1 DispatchOk].

(** ... after [n] polls that do not find the document in the queue. *)
Definition polled (n : nat) : Dashboard :=
  run printing_dashboard (repeat (Tick 1 0 (printer_ready []) 0%Q) n).

(** The [n]-th job of a day, finished. *)
Definition finished (n : nat) : HistoryEntry :=
  mkEntry (mkJob n report Completed 100 None) (N.of_nat n).

(** A dashboard whose history holds the twenty jobs 20, 19, ..., 1. *)
Definition full_dashboard : Dashboard :=
  with_history (List.map finished (rev (seq 1 20))) new_dashboard.

(* ===================================================================== *)
(** ** Form fields of the two pages *)
(* ===================================================================== *)

(** [String.prototype.trim]: the white space at both ends is removed; it is
    the white space of the class [\s]. *)
Fixpoint trimStart (s : jsstring) : jsstring :=
  match s with
  | [] => []
  | c :: s' => if is_space c then trimStart s' else s
  end.

Fixpoint trimEnd (s : jsstring) : jsstring :=
  match s with
  | [] => []
  | c :: s' =>
      match trimEnd s' with
      | [] => if is_space c then [] else [c]
      | t => c :: t
      end
  end.

Definition trim (s : jsstring) : jsstring := trimEnd (trimStart s).

(** static/dashboard.js, getPrintSettings, the [page_range] property:
<<
let pageRange = null;
if (pageRangeType === 'range' && pageRangeInput.trim()) {
    pageRange = pageRangeInput.trim();
} else if (pageRangeType === 'odd') {
    pageRange = 'odd';
} else if (pageRangeType === 'even') {
    pageRange = 'even';
}
>> *)
Definition getPrintSettings_page_range (pageRangeType pageRangeInput : jsstring)
    : option jsstring :=
  if jsstring_eqb pageRangeType (js "range") && truthy (trim pageRangeInput)
  then Some (trim pageRangeInput)
  else if jsstring_eqb pageRangeType (js "odd") then Some (js "odd")
  else if jsstring_eqb pageRangeType (js "even") then Some (js "even")
  else None.

(** static/dashboard.js, getPrintSettings, the properties [split_pdf] and
    [split_page_range]:
<<
let splitPdf = false;
let splitPageRange = null;
if (pdfSplit === 'pages' && splitRange.trim()) {
    splitPdf = true;
    splitPageRange = splitRange.trim();
} else if (pdfSplit === 'single') {
    splitPdf = true;
    splitPageRange = 'all';
}
>> *)
Definition getPrintSettings_split (pdfSplit splitRange : jsstring)
    : bool * option jsstring :=
  if jsstring_eqb pdfSplit (js "pages") && truthy (trim splitRange)
  then (true, Some (trim splitRange))
  else if jsstring_eqb pdfSplit (js "single") then (true, Some (js "all"))
  else (false, None).

(** The fields that [submitPrintJob] of web/app.js reads: the global
    [currentFileId] and the values of the form elements. *)
Record PrintForm : Type := mkPrintForm {
  currentFileId : option jsstring;
  printerSelect : jsstring;
  copies : jsstring;
  colorMode : jsstring;
  paperSize : jsstring;
  orientation : jsstring;
  quality : jsstring;
  duplex : jsstring;
  fitToPage : jsstring;
  customScale : jsstring;
  pageRangeType : jsstring;
  pageRange : jsstring;
  marginTop : jsstring;
  marginBottom : jsstring;
  marginLeft : jsstring;
  marginRight : jsstring;
  centerHorizontally : bool;
  centerVertically : bool
}.

(** What [submitPrintJob] does before it awaits the server: it shows an
    alert and returns, or it posts the form data. *)
Inductive submission : Type :=
  | Alerted (type message : jsstring)
  | Posted (formData : list (jsstring * jsstring)).

(** A boolean appended to a [FormData] is stored as a string. *)
Definition boolean_string (b : bool) : jsstring :=
  if b then js "true" else js "false".

(** web/app.js, submitPrintJob: the [FormData] that the calls of
    [formData.append] build, [custom_scale] and [page_range] under their
    conditions. *)
Definition submitPrintJob_formData (f : PrintForm) : list (jsstring * jsstring) :=
  [ (js "file_id", or_default (currentFileId f) []);
    (js "printer_name", printerSelect f);
    (js "copies", copies f);
    (js "color_mode", colorMode f);
    (js "paper_size", paperSize f);
    (js "orientation", orientation f);
    (js "quality", quality f);
    (js "duplex", duplex f);
    (js "fit_to_page", fitToPage f) ]
  ++ (if jsstring_eqb (fitToPage f) (js "custom")
      then [ (js "custom_scale", customScale f) ] else [])
  ++ [ (js "page_range_type", pageRangeType f) ]
  ++ (if jsstring_eqb (pageRangeType f) (js "range") && truthy (pageRange f)
      then [ (js "page_range", pageRange f) ] else [])
  ++ [ (js "margin_top", marginTop f);
       (js "margin_bottom", marginBottom f);
       (js "margin_left", marginLeft f);
       (js "margin_right", marginRight f);
       (js "center_horizontally", boolean_string (centerHorizontally f));
       (js "center_vertically", boolean_string (centerVertically f)) ].

(** web/app.js, submitPrintJob, up to the [fetch]. *)
Definition submitPrintJob (f : PrintForm) : submission :=
  if negb (truthy (or_default (currentFileId f) [])) then
    Alerted (js "error") (js "Please upload a file first")
  else if negb (truthy (printerSelect f)) then
    Alerted (js "error") (js "Please select a printer")
  else
    match submitPrintJob_gate (pageRangeType f) (pageRange f) with
    | Refused message => Alerted (js "error") message
    | Proceeds => Posted (submitPrintJob_formData f)
    end.

(** [FormData.prototype.get]: the first value appended under the key. *)
Fixpoint formData_get (key : jsstring) (formData : list (jsstring * jsstring))
    : option jsstring :=
  match formData with
  | [] => None
  | (k, v) :: rest => if jsstring_eqb k key then Some v else formData_get key rest
  end.

(** A code unit that a page range may hold. *)
Definition range_char (c : code_unit) : bool :=
  is_digit c || is_hyphen c || is_comma c || is_space c.

(** *** The fall-back keywords of static/config.js *)

(** [value.split(',')] *)
Fixpoint split_comma (s : jsstring) : list jsstring :=
  match s with
  | [] => [[]]
  | c :: s' =>
      if is_comma c then [] :: split_comma s'
      else match split_comma s' with
           | [] => [[c]]
           | w :: ws => (c :: w) :: ws
           end
  end.


(** static/config.js, handleConfigUpdate:
    [value.split(',').map(k => k.trim()).filter(k => k.length > 0)]. *)
Definition parse_keywords (value : jsstring) : list jsstring :=
  List.filter (fun k => Nat.ltb 0 (length k)) (List.map trim (split_comma value)).



(** A keyword as [parse_keywords] produces it: not empty, without a comma,
    without white space at either end. *)
Definition clean_keyword (k : jsstring) : Prop :=
  k <> [] /\ trim k = k /\ Forall (fun c => is_comma c = false) k.

(** *** Paging and up-time of web/app.js *)

(** web/app.js, changePage, on the global [currentPage]:
<<
function changePage(page) {
    if (page < 1) return;
    currentPage = page;
    loadJobs();
}
>> *)
Definition changePage (page : Z) (currentPage : Z) : Z :=
  if (page <? 1)%Z then currentPage else page.

(** web/app.js, updatePagination, the numbers of the loop
<<
const startPage = Math.max(1, currentPage - 2);
const endPage = Math.min(totalPages, currentPage + 2);
for (let i = startPage; i <= endPage; i++) { ... }
>> *)
Definition page_numbers (currentPage totalPages : Z) : list Z :=
  let startPage := Z.max 1 (currentPage - 2) in
  let endPage := Z.min totalPages (currentPage + 2) in
  List.map (fun k => (startPage + Z.of_nat k)%Z)
           (seq 0 (Z.to_nat (endPage - startPage + 1))).

(** One [<li class="page-item ...">] of the pagination: its extra class and
    the argument of the [changePage] call of its link. *)
Record page_item : Type := mkPageItem {
  item_class : jsstring;
  item_target : Z
}.

(** web/app.js, updatePagination: the previous link, the numbered links and
    the next link. *)
Definition updatePagination (currentPage totalPages : Z) : list page_item :=
  [ mkPageItem (if (currentPage =? 1)%Z then js "disabled" else [])
               (currentPage - 1) ]
  ++ List.map (fun i => mkPageItem (if (i =? currentPage)%Z then js "active" else []) i)
              (page_numbers currentPage totalPages)
  ++ [ mkPageItem (if (currentPage =? totalPages)%Z then js "disabled" else [])
                  (currentPage + 1) ].

(** The pages that a sequence of clicks leads to. *)
Definition click_pages (currentPage : Z) (clicks : list Z) : Z :=
  fold_left (fun cur page => changePage page cur) clicks currentPage.

(** The remainder operator [%] on numbers. *)
Definition Qtruncate (x : Q) : Z :=
  if Qle_bool 0 x then Qfloor x else Qceiling x.

Definition js_rem (a b : Q) : Q :=
  (a - b * inject_Z (Qtruncate (a / b)))%Q.

(** web/app.js, formatUptime:
<<
const hours = Math.floor(seconds / 3600);
const minutes = Math.floor((seconds % 3600) / 60);
return `${hours}h ${minutes}m`;
>>
    The two numbers of the result. *)
Definition uptime_hours (seconds : Q) : Z := Qfloor (seconds / 3600).

Definition uptime_minutes (seconds : Q) : Z :=
  Qfloor (js_rem seconds 3600 / 60).

(* ===================================================================== *)
(** ** The simulated progress of the first version of the dashboard *)
(* ===================================================================== *)

(** static/dashboard.js (first version), simulateJobProgress, one firing of
    its interval on the job alone:
<<
if (job.status === 'error' || job.status === 'cancelled') {
    clearInterval(interval);
    this.removeJobFromQueue(job.id);
    return;
}
job.progress += Math.random() * 15 + 5;
if (job.progress >= 100) {
    job.progress = 100;
    job.status = 'completed';
    clearInterval(interval);
    setTimeout(() => { this.removeJobFromQueue(job.id); }, 2000);
}
this.updateJobInQueue(job);
>> *)
Definition simulate_frame (rnd : Q) (job : Job) : flow * frame :=
  if stopped (job_status job) then (Returned, mkFrame job true 0)
  else
    (Falls,
     ensure_cap
       (mkFrame (set_progress (job_progress job + (rnd * 15 + 5))%Q job)
                false 0)).

(** One firing of the interval of [simulateJobProgress(job)] for the job
    object [r]. *)
Definition simulate_tick (r : nat) (now : N) (rnd : Q) (d : Dashboard)
    : Dashboard :=
  if bool_decide (r ∈ intervals d) then
    match store d !! r with
    | None => d
    | Some job =>
        match simulate_frame rnd job with
        | (Returned, f) => removeJobFromQueue now (job_id job) (commit r f d)
        | (Falls, f) => updateJobInQueue r (commit r f d)
        end
    end
  else d.

(** Successive firings, each with its time and its random number. *)
Definition simulate_ticks (r : nat) (ticks : list (N * Q)) (d : Dashboard)
    : Dashboard :=
  fold_left (fun d t => simulate_tick r (fst t) (snd t) d) ticks d.

(** Successive firings of the monitor of [r]. *)
Definition monitor_ticks (r : nat) (ticks : list (N * Response * Q))
    (d : Dashboard) : Dashboard :=
  fold_left (fun d t => monitor_tick r (fst (fst t)) (snd (fst t)) (snd t) d)
            ticks d.

(** A poll that neither finds the job named [fileName] in the reported
    queue nor reports a printer failure, or that does not reach the
    provider at all. *)
Definition quiet (fileName : jsstring) (t : N * Response * Q) : Prop :=
  (0 <= snd t)%Q
  /\ match snd (fst t) with
     | Ok ps =>
         printer_failed ps = false
         /\ forall job, job_fileName job = fileName -> currentJob ps job = None
     | _ => True
     end.

(** What one firing of an interval does to a job that was running: it
    completes the job and clears the interval, or it leaves the job running
    below 100 with at least 5 more progress, or at 95 and above. *)
Definition advances (job : Job) (f : frame) : Prop :=
  (fr_cleared f = true /\ job_status (fr_job f) = Completed
   /\ job_progress (fr_job f) = 100%Q)
  \/ (fr_cleared f = false /\ stopped (job_status (fr_job f)) = false
      /\ job_fileName (fr_job f) = job_fileName job
      /\ (job_progress (fr_job f) < 100)%Q
      /\ (job_progress job < 95)%Q
      /\ (job_progress job + 5 <= job_progress (fr_job f)
          \/ 95 <= job_progress (fr_job f))%Q).

(** The job [r] is shown as completed and its interval is gone. *)
Definition done (r : nat) (d : Dashboard) : Prop :=
  exists job, store d !! r = Some job /\ job_status job = Completed
              /\ job_progress job = 100%Q /\ r ∉ intervals d.

(** The ids of the jobs of the history, most recent first. *)
Definition history_ids (d : Dashboard) : list nat :=
  (fun e => job_id (entry_job e)) <$> jobHistory d.

(** [loadJobHistory()], called by the constructor's [init()]:
<<
    const saved = localStorage.getItem('printJobHistory');
    if (saved) { this.jobHistory = JSON.parse(saved); ... }
>>
    [saved] is the array that had been stored, [None] when the item is
    missing. *)
Definition loadJobHistory (saved : option (list HistoryEntry))
    (d : Dashboard) : Dashboard :=
  match saved with
  | Some history => with_history history d
  | None => d
  end.

(** The queue holds no reference twice, and only references handed out by
    the counter. *)
Definition distinct_queue (d : Dashboard) : Prop :=
  NoDup (jobQueue d)
  /\ (forall r, r ∈ jobQueue d -> (r < jobIdCounter d)%nat).

(** Every job is at one place: the queue holds no reference twice, the
    history holds no job twice, and no job is in both. *)
Definition tidy (d : Dashboard) : Prop :=
  NoDup (jobQueue d ++ history_ids d)
  /\ (forall r, r ∈ jobQueue d ++ history_ids d -> (r < jobIdCounter d)%nat).

(** The history entry that [clearQueue] makes of the queued reference [r]. *)
Definition cancelled_entry (now : N) (m : gmap nat Job) (r : nat)
    : option HistoryEntry :=
  (fun job => mkEntry (set_status Cancelled job) now) <$> m !! r.

(* ===================================================================== *)
(** ** The callback of the monitor as the browser runs it *)
(* ===================================================================== *)

(** Numbers of the script are doubles: an arithmetic operation gives its
    exact result rounded to a double. [fl] below is that rounding; the
    comparisons and [Math.min] are exact. At the rounding that changes
    nothing these definitions are the ones of the sections above. *)

(** What the bounds on the estimate use of a rounding: it keeps the order,
    and it leaves the integers up to 2^53 as they are. *)
Definition rounding (fl : Q -> Q) : Prop :=
  (forall x y : Q, (x <= y)%Q -> (fl x <= fl y)%Q)
  /\ (forall z : Z, (Z.abs z <= 2 ^ 53)%Z -> (fl (inject_Z z) == inject_Z z)%Q).

(** The integer nearest to [n / d], for [0 <= n] and [0 < d]; of two nearest
    integers the even one. *)
Definition round_half_even (n d : Z) : Z :=
  let q := (n / d)%Z in
  match (2 * (n mod d) ?= d)%Z with
  | Lt => q
  | Gt => (q + 1)%Z
  | Eq => if Z.even q then q else (q + 1)%Z
  end.

(** The exponent [e] with [2^e <= n / d < 2^(e+1)], for [0 < n] and
    [0 < d]. *)
Definition binade (n d : Z) : Z :=
  let k := (Z.log2 n - Z.log2 d)%Z in
  if (n * 2 ^ Z.max (- k) 0 <? d * 2 ^ Z.max k 0)%Z then (k - 1)%Z else k.

(** The double nearest to [q], ties to the even mantissa (binary64: 53 bits
    of mantissa, smallest exponent -1074). The exponent has no upper bound
    here: a result of 2^1024 and more, which the script would hold as
    [Infinity], stays a number. *)
Definition double (q : Q) : Q :=
  let n := Qnum q in
  let d := Zpos (Qden q) in
  if (n =? 0)%Z then 0%Q
  else
    let a := Z.abs n in
    let e := Z.max (binade a d - 52) (- 1074) in
    let m := round_half_even (a * 2 ^ Z.max (- e) 0) (d * 2 ^ Z.max e 0) in
    let v := Qmake (m * 2 ^ Z.max e 0) (Z.to_pos (2 ^ Z.max (- e) 0)) in
    if (n <? 0)%Z then Qopp v else v.

(** [m] is an integer nearest to [x], the even one of two. *)
Definition nearest_even (x : Q) (m : Z) : Prop :=
  (inject_Z m - (1 # 2) <= x)%Q /\ (x <= inject_Z m + (1 # 2))%Q
  /\ ((x == inject_Z m - (1 # 2))%Q \/ (x == inject_Z m + (1 # 2))%Q ->
      Z.even m = true).

Module Callback.

Section Rounded.

Variable fl : Q -> Q.

(** [(currentJob.pages_printed / currentJob.total_pages) * 100] *)
Definition pages_ratio (printed total : Z) : Q :=
  fl (fl (inject_Z printed / inject_Z total) * 100).

(** [job.progress += Math.random() * 10 + 5] *)
Definition simulated (rnd : Q) (job : Job) : Job :=
  set_progress (fl (job_progress job + fl (fl (rnd * 10) + 5))) job.

(** The [if (currentJob) { ... } else { ... }] statement. *)
Definition queue_progress (printerStatus : PrinterStatus) (f : frame) : frame :=
  let job := fr_job f in
  match currentJob printerStatus job with
  | Some cur =>
      match total_pages cur with
      | Some total =>
          if (0 <? total)%Z then
            on_job (set_progress
                      (Qmin 95 (pages_ratio (pages_printed cur) total))) f
          else
            on_job (set_progress (Qmin 90 (fl (job_progress job + 10)))) f
      | None =>
          on_job (set_progress (Qmin 90 (fl (job_progress job + 10)))) f
      end
  | None =>
      if Qltb (job_progress job) 95 then
        on_job (set_progress (Qmin 95 (fl (job_progress job + 15)))) f
      else
        completes f
  end.

(** The [try { ... } catch { ... }] statement of the callback. *)
Definition poll (resp : Response) (rnd : Q) (f : frame) : flow * frame :=
  match resp with
  | Ok printerStatus =>
      let f1 := queue_progress printerStatus f in
      if printer_failed printerStatus
      then (Returned, fails printerStatus f1)
      else (Falls, f1)
  | NotOk => (Falls, on_job (simulated rnd) f)
  | FetchThrows => (Falls, on_job (simulated rnd) f)
  end.

(** The callback from the point where the answer of [fetch] is there: the
    [try] statement and the statements after it. The guard at the head of
    the callback is not evaluated again. *)
Definition resume_frame (resp : Response) (rnd : Q) (job : Job)
    : flow * frame :=
  match poll resp rnd (mkFrame job false 0) with
  | (Returned, f) => (Returned, f)
  | (Falls, f) => (Falls, ensure_cap f)
  end.

End Rounded.

End Callback.

(** The dashboard together with the callbacks of the monitors that have
    passed their guard and wait for the answer of [fetch], by job object,
    oldest first. [setInterval] does not wait for them: the interval can
    fire again, and any other handler can run, before an answer arrives. *)
Record Session : Type := mkSession {
  dash : Dashboard;
  inflight : list nat
}.

(** The interval of the job object [r] fires and the callback runs up to
    its first [await]:
<<
if (job.status === 'error' || job.status === 'cancelled') {
    clearInterval(interval);
    this.removeJobFromQueue(job.id);
    return;
}
try {
    const response = await fetch(...);
>> *)
Definition fires (r : nat) (now : N) (s : Session) : Session :=
  let d := dash s in
  if bool_decide (r ∈ intervals d) then
    match store d !! r with
    | None => s
    | Some job =>
        if stopped (job_status job)
        then mkSession (removeJobFromQueue now (job_id job) (clearInterval r d))
                       (inflight s)
        else mkSession d (inflight s ++ [r])
    end
  else s.

(** The [i]-th waiting callback gets its answer and runs to its end. *)
Definition answers (fl : Q -> Q) (i : nat) (now : N) (resp : Response)
    (rnd : Q) (s : Session) : Session :=
  match inflight s !! i with
  | None => s
  | Some r =>
      let d := dash s in
      let waiting := delete i (inflight s) in
      match store d !! r with
      | None => mkSession d waiting
      | Some job =>
          match Callback.resume_frame fl resp rnd job with
          | (Returned, f) =>
              mkSession (removeJobFromQueue now (job_id job) (commit r f d))
                        waiting
          | (Falls, f) => mkSession (updateJobInQueue r (commit r f d)) waiting
          end
      end
  end.

(** What can happen to a session, one handler at a time. *)
Inductive action : Type :=
  | Fires (r : nat) (now : N)
  | Answers (i : nat) (now : N) (resp : Response) (rnd : Q)
  | Submits (selected : option jsstring) (page_range : option jsstring)
  | Dispatched (r : nat) (outcome : Dispatch)
  | Cancels (jobId : nat)
  | TimesOut (k : nat) (now : N)
  | ClearsQueue (now : N)
  | ClearsHistory.

Definition on_dash (g : Dashboard -> Dashboard) (s : Session) : Session :=
  mkSession (g (dash s)) (inflight s).

Definition act (fl : Q -> Q) (s : Session) (a : action) : Session :=
  match a with
  | Fires r now => fires r now s
  | Answers i now resp rnd => answers fl i now resp rnd s
  | Submits selected page_range => on_dash (printDocument selected page_range) s
  | Dispatched r outcome => on_dash (printResponse r outcome) s
  | Cancels jobId => on_dash (cancelJob jobId) s
  | TimesOut k now => on_dash (timeout_fires k now) s
  | ClearsQueue now => on_dash (clearQueue now) s
  | ClearsHistory => on_dash clearHistory s
  end.

Definition session_run (fl : Q -> Q) (s : Session) (actions : list action)
    : Session :=
  fold_left (act fl) actions s.

(** What every session reached from a well-formed dashboard without waiting
    callbacks satisfies: a waiting callback belongs to a job whose print
    request has been answered. *)
Definition session_ok (s : Session) : Prop :=
  wf (dash s)
  /\ forall r, r ∈ inflight s ->
       (r < jobIdCounter (dash s))%nat /\ r ∉ awaiting (dash s).

(** The session of [d] in which [n] callbacks of the job object 1 wait for
    their answer. *)
Definition waiting (n : nat) (d : Dashboard) : Session :=
  session_run (fun q => q) (mkSession d []) (repeat (Fires 1 0) n).

(* ===================================================================== *)
(** ** Cancelling from the control panel *)
(* ===================================================================== *)

Module App.

(** What [fetch] and [response.json()] come to in [apiCall]. *)
Inductive ApiAnswer : Type :=
  | Rejects (message : jsstring)   (* fetch or json() rejects with this message *)
  | NotOkStatus (status statusText : jsstring)   (* response.ok is false *)
  | Json.                          (* response.ok, and the body parsed *)

(** web/app.js, apiCall: the alerts it shows, and the message of the error
    it throws, if it throws.
<<
try {
    const response = await fetch(...);
    if (!response.ok) {
        throw new Error(`HTTP ${response.status}: ${response.statusText}`);
    }
    return await response.json();
} catch (error) {
    showAlert('error', `API Error: ${error.message}`);
    throw error;
}
>> *)
Definition thrown (answer : ApiAnswer) : option jsstring :=
  match answer with
  | Rejects message => Some message
  | NotOkStatus status statusText =>
      Some (js "HTTP " ++ status ++ js ": " ++ statusText)
  | Json => None
  end.

Definition apiCall (answer : ApiAnswer)
    : list (message_type * jsstring) * option jsstring :=
  match thrown answer with
  | Some message => ([(MsgError, js "API Error: " ++ message)], Some message)
  | None => ([], None)
  end.

(** web/app.js, cancelJob: the alerts it shows and whether it calls
    [loadJobs()].
<<
if (!confirm('Are you sure you want to cancel this job?')) return;
try {
    await apiCall(`/jobs/${jobId}/cancel`, { method: 'POST' });
    showAlert('success', 'Job cancelled successfully');
    loadJobs();
} catch (error) {
    showAlert('error', `Failed to cancel job: ${error.message}`);
}
>> *)
Definition cancelJob (confirmed : bool) (answer : ApiAnswer)
    : list (message_type * jsstring) * bool :=
  if confirmed then
    match apiCall answer with
    | (alerts, None) =>
        (alerts ++ [(MsgSuccess, js "Job cancelled successfully")], true)
    | (alerts, Some message) =>
        (alerts ++ [(MsgError, js "Failed to cancel job: " ++ message)], false)
    end
  else ([], false).

End App.

(* ===================================================================== *)
(** ** The keywords field of the configuration form *)
(* ===================================================================== *)




(* ===================================================================== *)
(** ** The matcher decides the words of a regular expression *)
(* ===================================================================== *)

Section RegexFacts.

Implicit Types (r : regex) (s u v w : jsstring) (c : code_unit).

Lemma nullable_Lang r : nullable r = true <-> Lang r [].
Proof.
  induction r as [| |p|r1 IH1 r2 IH2|r1 IH1 r2 IH2|r1 IH1]; simpl; split.
  - discriminate.
  - inversion 1.
  - constructor.
  - reflexivity.
  - discriminate.
  - inversion 1.
  - intros [H1 H2]%andb_true_iff.
    change (@nil code_unit) with (@nil code_unit ++ []).
    constructor; [apply IH1 | apply IH2]; assumption.
  - intros H. inversion H as [| |? ? u v Hu Hv| | | |]; subst.
    match goal with E : _ ++ _ = [] |- _ => apply app_eq_nil in E as [-> ->] end.
    apply andb_true_iff; split; [apply IH1 | apply IH2]; assumption.
  - intros [H|H]%orb_true_iff.
    + apply Lang_alt_l, IH1, H.
    + apply Lang_alt_r, IH2, H.
  - inversion 1; subst; apply orb_true_iff.
    + left; apply IH1; assumption.
    + right; apply IH2; assumption.
  - constructor.
  - reflexivity.
Qed.

(** A non-empty word of [r*] starts with a non-empty word of [r]. *)
Lemma Lang_star_cons r c s :
  Lang (Star r) (c :: s) ->
  exists u v, s = u ++ v /\ Lang r (c :: u) /\ Lang (Star r) v.
Proof.
  intros H.
  remember (Star r) as r' eqn:Er.
  remember (c :: s) as w eqn:Ew.
  revert s Ew.
  induction H as [| | | | | |r0 u v Hu _ Hv IHv]; intros s Ew;
    try discriminate.
  injection Er as ->.
  destruct u as [|c' u'].
  - simpl in Ew. apply IHv; auto.
  - simpl in Ew. injection Ew as -> <-.
    exists u', v. auto.
Qed.

Lemma deriv_Lang c r : forall s, Lang (deriv c r) s <-> Lang r (c :: s).
Proof.
  induction r as [| |p|r1 IH1 r2 IH2|r1 IH1 r2 IH2|r1 IH1]; intros s; simpl.
  - split; inversion 1.
  - split; inversion 1.
  - split.
    + destruct (p c) eqn:Hp; inversion 1; subst. constructor; assumption.
    + intros H. inversion H as [|? ? Hp| | | | |]; subst. rewrite Hp. constructor.
  - split.
    + destruct (nullable r1) eqn:Hn.
      * intros H. inversion H as [| | |? ? ? H1| ? ? ? H1 | |]; subst.
        -- inversion H1; subst.
           change (c :: u ++ v) with ((c :: u) ++ v).
           constructor; [apply IH1|]; assumption.
        -- change (c :: s) with ([] ++ c :: s).
           constructor; [apply nullable_Lang | apply IH2]; assumption.
      * inversion 1; subst.
        change (c :: u ++ v) with ((c :: u) ++ v).
        constructor; [apply IH1|]; assumption.
    + intros H. inversion H as [| |? ? u v Hu Hv| | | |]; subst.
      match goal with E : _ ++ _ = _ :: _ |- _ => rename E into Heq end.
      destruct u as [|c' u']; simpl in Heq.
      * subst v. apply nullable_Lang in Hu. rewrite Hu.
        apply Lang_alt_r, IH2, Hv.
      * injection Heq as -> <-.
        assert (Lang (Cat (deriv c r1) r2) (u' ++ v)) as Hcat
          by (constructor; [apply IH1|]; assumption).
        destruct (nullable r1); [apply Lang_alt_l|]; exact Hcat.
  - split; inversion 1; subst.
    + apply Lang_alt_l, IH1; assumption.
    + apply Lang_alt_r, IH2; assumption.
    + apply Lang_alt_l, IH1; assumption.
    + apply Lang_alt_r, IH2; assumption.
  - split.
    + inversion 1; subst.
      change (c :: u ++ v) with ((c :: u) ++ v).
      constructor; [apply IH1|]; assumption.
    + intros (u & v & -> & Hu & Hv)%Lang_star_cons.
      constructor; [apply IH1|]; assumption.
Qed.

Lemma regex_test_Lang s : forall r, regex_test r s = true <-> Lang r s.
Proof.
  induction s as [|c s IH]; intros r; simpl.
  - apply nullable_Lang.
  - rewrite IH. apply deriv_Lang.
Qed.

Lemma regex_test_false r s : regex_test r s = false <-> ~ Lang r s.
Proof.
  rewrite <- regex_test_Lang. destruct (regex_test r s); split; intros;
    congruence.
Qed.

End RegexFacts.

(* ===================================================================== *)
(** ** The two patterns and the grammar *)
(* ===================================================================== *)

Section PageRangeFacts.

Implicit Types (s t u v w : jsstring) (c : code_unit).

Lemma jsstring_eqb_eq s t : jsstring_eqb s t = true <-> s = t.
Proof.
  revert t; induction s as [|c s IH]; intros [|d t]; simpl;
    try (split; [discriminate | congruence]); try tauto.
  rewrite andb_true_iff, N.eqb_eq, IH. split.
  - intros [-> ->]; reflexivity.
  - intros [= -> ->]; auto.
Qed.

Lemma is_space_spec c :
  is_space c = true <->
  (9 <= c <= 13 \/ c = 32 \/ c = 160 \/ c = 5760 \/ 8192 <= c <= 8202
   \/ c = 8232 \/ c = 8233 \/ c = 8239 \/ c = 8287 \/ c = 12288
   \/ c = 65279).
Proof.
  unfold is_space.
  rewrite !orb_true_iff, !andb_true_iff, !N.leb_le, !N.eqb_eq. tauto.
Qed.

Lemma is_digit_spec c : is_digit c = true <-> 48 <= c <= 57.
Proof. unfold is_digit. rewrite andb_true_iff, !N.leb_le. tauto. Qed.

Lemma digit_not_space c : is_digit c = true -> is_space c = false.
Proof.
  intros Hd%is_digit_spec. destruct (is_space c) eqn:Hs; [|reflexivity].
  apply is_space_spec in Hs. lia.
Qed.

Lemma hyphen_not_space : is_space hyphen = false.
Proof. reflexivity. Qed.

Lemma comma_not_space : is_space comma = false.
Proof. reflexivity. Qed.

Lemma is_hyphen_eq c : is_hyphen c = true <-> c = hyphen.
Proof. apply N.eqb_eq. Qed.

Lemma is_comma_eq c : is_comma c = true <-> c = comma.
Proof. apply N.eqb_eq. Qed.

(** *** White-space removal *)

Lemma strip_spaces_app s t :
  strip_spaces (s ++ t) = strip_spaces s ++ strip_spaces t.
Proof. apply List.filter_app. Qed.

Lemma strip_spaces_spaceless s : spaceless (strip_spaces s).
Proof.
  induction s as [|c s IH]; simpl; [constructor|].
  destruct (is_space c) eqn:Hc; simpl; [exact IH|].
  constructor; assumption.
Qed.

Lemma strip_spaces_id s : spaceless s -> strip_spaces s = s.
Proof.
  induction 1 as [|c s Hc _ IH]; simpl; [reflexivity|].
  rewrite Hc; simpl. f_equal. exact IH.
Qed.

Lemma strip_spaces_idem s : strip_spaces (strip_spaces s) = strip_spaces s.
Proof. apply strip_spaces_id, strip_spaces_spaceless. Qed.

Lemma strip_spaces_all s :
  Forall (fun c => is_space c = true) s -> strip_spaces s = [].
Proof.
  induction 1 as [|c s Hc _ IH]; simpl; [reflexivity|].
  rewrite Hc; simpl. exact IH.
Qed.

Lemma spaceless_app s t : spaceless (s ++ t) <-> spaceless s /\ spaceless t.
Proof. apply Forall_app. Qed.

Lemma spaces_spaceless_nil s :
  Forall (fun c => is_space c = true) s -> spaceless s -> s = [].
Proof.
  destruct 1 as [|c s Hc _]; [reflexivity|].
  inversion 1; congruence.
Qed.

Lemma digit_string_spaceless a : digit_string a -> spaceless a.
Proof.
  intros [_ Ha]. induction Ha; constructor; auto using digit_not_space.
Qed.

Lemma Token_spaceless t : Token t -> spaceless t.
Proof.
  destruct 1 as [a Ha|a b Ha Hb].
  - apply digit_string_spaceless, Ha.
  - apply spaceless_app; split; [apply digit_string_spaceless, Ha|].
    constructor; [apply hyphen_not_space | apply digit_string_spaceless, Hb].
Qed.

(** *** Words of the building blocks *)

Lemma Lang_star_class p w :
  Lang (Star (Class p)) w <-> Forall (fun c => p c = true) w.
Proof.
  split.
  - intros H. remember (Star (Class p)) as r eqn:Er.
    induction H as [| | | | | |r0 u v Hu _ _ IHv]; try discriminate.
    + constructor.
    + injection Er as ->. inversion Hu; subst. constructor; auto.
  - induction 1 as [|c w Hc _ IH]; [constructor|].
    change (c :: w) with ([c] ++ w).
    constructor; [constructor|]; assumption.
Qed.

Lemma Lang_plus_class p w :
  Lang (Plus (Class p)) w <-> w <> [] /\ Forall (fun c => p c = true) w.
Proof.
  unfold Plus. split.
  - intros H. inversion H as [| |? ? u v Hu Hv| | | |]; subst.
    inversion Hu; subst. apply Lang_star_class in Hv.
    split; [discriminate | constructor; assumption].
  - intros [Hne Hall]. destruct Hall as [|c w Hc Hw]; [congruence|].
    change (c :: w) with ([c] ++ w).
    constructor; [constructor; assumption | apply Lang_star_class, Hw].
Qed.

Lemma Lang_digits w : Lang (Plus (Class is_digit)) w <-> digit_string w.
Proof. apply Lang_plus_class. Qed.

Lemma Lang_range_token w : Lang range_token w <-> Token w.
Proof.
  unfold range_token, Opt. split.
  - intros H. inversion H as [| |? ? a x Ha Hx| | | |]; subst.
    apply Lang_digits in Ha.
    inversion Hx as [| | |? ? ? Hr|? ? ? He| |]; subst.
    + inversion Hr as [| |? ? h b Hh Hb| | | |]; subst.
      inversion Hh as [|? ? Hc| | | | |]; subst.
      apply is_hyphen_eq in Hc as ->. apply Lang_digits in Hb.
      simpl. apply Token_range; assumption.
    + inversion He; subst. rewrite app_nil_r. apply Token_single, Ha.
  - destruct 1 as [a Ha|a b Ha Hb].
    + rewrite <- (app_nil_r a).
      constructor; [apply Lang_digits, Ha | apply Lang_alt_r; constructor].
    + constructor; [apply Lang_digits, Ha|].
      apply Lang_alt_l. change (hyphen :: b) with ([hyphen] ++ b).
      constructor; [constructor; reflexivity | apply Lang_digits, Hb].
Qed.

Lemma Lang_star_mono r r' w :
  (forall u, Lang r u -> Lang r' u) -> Lang (Star r) w -> Lang (Star r') w.
Proof.
  intros Hsub H. remember (Star r) as r0 eqn:Er.
  induction H as [| | | | | |r1 u v Hu _ _ IHv]; try discriminate.
  - constructor.
  - injection Er as ->. constructor; auto.
Qed.

(** The tail [(,\s*\d+(-\d+)?)*] of [pageRangePattern]. *)
Lemma Lang_continuation w :
  Lang (Star (Cat (Class is_comma)
                  (Cat (Star (Class is_space)) range_token))) w
  <-> Continuation w.
Proof.
  split.
  - intros H.
    remember (Star (Cat (Class is_comma)
                        (Cat (Star (Class is_space)) range_token))) as r0 eqn:Er.
    induction H as [| | | | | |r1 u v Hu _ _ IHv]; try discriminate.
    + constructor.
    + injection Er as ->. specialize (IHv eq_refl).
      inversion Hu as [| |? ? k x Hk Hx| | | |]; subst.
      inversion Hk as [|? ? Hc| | | | |]; subst.
      apply is_comma_eq in Hc as ->.
      inversion Hx as [| |? ? ws t Hws Ht| | | |]; subst.
      apply Lang_star_class in Hws. apply Lang_range_token in Ht.
      simpl. rewrite <- app_assoc. constructor; assumption.
  - induction 1 as [|ws t rest Hws Ht _ IH]; [constructor|].
    replace (comma :: ws ++ t ++ rest)
      with (([comma] ++ (ws ++ t)) ++ rest)
      by (simpl; rewrite <- app_assoc; reflexivity).
    constructor; [|exact IH].
    constructor; [constructor; reflexivity|].
    constructor; [apply Lang_star_class, Hws | apply Lang_range_token, Ht].
Qed.

(** The pattern of [printDocument] is the grammar. *)
Lemma pageRangePattern_grammar s :
  Lang pageRangePattern s <-> PageRangeGrammar s.
Proof.
  unfold pageRangePattern, PageRangeGrammar. split.
  - intros H. inversion H as [| |? ? t rest Ht Hrest| | | |]; subst.
    exists t, rest. split; [reflexivity|]. split.
    + apply Lang_range_token, Ht.
    + apply Lang_continuation, Hrest.
  - intros (t & rest & -> & Ht & Hrest).
    constructor; [apply Lang_range_token, Ht | apply Lang_continuation, Hrest].
Qed.

(** The tail [(,\d+(-\d+)?)*] of [pattern]. *)
Lemma Lang_tail_spaceless w :
  Lang (Star (Cat (Class is_comma) range_token)) w
  <-> Continuation w /\ spaceless w.
Proof.
  split.
  - intros H.
    remember (Star (Cat (Class is_comma) range_token)) as r0 eqn:Er.
    induction H as [| | | | | |r1 u v Hu _ _ IHv]; try discriminate.
    + split; constructor.
    + injection Er as ->. destruct (IHv eq_refl) as [IHc IHs].
      inversion Hu as [| |? ? k t Hk Ht| | | |]; subst.
      inversion Hk as [|? ? Hc| | | | |]; subst.
      apply is_comma_eq in Hc as ->. apply Lang_range_token in Ht.
      split.
      * apply (Continuation_more [] t v); auto.
      * simpl. constructor; [apply comma_not_space|].
        apply spaceless_app; split; [apply Token_spaceless, Ht | exact IHs].
  - intros [Hc Hs]. induction Hc as [|ws t rest Hws Ht _ IH]; [constructor|].
    inversion Hs as [|? ? _ Hs']; subst.
    apply spaceless_app in Hs' as [Hws' Hs'].
    apply spaceless_app in Hs' as [_ Hrest].
    rewrite (spaces_spaceless_nil ws Hws Hws'). simpl.
    change (comma :: t ++ rest) with (([comma] ++ t) ++ rest).
    constructor; [|apply IH, Hrest].
    constructor; [constructor; reflexivity | apply Lang_range_token, Ht].
Qed.

(** The pattern of [validatePageRange] is the grammar without white space. *)
Lemma pattern_grammar s :
  Lang pattern s <-> PageRangeGrammar s /\ spaceless s.
Proof.
  unfold pattern, PageRangeGrammar. split.
  - intros H. inversion H as [| |? ? t rest Ht Hrest| | | |]; subst.
    apply Lang_range_token in Ht.
    apply Lang_tail_spaceless in Hrest as [Hc Hs]. split.
    + exists t, rest. auto.
    + apply spaceless_app; split; [apply Token_spaceless, Ht | exact Hs].
  - intros [(t & rest & -> & Ht & Hrest) [_ Hs]%spaceless_app].
    constructor; [apply Lang_range_token, Ht|].
    apply Lang_tail_spaceless; auto.
Qed.

(** Removing the white space of a string of the grammar leaves a string of
    the grammar. *)
Lemma Continuation_strip rest :
  Continuation rest -> Continuation (strip_spaces rest).
Proof.
  induction 1 as [|ws t rest Hws Ht _ IH]; [constructor|].
  change (comma :: ws ++ t ++ rest) with ([comma] ++ ws ++ t ++ rest).
  rewrite !strip_spaces_app, (strip_spaces_all ws Hws),
          (strip_spaces_id t (Token_spaceless t Ht)).
  simpl. apply (Continuation_more [] t); auto.
Qed.

Lemma PageRangeGrammar_strip s :
  PageRangeGrammar s -> PageRangeGrammar (strip_spaces s).
Proof.
  intros (t & rest & -> & Ht & Hrest).
  exists t, (strip_spaces rest).
  rewrite strip_spaces_app, (strip_spaces_id t (Token_spaceless t Ht)).
  auto using Continuation_strip.
Qed.

Lemma validatePageRange_spec s :
  validatePageRange s = true <-> PageRangeGrammar (strip_spaces s).
Proof.
  unfold validatePageRange. rewrite regex_test_Lang, pattern_grammar.
  split; [tauto|]. auto using strip_spaces_spaceless.
Qed.

Lemma printDocument_gate_spec s :
  printDocument_gate (Some s) = Proceeds <->
  s = [] \/ s = js "odd" \/ s = js "even" \/ PageRangeGrammar s.
Proof.
  unfold printDocument_gate.
  destruct s as [|c s]; [simpl; tauto|].
  change (truthy (c :: s)) with true. rewrite andb_true_l.
  destruct (jsstring_eqb (c :: s) (js "odd")) eqn:Hodd.
  { apply jsstring_eqb_eq in Hodd. simpl. tauto. }
  destruct (jsstring_eqb (c :: s) (js "even")) eqn:Heven.
  { apply jsstring_eqb_eq in Heven. simpl. tauto. }
  assert (c :: s <> js "odd")
    by (intros E%jsstring_eqb_eq; congruence).
  assert (c :: s <> js "even")
    by (intros E%jsstring_eqb_eq; congruence).
  change (negb false && negb false) with true. cbv iota.
  destruct (regex_test pageRangePattern (c :: s)) eqn:Ht; simpl negb; cbv iota.
  - apply regex_test_Lang, pageRangePattern_grammar in Ht. tauto.
  - apply regex_test_false in Ht. rewrite pageRangePattern_grammar in Ht.
    split; [discriminate|]. intros [|[|[|]]]; congruence || tauto.
Qed.

Lemma validatePageRange_grammar s :
  PageRangeGrammar s -> validatePageRange s = true.
Proof. intros H. apply validatePageRange_spec, PageRangeGrammar_strip, H. Qed.

Lemma submitPrintJob_gate_spec s :
  submitPrintJob_gate (js "range") s = Proceeds
  <-> s = [] \/ validatePageRange s = true.
Proof.
  unfold submitPrintJob_gate.
  change (jsstring_eqb (js "range") (js "range")) with true.
  rewrite andb_true_l. destruct s as [|c s]; [simpl; tauto|].
  change (truthy (c :: s)) with true. cbv iota.
  destruct (validatePageRange (c :: s)); simpl; split;
    try discriminate; auto.
  intros [|]; discriminate.
Qed.

Lemma printDocument_refused s name d :
  printDocument_gate (Some s) <> Proceeds ->
  exists message,
    printDocument (Some name) (Some s) d = showMessage message MsgError d.
Proof.
  intros Hgate. unfold printDocument.
  destruct (printDocument_gate (Some s)) as [message|]; [|congruence].
  exists message. reflexivity.
Qed.

Lemma hyphen_token_grammar a b :
  digit_string a -> digit_string b -> PageRangeGrammar (a ++ hyphen :: b).
Proof.
  intros Ha Hb. exists (a ++ hyphen :: b), []. rewrite app_nil_r.
  split; [reflexivity|].
  split; [apply Token_range; assumption | constructor].
Qed.

End PageRangeFacts.

(* ===================================================================== *)
(** ** Queue and history *)
(* ===================================================================== *)

Local Close Scope N_scope.

Section QueueFacts.

Implicit Types (d : Dashboard) (job : Job) (r jobId : nat).

Lemma same_jobs_refl d : same_jobs d d.
Proof. repeat split. Qed.

Lemma same_jobs_trans d1 d2 d3 :
  same_jobs d1 d2 -> same_jobs d2 d3 -> same_jobs d1 d3.
Proof.
  intros (?&?&?&?&?) (?&?&?&?&?). repeat split; congruence.
Qed.

Lemma addJobToHistory_same_jobs now job d :
  same_jobs d (addJobToHistory now job d).
Proof. repeat split. Qed.

Lemma addJobToHistory_queue now job d :
  jobQueue (addJobToHistory now job d) = jobQueue d.
Proof. reflexivity. Qed.

Lemma addJobToHistory_timeouts now job d :
  timeouts (addJobToHistory now job d) = timeouts d.
Proof. reflexivity. Qed.

Lemma removeJobFromQueue_same_jobs now jobId d :
  same_jobs d (removeJobFromQueue now jobId d).
Proof.
  unfold removeJobFromQueue.
  destruct (findIndex _ _); [|apply same_jobs_refl].
  destruct (_ ≫= _); [|apply same_jobs_refl].
  repeat split.
Qed.

Lemma removeJobFromQueue_timeouts now jobId d :
  timeouts (removeJobFromQueue now jobId d) = timeouts d.
Proof.
  unfold removeJobFromQueue.
  destruct (findIndex _ _); [|reflexivity].
  destruct (_ ≫= _); reflexivity.
Qed.

Lemma updateJobInQueue_same_jobs r d : same_jobs d (updateJobInQueue r d).
Proof.
  unfold updateJobInQueue.
  destruct (store d !! r); [|apply same_jobs_refl].
  destruct (findIndex _ _); [|apply same_jobs_refl].
  repeat split.
Qed.

Lemma updateJobInQueue_history r d :
  jobHistory (updateJobInQueue r d) = jobHistory d.
Proof.
  unfold updateJobInQueue.
  destruct (store d !! r); [|reflexivity].
  destruct (findIndex _ _); reflexivity.
Qed.

Lemma updateJobInQueue_timeouts r d :
  timeouts (updateJobInQueue r d) = timeouts d.
Proof.
  unfold updateJobInQueue.
  destruct (store d !! r); [|reflexivity].
  destruct (findIndex _ _); reflexivity.
Qed.

(** *** The cap of the history *)

Lemma addJobToHistory_history now job d :
  jobHistory (addJobToHistory now job d) =
  if Nat.ltb 20 (length (mkEntry job now :: jobHistory d))
  then take 20 (mkEntry job now :: jobHistory d)
  else mkEntry job now :: jobHistory d.
Proof. reflexivity. Qed.

Lemma addJobToHistory_length now job d :
  length (jobHistory (addJobToHistory now job d)) <= 20.
Proof.
  rewrite addJobToHistory_history.
  destruct (Nat.ltb_spec 20 (length (mkEntry job now :: jobHistory d)))
    as [Hlt|Hle].
  - rewrite length_take. lia.
  - exact Hle.
Qed.

Lemma addJobToHistory_head now job d :
  head (jobHistory (addJobToHistory now job d)) = Some (mkEntry job now).
Proof.
  rewrite addJobToHistory_history.
  destruct (Nat.ltb 20 _); reflexivity.
Qed.

Lemma addJobToHistory_full now job d kept oldest :
  jobHistory d = kept ++ [oldest] -> length kept = 19%nat ->
  jobHistory (addJobToHistory now job d) = mkEntry job now :: kept.
Proof.
  intros Hh Hk. rewrite addJobToHistory_history, Hh.
  destruct (Nat.ltb_spec 20 (length (mkEntry job now :: kept ++ [oldest])))
    as [_|Hle].
  - change 20%nat with (S 19). simpl. f_equal.
    apply take_app_length'. symmetry; exact Hk.
  - simpl in Hle. rewrite length_app in Hle. simpl in Hle. lia.
Qed.

Lemma addJobToHistory_room now job d :
  length (jobHistory d) < 20 ->
  jobHistory (addJobToHistory now job d) = mkEntry job now :: jobHistory d.
Proof.
  intros Hlt. rewrite addJobToHistory_history.
  destruct (Nat.ltb_spec 20 (length (mkEntry job now :: jobHistory d)))
    as [Hgt|_]; [|reflexivity].
  simpl in Hgt. lia.
Qed.

Lemma removeJobFromQueue_capped now jobId d :
  length (jobHistory d) <= 20 ->
  length (jobHistory (removeJobFromQueue now jobId d)) <= 20.
Proof.
  intros H. unfold removeJobFromQueue.
  destruct (findIndex _ _); [|exact H].
  destruct (_ ≫= _); [|exact H].
  apply addJobToHistory_length.
Qed.

Lemma clearQueue_capped now d :
  length (jobHistory d) <= 20 ->
  length (jobHistory (clearQueue now d)) <= 20.
Proof.
  unfold clearQueue. simpl jobHistory.
  generalize (jobQueue d). intros q. revert d.
  induction q as [|r q IH]; intros d H; simpl; [exact H|].
  apply IH. destruct (store d !! r); [|exact H].
  apply addJobToHistory_length.
Qed.

Lemma monitor_tick_capped r now resp rnd d :
  length (jobHistory d) <= 20 ->
  length (jobHistory (monitor_tick r now resp rnd d)) <= 20.
Proof.
  intros H. unfold monitor_tick.
  destruct (bool_decide _); [|exact H].
  destruct (store d !! r) as [job|]; [|exact H].
  destruct (tick_frame resp rnd job) as [[|] f].
  - apply removeJobFromQueue_capped.
    unfold commit. destruct (fr_cleared f); exact H.
  - rewrite updateJobInQueue_history.
    unfold commit. destruct (fr_cleared f); exact H.
Qed.

Lemma step_capped d e :
  length (jobHistory d) <= 20 -> length (jobHistory (step d e)) <= 20.
Proof.
  intros H. destruct e as [sel pr|r o|r now resp rnd|jobId|k now|now|]; simpl.
  - unfold printDocument. destruct sel; [|exact H].
    destruct (printDocument_gate pr); exact H.
  - unfold printResponse. destruct (bool_decide _); [|exact H].
    simpl store. destruct (store d !! r); [|exact H].
    destruct o; simpl; rewrite updateJobInQueue_history; exact H.
  - apply monitor_tick_capped, H.
  - unfold cancelJob. destruct (List.find _ _) as [r|]; [|exact H].
    destruct (store d !! r); [|exact H].
    simpl. rewrite updateJobInQueue_history. exact H.
  - unfold timeout_fires. destruct (timeouts d !! k); [|exact H].
    apply removeJobFromQueue_capped, H.
  - apply clearQueue_capped, H.
  - simpl. lia.
Qed.

Lemma run_capped events : forall d,
  length (jobHistory d) <= 20 -> length (jobHistory (run d events)) <= 20.
Proof.
  unfold run. induction events as [|e events IH]; intros d H; simpl.
  - exact H.
  - apply IH, step_capped, H.
Qed.

End QueueFacts.

(* ===================================================================== *)
(** ** One tick of the monitor, on the job alone *)
(* ===================================================================== *)

Section TickFacts.

Implicit Types (job : Job) (f : frame) (resp : Response) (rnd : Q).

Lemma Qle_bool_false a b : Qle_bool a b = false <-> (b < a)%Q.
Proof.
  rewrite <- not_true_iff_false, Qle_bool_iff. split.
  - apply Qnot_le_lt.
  - apply Qlt_not_le.
Qed.

Lemma Qltb_true a b : Qltb a b = true <-> (a < b)%Q.
Proof. unfold Qltb. rewrite negb_true_iff. apply Qle_bool_false. Qed.

Lemma Qltb_false a b : Qltb a b = false <-> (b <= a)%Q.
Proof. unfold Qltb. rewrite negb_false_iff. apply Qle_bool_iff. Qed.

Lemma Qmin_le_l a b : (Qmin a b <= a)%Q.
Proof. apply Q.le_min_l. Qed.


(** [ensure_cap] after a progress below 100 changes nothing. *)
Lemma ensure_cap_below f :
  (job_progress (fr_job f) < 100)%Q -> ensure_cap f = f.
Proof.
  intros H. unfold ensure_cap.
  apply Qle_bool_false in H. rewrite H. reflexivity.
Qed.

Lemma ensure_cap_reached f :
  (100 <= job_progress (fr_job f))%Q -> ensure_cap f = completes f.
Proof.
  intros H. unfold ensure_cap.
  apply Qle_bool_iff in H. rewrite H. reflexivity.
Qed.

Lemma ensure_cap_le f : (job_progress (fr_job (ensure_cap f)) <= 100)%Q.
Proof.
  unfold ensure_cap.
  destruct (Qle_bool 100 _) eqn:E; simpl.
  - lra.
  - apply Qle_bool_false in E. lra.
Qed.

Lemma ensure_cap_id f : job_id (fr_job (ensure_cap f)) = job_id (fr_job f).
Proof. unfold ensure_cap. destruct (Qle_bool 100 _); reflexivity. Qed.

Lemma ensure_cap_error f :
  job_error (fr_job (ensure_cap f)) = job_error (fr_job f).
Proof. unfold ensure_cap. destruct (Qle_bool 100 _); reflexivity. Qed.

(** *** The queue report *)

Lemma queue_progress_id ps f :
  job_id (fr_job (queue_progress ps f)) = job_id (fr_job f).
Proof.
  unfold queue_progress.
  destruct (currentJob ps (fr_job f)) as [cur|].
  - destruct (total_pages cur) as [total|]; [|reflexivity].
    destruct (0 <? total)%Z; reflexivity.
  - destruct (Qltb _ _); reflexivity.
Qed.

Lemma queue_progress_error ps f :
  job_error (fr_job (queue_progress ps f)) = job_error (fr_job f).
Proof.
  unfold queue_progress.
  destruct (currentJob ps (fr_job f)) as [cur|].
  - destruct (total_pages cur) as [total|]; [|reflexivity].
    destruct (0 <? total)%Z; reflexivity.
  - destruct (Qltb _ _); reflexivity.
Qed.

Lemma queue_progress_le ps f :
  (job_progress (fr_job (queue_progress ps f)) <= 100)%Q.
Proof.
  unfold queue_progress.
  destruct (currentJob ps (fr_job f)) as [cur|].
  - destruct (total_pages cur) as [total|];
      [destruct (0 <? total)%Z|]; simpl;
      (eapply Qle_trans; [apply Qmin_le_l | lra]).
  - destruct (Qltb _ _); simpl.
    + eapply Qle_trans; [apply Qmin_le_l | lra].
    + lra.
Qed.

(** The job is found with a positive page total: the progress is the
    capped page ratio. *)
Lemma queue_progress_matched ps f cur total :
  currentJob ps (fr_job f) = Some cur ->
  total_pages cur = Some total -> (0 < total)%Z ->
  queue_progress ps f =
  on_job (set_progress (Qmin 95 (pages_ratio (pages_printed cur) total))) f.
Proof.
  intros Hcur Htot Hpos. unfold queue_progress. rewrite Hcur, Htot.
  apply Z.ltb_lt in Hpos. rewrite Hpos. reflexivity.
Qed.


(** *** The whole callback *)

Lemma tick_frame_stopped resp rnd job :
  stopped (job_status job) = true ->
  tick_frame resp rnd job = (Returned, mkFrame job true 0).
Proof. intros H. unfold tick_frame. rewrite H. reflexivity. Qed.

Lemma tick_frame_failed ps rnd job :
  stopped (job_status job) = false -> printer_failed ps = true ->
  tick_frame (Ok ps) rnd job =
  (Returned, fails ps (queue_progress ps (mkFrame job false 0))).
Proof.
  intros Hs Hf. unfold tick_frame, poll. rewrite Hs, Hf. reflexivity.
Qed.

Lemma tick_frame_polled ps rnd job :
  stopped (job_status job) = false -> printer_failed ps = false ->
  tick_frame (Ok ps) rnd job =
  (Falls, ensure_cap (queue_progress ps (mkFrame job false 0))).
Proof.
  intros Hs Hf. unfold tick_frame, poll. rewrite Hs, Hf. reflexivity.
Qed.

Lemma tick_frame_unreachable resp rnd job :
  stopped (job_status job) = false -> unreachable resp ->
  tick_frame resp rnd job =
  (Falls, ensure_cap (mkFrame (simulated rnd job) false 0)).
Proof.
  intros Hs [-> | ->]; unfold tick_frame, poll; rewrite Hs; reflexivity.
Qed.

Lemma tick_frame_id resp rnd job :
  job_id (fr_job (tick_frame resp rnd job).2) = job_id job.
Proof.
  destruct (stopped (job_status job)) eqn:Hs.
  { rewrite tick_frame_stopped by assumption. reflexivity. }
  destruct resp as [| |ps].
  - rewrite tick_frame_unreachable by (auto; right; reflexivity).
    simpl. apply ensure_cap_id.
  - rewrite tick_frame_unreachable by (auto; left; reflexivity).
    simpl. apply ensure_cap_id.
  - destruct (printer_failed ps) eqn:Hf.
    + rewrite tick_frame_failed by assumption. simpl.
      apply (queue_progress_id ps (mkFrame job false 0)).
    + rewrite tick_frame_polled by assumption. simpl.
      rewrite ensure_cap_id.
      apply (queue_progress_id ps (mkFrame job false 0)).
Qed.

Lemma tick_frame_le resp rnd job :
  (job_progress job <= 100)%Q ->
  (job_progress (fr_job (tick_frame resp rnd job).2) <= 100)%Q.
Proof.
  intros Hle. destruct (stopped (job_status job)) eqn:Hs.
  { rewrite tick_frame_stopped by assumption. exact Hle. }
  destruct resp as [| |ps].
  - rewrite tick_frame_unreachable by (auto; right; reflexivity).
    apply ensure_cap_le.
  - rewrite tick_frame_unreachable by (auto; left; reflexivity).
    apply ensure_cap_le.
  - destruct (printer_failed ps) eqn:Hf.
    + rewrite tick_frame_failed by assumption. simpl.
      apply queue_progress_le.
    + rewrite tick_frame_polled by assumption. apply ensure_cap_le.
Qed.



End TickFacts.

(* ===================================================================== *)
(** ** The monitor and the other operations on the dashboard *)
(* ===================================================================== *)

Section DashboardFacts.

Implicit Types (d : Dashboard) (job : Job) (r jobId : nat) (e : event).

Lemma monitor_tick_dead r now resp rnd d :
  r ∉ intervals d -> monitor_tick r now resp rnd d = d.
Proof.
  intros H. unfold monitor_tick. rewrite bool_decide_eq_false_2 by exact H.
  reflexivity.
Qed.

Lemma commit_fields r f d :
  store (commit r f d) = <[r := fr_job f]> (store d)
  /\ jobIdCounter (commit r f d) = jobIdCounter d
  /\ awaiting (commit r f d) = awaiting d
  /\ intervals (commit r f d) =
       (if fr_cleared f then intervals d ∖ {[r]} else intervals d)
  /\ messages (commit r f d) = messages d.
Proof. unfold commit. destruct (fr_cleared f); repeat split. Qed.

(** A live interval fires: the job object gets the writes of the frame,
    the interval is cleared when the frame says so, and nothing is shown
    to the user. *)
Lemma monitor_tick_live r now resp rnd d job :
  r ∈ intervals d -> store d !! r = Some job ->
  let f := (tick_frame resp rnd job).2 in
  let d' := monitor_tick r now resp rnd d in
  store d' = <[r := fr_job f]> (store d)
  /\ jobIdCounter d' = jobIdCounter d
  /\ awaiting d' = awaiting d
  /\ intervals d' = (if fr_cleared f then intervals d ∖ {[r]} else intervals d)
  /\ messages d' = messages d.
Proof.
  intros Hin Hjob. unfold monitor_tick.
  rewrite bool_decide_eq_true_2 by exact Hin. rewrite Hjob.
  destruct (tick_frame resp rnd job) as [fl f]. simpl.
  destruct (commit_fields r f d) as (Cs & Cc & Ca & Ci & Cm).
  destruct fl.
  - destruct (removeJobFromQueue_same_jobs now (job_id job) (commit r f d))
      as (Hs & Hc & Ha & Hi & Hm).
    repeat split; congruence.
  - destruct (updateJobInQueue_same_jobs r (commit r f d))
      as (Hs & Hc & Ha & Hi & Hm).
    repeat split; congruence.
Qed.

Lemma cancelJob_found jobId d r job :
  List.find (has_id d jobId) (jobQueue d) = Some r ->
  store d !! r = Some job ->
  let d' := cancelJob jobId d in
  store d' = <[r := set_progress 0 (set_status Cancelled job)]> (store d)
  /\ jobIdCounter d' = jobIdCounter d
  /\ awaiting d' = awaiting d
  /\ intervals d' = intervals d
  /\ messages d' = messages d.
Proof.
  intros Hfind Hjob. unfold cancelJob. rewrite Hfind, Hjob.
  match goal with |- context [updateJobInQueue r ?x] =>
    destruct (updateJobInQueue_same_jobs r x) as (Hs & Hc & Ha & Hi & Hm)
  end.
  simpl. repeat split; assumption.
Qed.

Lemma cancelJob_missing jobId d :
  List.find (has_id d jobId) (jobQueue d) = None -> cancelJob jobId d = d.
Proof. intros H. unfold cancelJob. rewrite H. reflexivity. Qed.

Lemma find_has_id d jobId r :
  List.find (has_id d jobId) (jobQueue d) = Some r ->
  r ∈ jobQueue d /\ exists job, store d !! r = Some job /\ job_id job = jobId.
Proof.
  intros [Hin Hid]%List.find_some. split.
  - apply list_elem_of_In, Hin.
  - unfold has_id in Hid. destruct (store d !! r) as [job|]; [|discriminate].
    exists job. split; [reflexivity|]. apply Nat.eqb_eq, Hid.
Qed.

(** In a well-formed dashboard the job that [find] returns for an id is
    the one stored under that id. *)
Lemma find_queued d r job :
  wf d -> r ∈ jobQueue d -> store d !! r = Some job ->
  List.find (has_id d (job_id job)) (jobQueue d) = Some r.
Proof.
  intros (Hstore & _) Hin Hjob.
  destruct (List.find (has_id d (job_id job)) (jobQueue d)) as [r'|] eqn:Hf.
  - apply find_has_id in Hf as (_ & job' & Hjob' & Hid).
    destruct (Hstore _ _ Hjob) as (Hr & _).
    destruct (Hstore _ _ Hjob') as (Hr' & _). congruence.
  - exfalso. apply list_elem_of_In in Hin.
    pose proof (List.find_none _ _ Hf _ Hin) as Hno.
    unfold has_id in Hno. rewrite Hjob, Nat.eqb_refl in Hno. discriminate.
Qed.

Lemma clearQueue_fold_store now (q : list nat) : forall d r job',
  let each := fun d r =>
    match store d !! r with
    | None => d
    | Some job =>
        addJobToHistory now (set_status Cancelled job)
          (with_store (<[r := set_status Cancelled job]> (store d)) d)
    end in
  store (fold_left each q d) !! r = Some job' ->
  exists job, store d !! r = Some job /\ maybe_cancelled job job'.
Proof.
  induction q as [|r0 q IH]; intros d r job' each; simpl.
  - intros H. exists job'. split; [exact H | left; reflexivity].
  - intros H. apply IH in H as (job1 & H1 & Hm). subst each. simpl in H1.
    destruct (store d !! r0) as [job0|] eqn:H0.
    + simpl in H1. destruct (decide (r0 = r)) as [->|Hne].
      * rewrite lookup_insert_eq in H1. injection H1 as <-.
        exists job0. split; [exact H0|].
        destruct Hm as [->| ->]; right; reflexivity.
      * rewrite lookup_insert_ne in H1 by exact Hne. eauto.
    + eauto.
Qed.

Lemma clearQueue_fold_fields now (q : list nat) : forall d,
  let each := fun d r =>
    match store d !! r with
    | None => d
    | Some job =>
        addJobToHistory now (set_status Cancelled job)
          (with_store (<[r := set_status Cancelled job]> (store d)) d)
    end in
  jobIdCounter (fold_left each q d) = jobIdCounter d
  /\ awaiting (fold_left each q d) = awaiting d
  /\ intervals (fold_left each q d) = intervals d.
Proof.
  induction q as [|r0 q IH]; intros d each; simpl; [auto|].
  destruct (IH (each d r0)) as (Hc & Ha & Hi). fold each in Hc, Ha, Hi.
  rewrite Hc, Ha, Hi. subst each. simpl.
  destruct (store d !! r0); auto.
Qed.

Lemma clearQueue_store now d r job' :
  store (clearQueue now d) !! r = Some job' ->
  exists job, store d !! r = Some job /\ maybe_cancelled job job'.
Proof. unfold clearQueue. simpl store. apply clearQueue_fold_store. Qed.

Lemma clearQueue_fields now d :
  jobIdCounter (clearQueue now d) = jobIdCounter d
  /\ awaiting (clearQueue now d) = awaiting d
  /\ intervals (clearQueue now d) = intervals d.
Proof. unfold clearQueue. simpl. apply clearQueue_fold_fields. Qed.

Lemma printResponse_idle r o d :
  r ∉ awaiting d -> printResponse r o d = d.
Proof.
  intros H. unfold printResponse.
  rewrite bool_decide_eq_false_2 by exact H. reflexivity.
Qed.

(** The answer to the print request of [r] arrives: the status becomes
    ['printing'] and the monitor starts, or the status becomes ['error']
    and no monitor starts. *)
Lemma printResponse_fields r o d job :
  r ∈ awaiting d -> store d !! r = Some job ->
  let d' := printResponse r o d in
  exists st, (st = Printing \/ st = Error)
    /\ store d' = <[r := set_status st job]> (store d)
    /\ jobIdCounter d' = jobIdCounter d
    /\ awaiting d' = awaiting d ∖ {[r]}
    /\ (intervals d' = intervals d \/ intervals d' = {[r]} ∪ intervals d).
Proof.
  intros Hin Hjob. unfold printResponse.
  rewrite bool_decide_eq_true_2 by exact Hin. simpl store. rewrite Hjob.
  destruct o as [|detail|message]; simpl;
    match goal with |- context [updateJobInQueue r ?x] =>
      destruct (updateJobInQueue_same_jobs r x) as (Hs & Hc & Ha & Hi & Hm)
    end; rewrite Hs, Hc, Ha, Hi; simpl.
  - exists Printing. auto 10.
  - exists Error. auto 10.
  - exists Error. auto 10.
Qed.

(** *** Well-formedness is kept *)

Lemma wf_new : wf new_dashboard.
Proof.
  split; [|split]; simpl.
  - intros r job H. rewrite lookup_empty in H. discriminate.
  - set_solver.
  - set_solver.
Qed.

Lemma wf_compat d d' :
  wf d ->
  (forall r job', store d' !! r = Some job' ->
     exists job, store d !! r = Some job /\ job_id job' = job_id job
                 /\ (job_progress job' <= 100)%Q) ->
  jobIdCounter d' = jobIdCounter d ->
  awaiting d' ⊆ awaiting d ->
  intervals d' ⊆ intervals d ∪ (awaiting d ∖ awaiting d') ->
  wf d'.
Proof.
  intros (Hstore & Hlt & Hdisj) Hcompat Hc Ha Hi. split; [|split].
  - intros r job' Hjob'.
    destruct (Hcompat _ _ Hjob') as (job & Hjob & Hid & Hle).
    destruct (Hstore _ _ Hjob) as (Hr & Hb & _).
    rewrite Hc. repeat split; [congruence | exact Hb | exact Hle].
  - intros r Hr. rewrite Hc. apply Hlt. set_solver.
  - set_solver.
Qed.

Lemma wf_update d d' r job job' :
  wf d -> store d !! r = Some job ->
  job_id job' = job_id job -> (job_progress job' <= 100)%Q ->
  store d' = <[r := job']> (store d) ->
  jobIdCounter d' = jobIdCounter d ->
  awaiting d' ⊆ awaiting d ->
  intervals d' ⊆ intervals d ∪ (awaiting d ∖ awaiting d') ->
  wf d'.
Proof.
  intros Hwf Hjob Hid Hle Hs Hc Ha Hi.
  apply (wf_compat d d' Hwf); try assumption.
  intros r0 job0. rewrite Hs. destruct (decide (r = r0)) as [->|Hne].
  - rewrite lookup_insert_eq. intros [= <-]. eauto.
  - rewrite lookup_insert_ne by exact Hne. intros H0.
    destruct Hwf as (Hstore & _). destruct (Hstore _ _ H0) as (_ & _ & ?).
    eauto.
Qed.

Lemma wf_same_jobs d d' : same_jobs d d' -> wf d -> wf d'.
Proof.
  intros (Hs & Hc & Ha & Hi & _) Hwf.
  apply (wf_compat d d' Hwf).
  - intros r job'. rewrite Hs. intros H0.
    destruct Hwf as (Hstore & _). destruct (Hstore _ _ H0) as (_ & _ & ?).
    eauto.
  - exact Hc.
  - rewrite Ha. set_solver.
  - rewrite Hi. set_solver.
Qed.

Lemma wf_printDocument sel pr d : wf d -> wf (printDocument sel pr d).
Proof.
  intros Hwf. unfold printDocument.
  destruct sel as [name|]; [|exact Hwf].
  destruct (printDocument_gate pr); [exact Hwf|].
  destruct Hwf as (Hstore & Hlt & Hdisj). split; [|split]; simpl.
  - intros r job. destruct (decide (jobIdCounter d = r)) as [<-|Hne].
    + rewrite lookup_insert_eq. intros [= <-]. simpl.
      repeat split; [lia | lra].
    + rewrite lookup_insert_ne by exact Hne. intros H0.
      destruct (Hstore _ _ H0) as (? & ? & ?). repeat split; auto.
  - intros r Hr.
    destruct (decide (r = jobIdCounter d)) as [->|Hne]; [lia|].
    assert (r < jobIdCounter d); [apply Hlt; set_solver | lia].
  - assert (jobIdCounter d ∉ intervals d).
    { intros Hin. assert (jobIdCounter d < jobIdCounter d); [|lia].
      apply Hlt. set_solver. }
    set_solver.
Qed.

Lemma wf_printResponse r o d : wf d -> wf (printResponse r o d).
Proof.
  intros Hwf. destruct (decide (r ∈ awaiting d)) as [Hin|Hout].
  2: { rewrite printResponse_idle by exact Hout. exact Hwf. }
  destruct (store d !! r) as [job|] eqn:Hjob.
  - destruct (printResponse_fields r o d job Hin Hjob)
      as (st & _ & Hs & Hc & Ha & Hi).
    destruct Hwf as (Hstore & Hrest).
    destruct (Hstore _ _ Hjob) as (_ & _ & Hle).
    apply (wf_update d _ r job (set_status st job));
      [split; assumption|try assumption..].
    + reflexivity.
    + rewrite Ha. set_solver.
    + rewrite Ha. destruct Hi as [-> | ->]; set_solver.
  - unfold printResponse. rewrite bool_decide_eq_true_2 by exact Hin.
    simpl store. rewrite Hjob.
    apply (wf_compat d _ Hwf); simpl.
    + intros r0 job0 H0. destruct Hwf as (Hstore & _).
      destruct (Hstore _ _ H0) as (_ & _ & ?). eauto.
    + reflexivity.
    + set_solver.
    + set_solver.
Qed.

Lemma wf_monitor_tick r now resp rnd d :
  wf d -> wf (monitor_tick r now resp rnd d).
Proof.
  intros Hwf. destruct (decide (r ∈ intervals d)) as [Hin|Hout].
  2: { rewrite monitor_tick_dead by exact Hout. exact Hwf. }
  destruct (store d !! r) as [job|] eqn:Hjob.
  - destruct (monitor_tick_live r now resp rnd d job Hin Hjob)
      as (Hs & Hc & Ha & Hi & _).
    pose proof Hwf as (Hstore & _).
    destruct (Hstore _ _ Hjob) as (_ & _ & Hle).
    apply (wf_update d _ r job _ Hwf Hjob
             (tick_frame_id resp rnd job) (tick_frame_le resp rnd job Hle) Hs Hc).
    + rewrite Ha. set_solver.
    + rewrite Hi. destruct (fr_cleared _); set_solver.
  - unfold monitor_tick. rewrite Hjob. destruct (bool_decide _); exact Hwf.
Qed.

Lemma wf_cancelJob jobId d : wf d -> wf (cancelJob jobId d).
Proof.
  intros Hwf.
  destruct (List.find (has_id d jobId) (jobQueue d)) as [r|] eqn:Hfind.
  2: { rewrite cancelJob_missing by exact Hfind. exact Hwf. }
  destruct (find_has_id _ _ _ Hfind) as (_ & job & Hjob & _).
  destruct (cancelJob_found jobId d r job Hfind Hjob)
    as (Hs & Hc & Ha & Hi & _).
  apply (wf_update d _ r job _ Hwf Hjob) with (3 := Hs) (4 := Hc).
  - reflexivity.
  - simpl. lra.
  - rewrite Ha. set_solver.
  - rewrite Hi. set_solver.
Qed.

Lemma wf_clearQueue now d : wf d -> wf (clearQueue now d).
Proof.
  intros Hwf. destruct (clearQueue_fields now d) as (Hc & Ha & Hi).
  apply (wf_compat d _ Hwf).
  - intros r job' (job & Hjob & Hm)%clearQueue_store.
    destruct Hwf as (Hstore & _). destruct (Hstore _ _ Hjob) as (_ & _ & Hle).
    exists job. destruct Hm as [-> | ->]; auto.
  - exact Hc.
  - rewrite Ha. set_solver.
  - rewrite Hi. set_solver.
Qed.

Lemma wf_step d e : wf d -> wf (step d e).
Proof.
  intros Hwf. destruct e as [sel pr|r o|r now resp rnd|jobId|k now|now|]; simpl.
  - apply wf_printDocument, Hwf.
  - apply wf_printResponse, Hwf.
  - apply wf_monitor_tick, Hwf.
  - apply wf_cancelJob, Hwf.
  - unfold timeout_fires. destruct (timeouts d !! k); [|exact Hwf].
    eapply wf_same_jobs; [apply removeJobFromQueue_same_jobs|]. exact Hwf.
  - apply wf_clearQueue, Hwf.
  - exact Hwf.
Qed.

Lemma wf_run events : forall d, wf d -> wf (run d events).
Proof.
  unfold run. induction events as [|e events IH]; intros d Hwf; simpl.
  - exact Hwf.
  - apply IH, wf_step, Hwf.
Qed.

Lemma wf_reachable events : wf (run new_dashboard events).
Proof. apply wf_run, wf_new. Qed.

(** *** Monitors are installed once *)

Lemma step_monitors d e :
  jobIdCounter d <= jobIdCounter (step d e)
  /\ (forall r, r ∈ awaiting (step d e) ->
                r ∈ awaiting d \/ r = jobIdCounter d)
  /\ (forall r, r ∈ intervals (step d e) ->
                r ∈ intervals d \/ r ∈ awaiting d).
Proof.
  destruct e as [sel pr|r o|r now resp rnd|jobId|k now|now|]; cbn [step].
  - unfold printDocument. destruct sel as [name|]; [|auto].
    destruct (printDocument_gate pr); [auto|]. simpl.
    split; [lia|]. split; [set_solver | auto].
  - destruct (decide (r ∈ awaiting d)) as [Hin|Hout].
    2: { rewrite printResponse_idle by exact Hout. auto. }
    destruct (store d !! r) as [job|] eqn:Hjob.
    + destruct (printResponse_fields r o d job Hin Hjob)
        as (st & _ & _ & Hc & Ha & Hi).
      rewrite Hc, Ha. split; [lia|]. split; [set_solver|].
      destruct Hi as [-> | ->]; set_solver.
    + unfold printResponse. rewrite bool_decide_eq_true_2 by exact Hin.
      simpl store. rewrite Hjob. simpl.
      split; [lia|]. split; [set_solver | auto].
  - destruct (decide (r ∈ intervals d)) as [Hin|Hout].
    2: { rewrite monitor_tick_dead by exact Hout. auto. }
    destruct (store d !! r) as [job|] eqn:Hjob.
    + destruct (monitor_tick_live r now resp rnd d job Hin Hjob)
        as (_ & Hc & Ha & Hi & _).
      rewrite Hc, Ha, Hi. split; [lia|]. split; [auto|].
      destruct (fr_cleared _); set_solver.
    + unfold monitor_tick. rewrite Hjob. destruct (bool_decide _); auto.
  - destruct (List.find (has_id d jobId) (jobQueue d)) as [r|] eqn:Hfind.
    2: { rewrite cancelJob_missing by exact Hfind. auto. }
    destruct (find_has_id _ _ _ Hfind) as (_ & job & Hjob & _).
    destruct (cancelJob_found jobId d r job Hfind Hjob)
      as (_ & Hc & Ha & Hi & _).
    rewrite Hc, Ha, Hi. auto.
  - unfold timeout_fires. destruct (timeouts d !! k) as [jobId|]; [|auto].
    match goal with |- context [removeJobFromQueue now jobId ?x] =>
      destruct (removeJobFromQueue_same_jobs now jobId x)
        as (_ & Hc & Ha & Hi & _)
    end.
    rewrite Hc, Ha, Hi. simpl. auto.
  - destruct (clearQueue_fields now d) as (Hc & Ha & Hi).
    rewrite Hc, Ha, Hi. auto.
  - simpl. auto.
Qed.

Lemma retired_step r d e : retired r d -> retired r (step d e).
Proof.
  intros (Hlt & Ha & Hi).
  destruct (step_monitors d e) as (Hc & Hawait & Hint).
  split; [lia|]. split.
  - intros [H|H]%Hawait; [auto | lia].
  - intros [H|H]%Hint; auto.
Qed.

Lemma retired_run r events : forall d, retired r d -> retired r (run d events).
Proof.
  unfold run. induction events as [|e events IH]; intros d H; simpl.
  - exact H.
  - apply IH, retired_step, H.
Qed.

(** A monitor that is cleared in a well-formed dashboard is retired. *)
Lemma cleared_retired r d d' :
  wf d -> r ∈ intervals d ->
  jobIdCounter d' = jobIdCounter d -> awaiting d' = awaiting d ->
  r ∉ intervals d' -> retired r d'.
Proof.
  intros (_ & Hlt & Hdisj) Hin Hc Ha Hout.
  split; [|split].
  - rewrite Hc. apply Hlt. set_solver.
  - rewrite Ha. set_solver.
  - exact Hout.
Qed.

Lemma wf_printing_dashboard : wf printing_dashboard.
Proof. apply wf_reachable. Qed.

Lemma wf_polled n : wf (polled n).
Proof. apply wf_run, wf_printing_dashboard. Qed.

(** *** Cancelling *)

Lemma cancelJob_queued d r job :
  wf d -> r ∈ jobQueue d -> store d !! r = Some job ->
  let d' := cancelJob (job_id job) d in
  store d' = <[r := set_progress 0 (set_status Cancelled job)]> (store d)
  /\ intervals d' = intervals d
  /\ messages d' = messages d.
Proof.
  intros Hwf Hin Hjob.
  pose proof (find_queued d r job Hwf Hin Hjob) as Hfind.
  destruct (cancelJob_found _ d r job Hfind Hjob) as (Hs & _ & _ & Hi & Hm).
  auto.
Qed.

Lemma cancelJob_not_queued d jobId :
  (forall r job, r ∈ jobQueue d -> store d !! r = Some job ->
                 job_id job <> jobId) ->
  cancelJob jobId d = d.
Proof.
  intros Hno. apply cancelJob_missing.
  destruct (List.find (has_id d jobId) (jobQueue d)) as [r|] eqn:Hfind;
    [|reflexivity].
  destruct (find_has_id _ _ _ Hfind) as (Hin & job & Hjob & Hid).
  destruct (Hno r job Hin Hjob Hid).
Qed.

(** *** Progress *)


End DashboardFacts.

(* ===================================================================== *)
(** ** Page-range validation: the properties of the specification *)
(* ===================================================================== *)

(** C1, as stated, fails: [validatePageRange] deletes all white space before
    it tests, so it accepts ["1 - 5"], which is neither a string of the
    grammar nor a sentinel; the submission of [web/app.js] goes on. *)
Lemma validatePageRange_accepts_spaced_hyphen :
  validatePageRange (js "1 - 5") = true
  /\ ~ PageRangeGrammar (js "1 - 5")
  /\ js "1 - 5" <> js "odd" /\ js "1 - 5" <> js "even"
  /\ submitPrintJob_gate (js "range") (js "1 - 5") = Proceeds.
Proof.
  split; [reflexivity|]. split; [|repeat split; discriminate].
  intros H%pageRangePattern_grammar%regex_test_Lang.
  vm_compute in H. discriminate.
Qed.

(** C1, amended: [validatePageRange] accepts a string exactly when the
    string without its white space is in the grammar, hence every string of
    the grammar, and [submitPrintJob] goes on exactly for those and for the
    empty field; [printDocument] lets a non-empty page range pass exactly
    when it is in the grammar or is ["odd"] or ["even"], and otherwise shows
    an error and changes nothing else: no job is created or sent. *)
Theorem page_range_acceptance (s : jsstring) :
  (validatePageRange s = true <-> PageRangeGrammar (strip_spaces s))
  /\ (PageRangeGrammar s -> validatePageRange s = true)
  /\ (submitPrintJob_gate (js "range") s = Proceeds
      <-> s = [] \/ validatePageRange s = true)
  /\ (s <> [] ->
      (printDocument_gate (Some s) = Proceeds
       <-> PageRangeGrammar s \/ s = js "odd" \/ s = js "even"))
  /\ (printDocument_gate (Some s) <> Proceeds ->
      forall name d, exists message,
        printDocument (Some name) (Some s) d = showMessage message MsgError d).
Proof.
  split; [apply validatePageRange_spec|].
  split; [apply validatePageRange_grammar|].
  split; [apply submitPrintJob_gate_spec|]. split.
  - intros Hne. rewrite printDocument_gate_spec. tauto.
  - intros Hgate name d. apply printDocument_refused, Hgate.
Qed.

Lemma page_range_acceptance_witness :
  validatePageRange (js "1-5, 8,10-12") = true
  /\ printDocument_gate (Some (js "1-5, 8,10-12")) = Proceeds.
Proof.
  destruct (page_range_acceptance (js "1-5, 8,10-12"))
    as (_ & Hv & _ & Hp & _).
  assert (PageRangeGrammar (js "1-5, 8,10-12")) as Hg
    by (apply pageRangePattern_grammar, regex_test_Lang; reflexivity).
  split.
  - apply Hv, Hg.
  - apply Hp; [discriminate | left; exact Hg].
Defined.

(** C8, as stated, fails: the two validators compare no numbers. ["5-1"],
    whose first number is the greater, and ["0-3"], whose first number is
    zero, pass both. *)
Lemma reversed_and_zero_ranges_accepted :
  validatePageRange (js "5-1") = true
  /\ printDocument_gate (Some (js "5-1")) = Proceeds
  /\ (decimal_value (js "1") < decimal_value (js "5"))%N
  /\ validatePageRange (js "0-3") = true
  /\ printDocument_gate (Some (js "0-3")) = Proceeds
  /\ decimal_value (js "0") = 0%N.
Proof. repeat split. Qed.

(** C8, amended: a token of two integers separated by a hyphen passes the
    validation whenever each integer is a non-empty run of decimal digits,
    whatever the two numbers are. *)
Theorem hyphen_token_accepted (a b : jsstring) :
  digit_string a -> digit_string b ->
  validatePageRange (a ++ hyphen :: b) = true
  /\ submitPrintJob_gate (js "range") (a ++ hyphen :: b) = Proceeds
  /\ printDocument_gate (Some (a ++ hyphen :: b)) = Proceeds.
Proof.
  intros Ha Hb.
  pose proof (hyphen_token_grammar a b Ha Hb) as Hg.
  pose proof (validatePageRange_grammar _ Hg) as Hv.
  split; [exact Hv|]. split.
  - apply submitPrintJob_gate_spec. right. exact Hv.
  - apply printDocument_gate_spec. auto.
Qed.

Lemma hyphen_token_accepted_witness :
  digit_string (js "5") /\ digit_string (js "1")
  /\ validatePageRange (js "5-1") = true
  /\ printDocument_gate (Some (js "5-1")) = Proceeds.
Proof.
  assert (digit_string (js "5")) as H5
    by (split; [discriminate | repeat constructor]).
  assert (digit_string (js "1")) as H1
    by (split; [discriminate | repeat constructor]).
  destruct (hyphen_token_accepted (js "5") (js "1") H5 H1) as (Hv & _ & Hp).
  repeat split; try assumption; try discriminate; repeat constructor.
Defined.

(** C10: [validatePageRange] gives the same answer on a string and on the
    string without its white space, hence the same answer on two strings
    that differ in white space only, and it accepts a string whenever its
    white-space-free form is in the grammar. *)
Theorem validatePageRange_ignores_white_space (s : jsstring) :
  validatePageRange s = validatePageRange (strip_spaces s)
  /\ (forall t, strip_spaces t = strip_spaces s ->
                validatePageRange t = validatePageRange s)
  /\ (PageRangeGrammar (strip_spaces s) -> validatePageRange s = true).
Proof.
  unfold validatePageRange. split; [|split].
  - rewrite strip_spaces_idem. reflexivity.
  - intros t ->. reflexivity.
  - apply validatePageRange_spec.
Qed.

Lemma validatePageRange_ignores_white_space_witness :
  validatePageRange (js " 1 - 5 ,7") = true.
Proof.
  destruct (validatePageRange_ignores_white_space (js " 1 - 5 ,7"))
    as (_ & _ & H).
  apply H. apply pageRangePattern_grammar, regex_test_Lang. reflexivity.
Defined.

(* ===================================================================== *)
(** ** Queue, history and monitor: the properties of the specification *)
(* ===================================================================== *)

(** C4: after [addJobToHistory] the history holds at most 20 entries and
    the job is its first entry; into a history of 20 entries, the insertion
    drops exactly the last one and keeps the 19 others in their order; with
    room left nothing is dropped; and no operation of the dashboard makes a
    history of at most 20 entries longer than 20. *)
Theorem history_capped :
  (forall now job d,
     length (jobHistory (addJobToHistory now job d)) <= 20
     /\ head (jobHistory (addJobToHistory now job d)) = Some (mkEntry job now))
  /\ (forall now job d kept oldest,
        jobHistory d = kept ++ [oldest] -> length kept = 19 ->
        jobHistory (addJobToHistory now job d) = mkEntry job now :: kept)
  /\ (forall now job d,
        length (jobHistory d) < 20 ->
        jobHistory (addJobToHistory now job d) = mkEntry job now :: jobHistory d)
  /\ (forall d events,
        length (jobHistory d) <= 20 ->
        length (jobHistory (run d events)) <= 20).
Proof.
  split; [|split; [|split]].
  - intros now job d. split.
    + apply addJobToHistory_length.
    + apply addJobToHistory_head.
  - apply addJobToHistory_full.
  - apply addJobToHistory_room.
  - intros d events. apply run_capped.
Qed.

Lemma history_capped_witness :
  jobHistory (addJobToHistory 21 (entry_job (finished 21)) full_dashboard)
  = List.map finished (rev (seq 2 20)).
Proof.
  destruct history_capped as (_ & Hfull & _).
  rewrite (Hfull 21%N (entry_job (finished 21)) full_dashboard
             (List.map finished (rev (seq 2 19))) (finished 1)).
  - reflexivity.
  - reflexivity.
  - reflexivity.
Defined.

(** C9: in a well-formed dashboard, [cancelJob(jobId)] sets the status of
    the queued job with that id to ['cancelled'] and its progress to 0,
    whatever they were, and leaves the other job objects alone; when no
    queued job has the id, the dashboard is unchanged. *)
Theorem cancelJob_effect (d : Dashboard) (jobId : nat) :
  wf d ->
  (forall r job,
     r ∈ jobQueue d -> store d !! r = Some job -> job_id job = jobId ->
     store (cancelJob jobId d) !! r
       = Some (mkJob jobId (job_fileName job) Cancelled 0 (job_error job))
     /\ forall r', r' <> r -> store (cancelJob jobId d) !! r' = store d !! r')
  /\ ((forall r job, r ∈ jobQueue d -> store d !! r = Some job ->
                     job_id job <> jobId) ->
      cancelJob jobId d = d).
Proof.
  intros Hwf. split.
  - intros r job Hin Hjob <-.
    destruct (cancelJob_queued d r job Hwf Hin Hjob) as (Hs & _).
    rewrite Hs. split.
    + rewrite lookup_insert_eq. reflexivity.
    + intros r' Hne. rewrite lookup_insert_ne by congruence. reflexivity.
  - apply cancelJob_not_queued.
Qed.

Lemma cancelJob_effect_witness :
  store (cancelJob 1 printing_dashboard) !! 1
  = Some (mkJob 1 report Cancelled 0 None).
Proof.
  destruct (cancelJob_effect printing_dashboard 1 wf_printing_dashboard)
    as (H & _).
  apply (H 1 (mkJob 1 report Printing 0 None)).
  - apply list_elem_of_In. simpl. left. reflexivity.
  - reflexivity.
  - reflexivity.
Defined.

(** C3, as stated, fails: a job that the monitor has completed stays in the
    queue until its removal time-out fires; [cancelJob] on it overwrites the
    status ['completed'] with ['cancelled'] and the progress 100 with 0, and
    shows no message. *)
Lemma cancel_overwrites_completed_job :
  status_of 1 (polled 8) = Some Completed
  /\ progress_of 1 (polled 8) = Some 100%Q
  /\ status_of 1 (step (polled 8) (CancelJob 1)) = Some Cancelled
  /\ progress_of 1 (step (polled 8) (CancelJob 1)) = Some 0%Q
  /\ messages (step (polled 8) (CancelJob 1)) = messages (polled 8).
Proof. vm_compute. repeat split. Qed.

(** C3, amended: in a well-formed dashboard, [cancelJob] of the print
    dashboard (static/dashboard.js) on a job in a terminal state shows no
    message; while the job is still in the queue its status becomes
    ['cancelled'] and its progress 0, the error detail staying as it was;
    once the job has left the queue the call changes nothing. [cancelJob]
    of the control panel (web/app.js) holds no job and checks no state:
    unconfirmed it does nothing; confirmed it posts the request and shows
    the success alert and reloads the jobs when the server answers with an
    ok status and a body that parses, and otherwise shows the two error
    alerts with the message of the failure. *)
Theorem cancel_terminal_job (d : Dashboard) (r : nat) (job : Job) :
  wf d -> store d !! r = Some job -> terminal (job_status job) = true ->
  messages (cancelJob (job_id job) d) = messages d
  /\ (r ∈ jobQueue d ->
      store (cancelJob (job_id job) d) !! r
        = Some (mkJob (job_id job) (job_fileName job) Cancelled 0
                      (job_error job)))
  /\ (r ∉ jobQueue d -> cancelJob (job_id job) d = d)
  /\ (forall answer, App.cancelJob false answer = ([], false))
  /\ App.cancelJob true App.Json
     = ([(MsgSuccess, js "Job cancelled successfully")], true)
  /\ (forall message,
        App.cancelJob true (App.Rejects message)
        = ([(MsgError, js "API Error: " ++ message);
            (MsgError, js "Failed to cancel job: " ++ message)], false))
  /\ (forall status statusText,
        App.cancelJob true (App.NotOkStatus status statusText)
        = ([(MsgError,
             js "API Error: " ++ js "HTTP " ++ status ++ js ": " ++ statusText);
            (MsgError,
             js "Failed to cancel job: "
             ++ js "HTTP " ++ status ++ js ": " ++ statusText)], false)).
Proof.
  intros Hwf Hjob _.
  assert (forall A B C D : Prop, A /\ B /\ C -> D -> A /\ B /\ C /\ D) as Hadd
    by tauto.
  apply Hadd; [|repeat split; reflexivity].
  assert (r ∉ jobQueue d -> cancelJob (job_id job) d = d) as Hout.
  { intros Hnot. apply cancelJob_not_queued. intros r' job' Hin' Hjob' Hid.
    destruct Hwf as (Hstore & _).
    destruct (Hstore _ _ Hjob) as (Hr & _).
    destruct (Hstore _ _ Hjob') as (Hr' & _).
    apply Hnot. congruence. }
  split; [|split].
  - destruct (decide (r ∈ jobQueue d)) as [Hin|Hnot].
    + apply (cancelJob_queued d r job Hwf Hin Hjob).
    + rewrite Hout by exact Hnot. reflexivity.
  - intros Hin. destruct (cancelJob_queued d r job Hwf Hin Hjob) as (Hs & _).
    rewrite Hs, lookup_insert_eq. reflexivity.
  - exact Hout.
Qed.

Lemma cancel_terminal_job_witness :
  store (cancelJob 1 (polled 8)) !! 1
  = Some (mkJob 1 report Cancelled 0 None).
Proof.
  destruct (cancel_terminal_job (polled 8) 1 (mkJob 1 report Completed 100 None))
    as (_ & H & _).
  - apply wf_polled.
  - vm_compute. reflexivity.
  - reflexivity.
  - apply H. apply list_elem_of_In. vm_compute. left. reflexivity.
Defined.

(* ===================================================================== *)
(** ** The rounding to the nearest double *)
(* ===================================================================== *)

Section RoundingFacts.

Local Open Scope Z_scope.

Lemma round_half_even_spec n d :
  0 <= n -> 0 < d ->
  let r := round_half_even n d in
  0 <= r /\ 2 * Z.abs (n - r * d) <= d
  /\ (2 * Z.abs (n - r * d) = d -> Z.even r = true).
Proof.
  intros Hn Hd. unfold round_half_even.
  pose proof (Z.div_mod n d ltac:(lia)) as Hdiv.
  pose proof (Z.mod_pos_bound n d Hd) as Hmod.
  pose proof (Z.div_pos n d Hn Hd) as Hq.
  set (q := n / d) in *. set (m := n mod d) in *.
  clearbody q m.
  assert (n - q * d = m) as H0 by lia.
  assert (n - (q + 1) * d = m - d) as H1 by lia.
  destruct (Z.compare_spec (2 * m) d) as [E|E|E].
  - destruct (Z.even q) eqn:Hev; cbn zeta.
    + rewrite H0. split; [lia|]. split; [lia|]. intros _. exact Hev.
    + rewrite H1. split; [lia|]. split; [lia|]. intros _.
      rewrite Z.even_add, Hev. reflexivity.
  - cbn zeta. rewrite H0.
    split; [lia|]. split; [lia|]. intros H. lia.
  - cbn zeta. rewrite H1.
    split; [lia|]. split; [lia|]. intros H. lia.
Qed.


Local Close Scope Z_scope.

Local Open Scope Q_scope.

Lemma pow2_pos e : 0 < 2 ^ e.
Proof. apply Qpower_0_lt. reflexivity. Qed.

Lemma pow2_add a b : 2 ^ (a + b) == 2 ^ a * 2 ^ b.
Proof. apply Qpower_plus. discriminate. Qed.

Lemma pow2_inject n : (0 <= n)%Z -> inject_Z (2 ^ n) == 2 ^ n.
Proof. intros H. apply (Zpower_Qpower 2 n H). Qed.

Lemma pow2_inv e : 2 ^ e * 2 ^ (- e) == 1.
Proof.
  rewrite <- pow2_add. replace (e + - e)%Z with 0%Z by lia. reflexivity.
Qed.

Lemma pow2_max_l e :
  inject_Z (2 ^ Z.max e 0) == 2 ^ e * inject_Z (2 ^ Z.max (- e) 0).
Proof.
  destruct (Z.le_ge_cases 0 e) as [H|H].
  - rewrite (Z.max_l e 0), (Z.max_r (- e) 0) by lia.
    rewrite pow2_inject by lia. change (inject_Z (2 ^ 0)) with 1.
    rewrite Qmult_1_r. reflexivity.
  - rewrite (Z.max_r e 0), (Z.max_l (- e) 0) by lia.
    rewrite (pow2_inject (- e)) by lia. rewrite pow2_inv. reflexivity.
Qed.

(** *** Nearest integers *)

Lemma nearest_even_self k : nearest_even (inject_Z k) k.
Proof.
  split; [lra|]. split; [lra|]. intros [H|H]; exfalso; lra.
Qed.

Lemma nearest_even_mono x y m m' :
  x <= y -> nearest_even x m -> nearest_even y m' -> (m <= m')%Z.
Proof.
  intros Hxy (Hlo & _ & Hev) (_ & Hhi' & Hev').
  destruct (Z.le_gt_cases m m') as [H|H]; [exact H|exfalso].
  assert (m' + 1 <= m)%Z as H1 by lia.
  rewrite Zle_Qle, inject_Z_plus in H1. change (inject_Z 1) with 1 in H1.
  assert (x == inject_Z m - (1 # 2)) as Hx by lra.
  assert (y == inject_Z m' + (1 # 2)) as Hy by lra.
  assert (m = m' + 1)%Z as Hm.
  { apply inject_Z_injective. rewrite inject_Z_plus.
    change (inject_Z 1) with 1. lra. }
  pose proof (Hev (or_introl Hx)) as E. pose proof (Hev' (or_intror Hy)) as E'.
  subst m. rewrite Z.even_add, E' in E. discriminate E.
Qed.

Lemma nearest_even_int x k m :
  x == inject_Z k -> nearest_even x m -> m = k.
Proof.
  intros Hx Hm.
  assert (nearest_even x k) as Hk.
  { split; [lra|]. split; [lra|]. intros [H|H]; exfalso; lra. }
  apply Z.le_antisymm.
  - apply (nearest_even_mono x x m k); [lra | exact Hm | exact Hk].
  - apply (nearest_even_mono x x k m); [lra | exact Hk | exact Hm].
Qed.

Lemma nearest_even_ge x k m :
  inject_Z k <= x -> nearest_even x m -> (k <= m)%Z.
Proof.
  intros Hx Hm.
  apply (nearest_even_mono (inject_Z k) x k m Hx (nearest_even_self k) Hm).
Qed.

Lemma nearest_even_le x k m :
  x <= inject_Z k -> nearest_even x m -> (m <= k)%Z.
Proof.
  intros Hx Hm.
  apply (nearest_even_mono x (inject_Z k) m k Hx Hm (nearest_even_self k)).
Qed.

Lemma nearest_even_wd x y m : x == y -> nearest_even x m -> nearest_even y m.
Proof.
  intros Hxy (H1 & H2 & H3). split; [lra|]. split; [lra|].
  intros [H|H]; apply H3; [left | right]; lra.
Qed.

Lemma round_half_even_nearest n d :
  (0 <= n)%Z -> (0 < d)%Z ->
  nearest_even (inject_Z n / inject_Z d) (round_half_even n d).
Proof.
  intros Hn Hd.
  destruct (round_half_even_spec n d Hn Hd) as (_ & Hnear & Heven).
  set (r := round_half_even n d) in *. clearbody r.
  assert (0 < inject_Z d) as HD
    by (change 0 with (inject_Z 0); rewrite <- Zlt_Qlt; exact Hd).
  assert (2 * (n - r * d) <= d)%Z as H1 by lia.
  assert (2 * (r * d - n) <= d)%Z as H2 by lia.
  rewrite Zle_Qle in H1, H2. unfold Z.sub in H1, H2.
  rewrite ?inject_Z_mult, ?inject_Z_plus, ?inject_Z_opp, ?inject_Z_mult in H1.
  rewrite ?inject_Z_mult, ?inject_Z_plus, ?inject_Z_opp, ?inject_Z_mult in H2.
  change (inject_Z 2) with 2 in H1, H2.
  set (N := inject_Z n) in *. set (D := inject_Z d) in *.
  set (R := inject_Z r) in *.
  assert (N / D * D == N) as Hdiv by (field; lra).
  assert ((R - (1 # 2)) * D <= N) as Hlo.
  { setoid_replace ((R - (1 # 2)) * D) with (R * D - (1 # 2) * D)
      using relation Qeq by ring.
    set (P := R * D) in *. lra. }
  assert (N <= (R + (1 # 2)) * D) as Hhi.
  { setoid_replace ((R + (1 # 2)) * D) with (R * D + (1 # 2) * D)
      using relation Qeq by ring.
    set (P := R * D) in *. lra. }
  split; [apply Qle_shift_div_l; assumption|].
  split; [apply Qle_shift_div_r; assumption|].
  intros Htie. apply Heven.
  assert (2 * N == 2 * (R * D) - D \/ 2 * N == 2 * (R * D) + D) as Hz.
  { destruct Htie as [H|H]; [left | right]; rewrite <- Hdiv, H;
      unfold R; ring. }
  assert (2 * n = 2 * (r * d) - d \/ 2 * n = 2 * (r * d) + d)%Z as Hz'.
  { destruct Hz as [H|H]; [left | right]; apply inject_Z_injective;
      rewrite ?inject_Z_plus, ?inject_Z_opp, ?inject_Z_mult;
      unfold Z.sub; rewrite ?inject_Z_plus, ?inject_Z_opp, ?inject_Z_mult;
      fold N D R; change (inject_Z 2) with 2; lra. }
  lia.
Qed.


(** *** The binade *)

Lemma inject_pow2_pos n : (0 <= n)%Z -> 0 < inject_Z (2 ^ n).
Proof. intros H. rewrite pow2_inject by exact H. apply pow2_pos. Qed.

Lemma inject_pos z : (0 < z)%Z -> 0 < inject_Z z.
Proof. intros H. change 0 with (inject_Z 0). rewrite <- Zlt_Qlt. exact H. Qed.

Lemma log2_bounds a :
  (0 < a)%Z -> 2 ^ Z.log2 a <= inject_Z a /\ inject_Z a < 2 ^ (Z.log2 a + 1).
Proof.
  intros Ha. destruct (Z.log2_spec a Ha) as (H1 & H2).
  pose proof (Z.log2_nonneg a) as H0.
  rewrite Zle_Qle in H1. rewrite Zlt_Qlt in H2.
  rewrite pow2_inject in H1 by exact H0.
  unfold Z.succ in H2. rewrite pow2_inject in H2 by lia. auto.
Qed.

Lemma binade_spec a d :
  (0 < a)%Z -> (0 < d)%Z ->
  2 ^ binade a d * inject_Z d <= inject_Z a
  /\ inject_Z a < 2 ^ (binade a d + 1) * inject_Z d.
Proof.
  intros Ha Hd. unfold binade.
  destruct (log2_bounds a Ha) as (A1 & A2).
  destruct (log2_bounds d Hd) as (D1 & D2).
  set (la := Z.log2 a) in *. set (ld := Z.log2 d) in *.
  set (k := (la - ld)%Z).
  pose proof (pow2_max_l k) as Hk.
  pose proof (inject_pow2_pos (Z.max (- k) 0) ltac:(lia)) as HP.
  pose proof (inject_pos a Ha) as HA. pose proof (inject_pos d Hd) as HD.
  pose proof (pow2_pos k) as Hpk. pose proof (pow2_pos (k - 1)) as Hpk1.
  pose proof (pow2_pos (k + 1)) as Hpk2. pose proof (pow2_pos ld) as Hpld.
  assert (2 ^ la == 2 ^ (k - 1) * 2 ^ (ld + 1)) as E1
    by (rewrite <- pow2_add; replace (k - 1 + (ld + 1))%Z with la by lia;
        reflexivity).
  assert (2 ^ (la + 1) == 2 ^ (k + 1) * 2 ^ ld) as E2
    by (rewrite <- pow2_add; replace (k + 1 + ld)%Z with (la + 1)%Z by lia;
        reflexivity).
  destruct (Z.ltb_spec (a * 2 ^ Z.max (- k) 0) (d * 2 ^ Z.max k 0)) as [T|T].
  - rewrite Zlt_Qlt, !inject_Z_mult, Hk in T.
    replace (k - 1 + 1)%Z with k by lia.
    split.
    + apply Qle_trans with (2 ^ la); [|exact A1]. rewrite E1.
      apply Qmult_le_l; [exact Hpk1 | lra].
    + apply (Qmult_lt_r _ _ _ HP).
      setoid_replace (2 ^ k * inject_Z d * inject_Z (2 ^ Z.max (- k) 0))
        with (inject_Z d * (2 ^ k * inject_Z (2 ^ Z.max (- k) 0)))
        using relation Qeq by ring.
      exact T.
  - rewrite Zle_Qle, !inject_Z_mult, Hk in T.
    split.
    + apply (Qmult_le_r _ _ _ HP).
      setoid_replace (2 ^ k * inject_Z d * inject_Z (2 ^ Z.max (- k) 0))
        with (inject_Z d * (2 ^ k * inject_Z (2 ^ Z.max (- k) 0)))
        using relation Qeq by ring.
      exact T.
    + apply Qlt_le_trans with (2 ^ (la + 1)); [exact A2|]. rewrite E2.
      apply Qmult_le_l; [exact Hpk2 | exact D1].
Qed.


(** *** The double nearest to a positive number *)

Lemma double_pos_spec q :
  0 < q ->
  exists E m,
    2 ^ E <= q /\ q < 2 ^ (E + 1)
    /\ nearest_even (q * 2 ^ (- Z.max (E - 52) (- 1074))) m
    /\ double q == inject_Z m * 2 ^ Z.max (E - 52) (- 1074).
Proof.
  intros Hq. destruct q as [n d].
  assert (0 < n)%Z as Hn by (unfold Qlt in Hq; simpl in Hq; lia).
  pose proof (inject_pos n Hn) as HN.
  pose proof (inject_pos (Zpos d) ltac:(lia)) as HD.
  destruct (binade_spec n (Zpos d) Hn ltac:(lia)) as (B1 & B2).
  exists (binade n (Zpos d)).
  set (E := binade n (Zpos d)) in *.
  set (e := Z.max (E - 52) (- 1074)).
  exists (round_half_even (n * 2 ^ Z.max (- e) 0) (Zpos d * 2 ^ Z.max e 0)).
  pose proof (inject_pow2_pos (Z.max (- e) 0) ltac:(lia)) as HP.
  pose proof (inject_pow2_pos (Z.max e 0) ltac:(lia)) as HQ.
  pose proof (pow2_max_l e) as He.
  pose proof (pow2_inv e) as Hinv.
  pose proof (pow2_pos e) as Hpe. pose proof (pow2_pos (- e)) as Hpe'.
  split; [rewrite (Qmake_Qdiv n d); apply Qle_shift_div_l; assumption|].
  split; [rewrite (Qmake_Qdiv n d); apply Qlt_shift_div_r; assumption|].
  split.
  - eapply nearest_even_wd;
      [|apply round_half_even_nearest;
        [apply Z.mul_nonneg_nonneg; [lia | apply Z.pow_nonneg; lia]
        |apply Z.mul_pos_pos; [lia | apply Z.pow_pos_nonneg; lia]]].
    rewrite (Qmake_Qdiv n d), !inject_Z_mult, He.
    set (P := inject_Z (2 ^ Z.max (- e) 0)) in *.
    field_simplify_eq; [|repeat split; lra].
    setoid_replace (inject_Z n * 2 ^ e * 2 ^ (- e))
      with (inject_Z n * (2 ^ e * 2 ^ (- e)))
      using relation Qeq by ring.
    rewrite Hinv. ring.
  - unfold double. cbn [Qnum Qden].
    replace (n =? 0)%Z with false by (symmetry; apply Z.eqb_neq; lia).
    replace (n <? 0)%Z with false by (symmetry; apply Z.ltb_ge; lia).
    rewrite (Z.abs_eq n) by lia. fold E. fold e.
    rewrite Qmake_Qdiv, Z2Pos.id by (apply Z.pow_pos_nonneg; lia).
    rewrite inject_Z_mult, He.
    set (P := inject_Z (2 ^ Z.max (- e) 0)) in *.
    field. lra.
Qed.


Lemma double_opp q : double (- q) == - double q.
Proof.
  destruct q as [n d]. unfold double. cbn [Qopp Qnum Qden].
  rewrite Z.abs_opp.
  destruct (Z.eqb_spec n 0) as [->|Hn]; [reflexivity|].
  replace (- n =? 0)%Z with false by (symmetry; apply Z.eqb_neq; lia).
  destruct (Z.ltb_spec n 0) as [H|H], (Z.ltb_spec (- n) 0) as [H'|H'];
    try lia.
  - rewrite Qopp_involutive. reflexivity.
  - reflexivity.
Qed.

Lemma double_zero q : q == 0 -> double q = 0.
Proof.
  intros H. destruct q as [n d]. unfold Qeq in H. simpl in H.
  unfold double. cbn [Qnum].
  replace (n =? 0)%Z with true by (symmetry; apply Z.eqb_eq; lia).
  reflexivity.
Qed.

Lemma double_pos_nonneg q : 0 < q -> 0 <= double q.
Proof.
  intros Hq. destruct (double_pos_spec q Hq) as (E & m & _ & _ & Hm & Hd).
  rewrite Hd.
  pose proof (pow2_pos (Z.max (E - 52) (- 1074))) as Hp.
  pose proof (pow2_pos (- Z.max (E - 52) (- 1074))) as Hp'.
  assert (0 <= m)%Z as H0.
  { apply (nearest_even_ge (q * 2 ^ (- Z.max (E - 52) (- 1074))) 0 m);
      [|exact Hm]. change (inject_Z 0) with 0.
    apply Qmult_le_0_compat; lra. }
  rewrite Zle_Qle in H0. change (inject_Z 0) with 0 in H0.
  apply Qmult_le_0_compat; lra.
Qed.

Lemma pow2_le a b : (a <= b)%Z -> 2 ^ a <= 2 ^ b.
Proof. intros H. apply Qpower_le_compat_l; [exact H | lra]. Qed.

Lemma double_pos_mono x y : 0 < x -> x <= y -> double x <= double y.
Proof.
  intros Hx Hxy. assert (0 < y) as Hy by lra.
  destruct (double_pos_spec x Hx) as (Ex & mx & X1 & X2 & Xm & Hdx).
  destruct (double_pos_spec y Hy) as (Ey & my & Y1 & Y2 & Ym & Hdy).
  rewrite Hdx, Hdy. clear Hdx Hdy.
  assert (Ex <= Ey)%Z as HE.
  { assert (2 ^ Ex < 2 ^ (Ey + 1)) as H by lra.
    apply Qpower_lt_compat_l_inv in H; [lia | lra]. }
  set (ex := Z.max (Ex - 52) (- 1074)) in *.
  set (ey := Z.max (Ey - 52) (- 1074)) in *.
  pose proof (pow2_pos ex) as Hpx. pose proof (pow2_pos (- ex)) as Hpx'.
  pose proof (pow2_pos ey) as Hpy. pose proof (pow2_pos (- ey)) as Hpy'.
  destruct (Z.eq_dec ex ey) as [Heq|Hne].
  - rewrite <- Heq in *.
    assert (mx <= my)%Z as Hm.
    { apply (nearest_even_mono _ _ mx my) with (2 := Xm) (3 := Ym).
      apply Qmult_le_compat_r; lra. }
    rewrite Zle_Qle in Hm. apply Qmult_le_compat_r; lra.
  - assert (ey = Ey - 52 /\ Ex + 1 <= Ey /\ ex < ey)%Z as (Hey & HE' & Hlt)
      by (subst ex ey; lia).
    apply Qle_trans with (2 ^ Ey).
    + set (K := Z.max (Ex + 1 - ex) 0).
      assert (mx <= 2 ^ K)%Z as Hm.
      { apply (nearest_even_le (x * 2 ^ (- ex)) (2 ^ K) mx); [|exact Xm].
        rewrite pow2_inject by (subst K; lia).
        apply Qle_trans with (2 ^ (Ex + 1) * 2 ^ (- ex)).
        - apply Qmult_le_compat_r; lra.
        - rewrite <- pow2_add. apply pow2_le. subst K. lia. }
      rewrite Zle_Qle in Hm. rewrite pow2_inject in Hm by (subst K; lia).
      apply Qle_trans with (2 ^ K * 2 ^ ex).
      * apply Qmult_le_compat_r; lra.
      * rewrite <- pow2_add. apply pow2_le. subst K. lia.
    + assert (2 ^ 52 <= my)%Z as Hm.
      { apply (nearest_even_ge (y * 2 ^ (- ey)) (2 ^ 52) my); [|exact Ym].
        rewrite pow2_inject by lia.
        apply Qle_trans with (2 ^ Ey * 2 ^ (- ey)).
        - rewrite <- pow2_add. apply pow2_le. lia.
        - apply Qmult_le_compat_r; lra. }
      rewrite Zle_Qle in Hm. rewrite pow2_inject in Hm by lia.
      apply Qle_trans with (2 ^ 52 * 2 ^ ey).
      * rewrite <- pow2_add. apply pow2_le. lia.
      * apply Qmult_le_compat_r; lra.
Qed.

Lemma double_mono x y : x <= y -> double x <= double y.
Proof.
  intros Hxy.
  destruct (Q_dec x 0) as [[Hx|Hx]|Hx].
  - assert (double x <= 0) as Hdx.
    { pose proof (double_opp x) as H.
      pose proof (double_pos_nonneg (- x) ltac:(lra)) as H'. lra. }
    destruct (Q_dec y 0) as [[Hy|Hy]|Hy].
    + pose proof (double_opp x) as H1. pose proof (double_opp y) as H2.
      pose proof (double_pos_mono (- y) (- x) ltac:(lra) ltac:(lra)) as H.
      lra.
    + pose proof (double_pos_nonneg y Hy). lra.
    + rewrite (double_zero y Hy). exact Hdx.
  - apply double_pos_mono; assumption.
  - rewrite (double_zero x Hx).
    destruct (Q_dec y 0) as [[Hy|Hy]|Hy].
    + exfalso. lra.
    + apply double_pos_nonneg, Hy.
    + rewrite (double_zero y Hy). lra.
Qed.

Lemma double_pos_int z :
  (0 < z <= 2 ^ 53)%Z -> double (inject_Z z) == inject_Z z.
Proof.
  intros (Hz & Hmax).
  pose proof (inject_pos z Hz) as HZ.
  destruct (double_pos_spec (inject_Z z) HZ) as (E & m & H1 & H2 & Hm & Hd).
  rewrite Hd. clear Hd.
  assert (0 <= E <= 53)%Z as (HE0 & HE53).
  { split.
    - assert (1 <= z)%Z as H by lia. rewrite Zle_Qle in H.
      change (inject_Z 1) with (2 ^ 0) in H.
      assert (2 ^ 0 < 2 ^ (E + 1)) as H' by lra.
      apply (Qpower_lt_compat_l_inv 2 0 (E + 1)) in H'; [lia | lra].
    - rewrite Zle_Qle, pow2_inject in Hmax by lia.
      assert (2 ^ E <= 2 ^ 53) as H' by lra.
      apply (Qpower_le_compat_l_inv 2 E 53) in H'; [lia | lra]. }
  replace (Z.max (E - 52) (- 1074)) with (E - 52)%Z in * by lia.
  destruct (Z.eq_dec E 53%Z) as [->|HE].
  - assert (z = 2 ^ 53)%Z as ->.
    { apply Z.le_antisymm; [exact Hmax|].
      rewrite Zle_Qle, pow2_inject by lia. exact H1. }
    rewrite (nearest_even_int _ (2 ^ 52) m) with (2 := Hm); reflexivity.
  - assert (m = z * 2 ^ (52 - E))%Z as ->.
    { apply (nearest_even_int _ _ m) with (2 := Hm).
      rewrite inject_Z_mult, pow2_inject by lia.
      replace (- (E - 52))%Z with (52 - E)%Z by lia. reflexivity. }
    rewrite inject_Z_mult, pow2_inject by lia.
    replace (52 - E)%Z with (- (E - 52))%Z by lia.
    rewrite <- Qmult_assoc, (Qmult_comm (2 ^ (- (E - 52)))), pow2_inv. ring.
Qed.

(** The rounding to the nearest double keeps the order and the integers up
    to 2^53. *)
Lemma rounding_double : rounding double.
Proof.
  split; [apply double_mono|].
  intros z Hz. destruct (Z.lt_trichotomy z 0) as [H|[->|H]].
  - pose proof (double_opp (inject_Z z)) as Ho.
    pose proof (double_pos_int (- z) ltac:(lia)) as Hp.
    rewrite inject_Z_opp in Hp. lra.
  - reflexivity.
  - apply double_pos_int. lia.
Qed.

Lemma rounding_exact : rounding (fun q => q).
Proof. split; [auto | intros; reflexivity]. Qed.

End RoundingFacts.

(* ===================================================================== *)
(** ** The callback in two parts *)
(* ===================================================================== *)

Section CallbackFacts.

Variable fl : Q -> Q.

Implicit Types (d : Dashboard) (s : Session) (job : Job) (r i : nat).

Lemma resume_frame_failed ps rnd job :
  printer_failed ps = true ->
  Callback.resume_frame fl (Ok ps) rnd job =
  (Returned, fails ps (Callback.queue_progress fl ps (mkFrame job false 0))).
Proof.
  intros Hf. unfold Callback.resume_frame, Callback.poll. rewrite Hf.
  reflexivity.
Qed.

Lemma resume_frame_polled ps rnd job :
  printer_failed ps = false ->
  Callback.resume_frame fl (Ok ps) rnd job =
  (Falls, ensure_cap (Callback.queue_progress fl ps (mkFrame job false 0))).
Proof.
  intros Hf. unfold Callback.resume_frame, Callback.poll. rewrite Hf.
  reflexivity.
Qed.

Lemma resume_frame_unreachable resp rnd job :
  unreachable resp ->
  Callback.resume_frame fl resp rnd job =
  (Falls, ensure_cap (mkFrame (Callback.simulated fl rnd job) false 0)).
Proof. intros [-> | ->]; reflexivity. Qed.

Lemma rounded_queue_progress_id ps f :
  job_id (fr_job (Callback.queue_progress fl ps f)) = job_id (fr_job f).
Proof.
  unfold Callback.queue_progress.
  destruct (currentJob ps (fr_job f)) as [cur|].
  - destruct (total_pages cur) as [total|]; [|reflexivity].
    destruct (0 <? total)%Z; reflexivity.
  - destruct (Qltb _ _); reflexivity.
Qed.

Lemma rounded_queue_progress_le ps f :
  (job_progress (fr_job (Callback.queue_progress fl ps f)) <= 100)%Q.
Proof.
  unfold Callback.queue_progress.
  destruct (currentJob ps (fr_job f)) as [cur|].
  - destruct (total_pages cur) as [total|];
      [destruct (0 <? total)%Z|]; simpl;
      (eapply Qle_trans; [apply Qmin_le_l | lra]).
  - destruct (Qltb _ _); simpl.
    + eapply Qle_trans; [apply Qmin_le_l | lra].
    + lra.
Qed.

Lemma rounded_queue_progress_matched ps f cur total :
  currentJob ps (fr_job f) = Some cur ->
  total_pages cur = Some total -> (0 < total)%Z ->
  Callback.queue_progress fl ps f =
  on_job (set_progress
            (Qmin 95 (fl (fl (inject_Z (pages_printed cur) / inject_Z total)
                          * 100)))) f.
Proof.
  intros Hcur Htot Hpos. unfold Callback.queue_progress. rewrite Hcur, Htot.
  apply Z.ltb_lt in Hpos. rewrite Hpos. reflexivity.
Qed.

Lemma resume_frame_id resp rnd job :
  job_id (fr_job (Callback.resume_frame fl resp rnd job).2) = job_id job.
Proof.
  destruct resp as [| |ps].
  - rewrite resume_frame_unreachable by (right; reflexivity).
    simpl. rewrite ensure_cap_id. reflexivity.
  - rewrite resume_frame_unreachable by (left; reflexivity).
    simpl. rewrite ensure_cap_id. reflexivity.
  - destruct (printer_failed ps) eqn:Hf.
    + rewrite resume_frame_failed by assumption. simpl.
      apply rounded_queue_progress_id.
    + rewrite resume_frame_polled by assumption. simpl.
      rewrite ensure_cap_id. apply rounded_queue_progress_id.
Qed.

Lemma resume_frame_le resp rnd job :
  (job_progress (fr_job (Callback.resume_frame fl resp rnd job).2) <= 100)%Q.
Proof.
  destruct resp as [| |ps].
  - rewrite resume_frame_unreachable by (right; reflexivity).
    apply ensure_cap_le.
  - rewrite resume_frame_unreachable by (left; reflexivity).
    apply ensure_cap_le.
  - destruct (printer_failed ps) eqn:Hf.
    + rewrite resume_frame_failed by assumption. simpl.
      apply rounded_queue_progress_le.
    + rewrite resume_frame_polled by assumption. apply ensure_cap_le.
Qed.

(** *** The two parts on the session *)

Lemma fires_dead r now s : r ∉ intervals (dash s) -> fires r now s = s.
Proof.
  intros H. unfold fires. rewrite bool_decide_eq_false_2 by exact H.
  reflexivity.
Qed.

(** The guard stops a job that is ['error'] or ['cancelled']: this part of
    the callback has no [await], and it is the whole tick. *)
Lemma fires_stopped r now resp rnd s job :
  r ∈ intervals (dash s) -> store (dash s) !! r = Some job ->
  stopped (job_status job) = true ->
  fires r now s = mkSession (monitor_tick r now resp rnd (dash s)) (inflight s).
Proof.
  intros Hin Hjob Hs. unfold fires, monitor_tick.
  rewrite bool_decide_eq_true_2 by exact Hin. rewrite Hjob, Hs.
  rewrite tick_frame_stopped by exact Hs.
  assert (commit r (mkFrame job true 0) (dash s) = clearInterval r (dash s))
    as ->; [|reflexivity].
  unfold commit, clearInterval, with_timeouts, with_intervals, with_store.
  simpl. rewrite (insert_id _ _ _ Hjob), app_nil_r. reflexivity.
Qed.

Lemma fires_polls r now s job :
  r ∈ intervals (dash s) -> store (dash s) !! r = Some job ->
  stopped (job_status job) = false ->
  fires r now s = mkSession (dash s) (inflight s ++ [r]).
Proof.
  intros Hin Hjob Hs. unfold fires.
  rewrite bool_decide_eq_true_2 by exact Hin. rewrite Hjob, Hs. reflexivity.
Qed.

Lemma answers_idle i now resp rnd s :
  inflight s !! i = None -> answers fl i now resp rnd s = s.
Proof. intros H. unfold answers. rewrite H. reflexivity. Qed.

(** The answer arrives: the job object gets the writes of the frame, whatever
    its status is by now. *)
Lemma answers_live i now resp rnd s r job :
  inflight s !! i = Some r -> store (dash s) !! r = Some job ->
  let f := (Callback.resume_frame fl resp rnd job).2 in
  let s' := answers fl i now resp rnd s in
  store (dash s') = <[r := fr_job f]> (store (dash s))
  /\ jobIdCounter (dash s') = jobIdCounter (dash s)
  /\ awaiting (dash s') = awaiting (dash s)
  /\ intervals (dash s') =
       (if fr_cleared f then intervals (dash s) ∖ {[r]} else intervals (dash s))
  /\ messages (dash s') = messages (dash s)
  /\ inflight s' = delete i (inflight s).
Proof.
  intros Hi Hjob. unfold answers. rewrite Hi. cbn zeta. rewrite Hjob.
  destruct (Callback.resume_frame fl resp rnd job) as [fl' f]. simpl.
  destruct (commit_fields r f (dash s)) as (Cs & Cc & Ca & Ci & Cm).
  destruct fl'; cbn [dash inflight].
  - destruct (removeJobFromQueue_same_jobs now (job_id job) (commit r f (dash s)))
      as (Hs & Hc & Ha & Hi' & Hm).
    repeat split; congruence.
  - destruct (updateJobInQueue_same_jobs r (commit r f (dash s)))
      as (Hs & Hc & Ha & Hi' & Hm).
    repeat split; congruence.
Qed.

Lemma answers_inflight i now resp rnd s :
  forall r, r ∈ inflight (answers fl i now resp rnd s) -> r ∈ inflight s.
Proof.
  intros r. unfold answers.
  destruct (inflight s !! i) as [r'|] eqn:Hi; [|auto].
  cbn zeta.
  assert (r ∈ delete i (inflight s) -> r ∈ inflight s) as Hsub.
  { intros H. eapply elem_of_sublist; [exact H | apply sublist_delete]. }
  destruct (store (dash s) !! r'); [|exact Hsub].
  destruct (Callback.resume_frame fl resp rnd j) as [[] f]; exact Hsub.
Qed.

(** *** Sessions stay in order *)

Lemma session_ok_step s e :
  session_ok s -> session_ok (mkSession (step (dash s) e) (inflight s)).
Proof.
  intros (Hwf & Hin). split; [apply wf_step, Hwf|]. simpl.
  intros r Hr. destruct (Hin r Hr) as (Hlt & Ha).
  destruct (step_monitors (dash s) e) as (Hc & Hawait & _).
  split; [lia|]. intros [H|H]%Hawait; [auto | lia].
Qed.

Lemma session_ok_fires r now s : session_ok s -> session_ok (fires r now s).
Proof.
  intros Hok. destruct (decide (r ∈ intervals (dash s))) as [Hin|Hout].
  2: { rewrite fires_dead by exact Hout. exact Hok. }
  destruct (store (dash s) !! r) as [job|] eqn:Hjob.
  2: { unfold fires. rewrite Hjob. destruct (bool_decide _); exact Hok. }
  destruct (stopped (job_status job)) eqn:Hs.
  - rewrite (fires_stopped r now FetchThrows 0%Q s job Hin Hjob Hs).
    apply (session_ok_step s (Tick r now FetchThrows 0%Q) Hok).
  - rewrite (fires_polls r now s job Hin Hjob Hs).
    destruct Hok as (Hwf & Hwait). split; [exact Hwf|]. simpl.
    intros r' [Hr'|Hr']%elem_of_app; [auto|].
    apply list_elem_of_singleton in Hr'. subst r'.
    destruct Hwf as (_ & Hlt & Hdisj). split; [apply Hlt|]; set_solver.
Qed.

Lemma session_ok_answers i now resp rnd s :
  session_ok s -> session_ok (answers fl i now resp rnd s).
Proof.
  intros Hok. destruct (inflight s !! i) as [r|] eqn:Hi.
  2: { rewrite answers_idle by exact Hi. exact Hok. }
  pose proof (answers_inflight i now resp rnd s) as Hsub.
  destruct Hok as (Hwf & Hwait).
  destruct (store (dash s) !! r) as [job|] eqn:Hjob.
  - destruct (answers_live i now resp rnd s r job Hi Hjob)
      as (Hs & Hc & Ha & Hint & _).
    split.
    + apply (wf_update (dash s) _ r job _ Hwf Hjob
               (resume_frame_id resp rnd job) (resume_frame_le resp rnd job)
               Hs Hc).
      * rewrite Ha. set_solver.
      * rewrite Hint. destruct (fr_cleared _); set_solver.
    + intros r' Hr'. rewrite Hc, Ha. apply Hwait, Hsub, Hr'.
  - split.
    + unfold answers. rewrite Hi. cbn zeta. rewrite Hjob. exact Hwf.
    + intros r' Hr'.
      assert (dash (answers fl i now resp rnd s) = dash s) as ->
        by (unfold answers; rewrite Hi; cbn zeta; rewrite Hjob; reflexivity).
      apply Hwait, Hsub, Hr'.
Qed.

Lemma session_ok_act s a : session_ok s -> session_ok (act fl s a).
Proof.
  intros Hok.
  destruct a as [r now|i now resp rnd|sel pr|r o|jobId|k now|now|]; cbn [act].
  - apply session_ok_fires, Hok.
  - apply session_ok_answers, Hok.
  - apply (session_ok_step s (PrintDocument sel pr) Hok).
  - apply (session_ok_step s (PrintResponse r o) Hok).
  - apply (session_ok_step s (CancelJob jobId) Hok).
  - apply (session_ok_step s (TimeoutFires k now) Hok).
  - apply (session_ok_step s (ClearQueue now) Hok).
  - apply (session_ok_step s ClearHistory Hok).
Qed.

Lemma session_ok_run actions :
  forall s, session_ok s -> session_ok (session_run fl s actions).
Proof.
  unfold session_run.
  induction actions as [|a actions IH]; intros s Hok; simpl.
  - exact Hok.
  - apply IH, session_ok_act, Hok.
Qed.

Lemma session_ok_start d : wf d -> session_ok (mkSession d []).
Proof.
  intros Hwf. split; [exact Hwf|]. simpl. intros r Hr. inversion Hr.
Qed.

(** *** A cleared monitor stays cleared *)

Lemma retired_act r s a : retired r (dash s) -> retired r (dash (act fl s a)).
Proof.
  intros Hret.
  destruct a as [r' now|i now resp rnd|sel pr|r' o|jobId|k now|now|]; cbn [act].
  - destruct (decide (r' ∈ intervals (dash s))) as [Hin|Hout].
    2: { rewrite fires_dead by exact Hout. exact Hret. }
    destruct (store (dash s) !! r') as [job|] eqn:Hjob.
    2: { unfold fires. rewrite Hjob. destruct (bool_decide _); exact Hret. }
    destruct (stopped (job_status job)) eqn:Hs.
    + rewrite (fires_stopped r' now FetchThrows 0%Q s job Hin Hjob Hs).
      apply (retired_step r (dash s) (Tick r' now FetchThrows 0%Q) Hret).
    + rewrite (fires_polls r' now s job Hin Hjob Hs). exact Hret.
  - destruct (inflight s !! i) as [r'|] eqn:Hi.
    2: { rewrite answers_idle by exact Hi. exact Hret. }
    destruct (store (dash s) !! r') as [job|] eqn:Hjob.
    + destruct (answers_live i now resp rnd s r' job Hi Hjob)
        as (_ & Hc & Ha & Hint & _).
      destruct Hret as (Hlt & Hna & Hni).
      split; [rewrite Hc; exact Hlt|].
      split; [rewrite Ha; exact Hna|].
      rewrite Hint. destruct (fr_cleared _); set_solver.
    + unfold answers. rewrite Hi. cbn zeta. rewrite Hjob. exact Hret.
  - apply (retired_step r (dash s) (PrintDocument sel pr) Hret).
  - apply (retired_step r (dash s) (PrintResponse r' o) Hret).
  - apply (retired_step r (dash s) (CancelJob jobId) Hret).
  - apply (retired_step r (dash s) (TimeoutFires k now) Hret).
  - apply (retired_step r (dash s) (ClearQueue now) Hret).
  - apply (retired_step r (dash s) ClearHistory Hret).
Qed.

Lemma retired_session_run r actions :
  forall s, retired r (dash s) -> retired r (dash (session_run fl s actions)).
Proof.
  unfold session_run.
  induction actions as [|a actions IH]; intros s Hret; simpl.
  - exact Hret.
  - apply IH, retired_act, Hret.
Qed.

End CallbackFacts.

Lemma session_ok_waiting n d : wf d -> session_ok (waiting n d).
Proof.
  intros Hwf. apply session_ok_run, session_ok_start, Hwf.
Qed.

(** With exact arithmetic and nothing between its two parts, the callback
    is the tick of the sections above. *)
Lemma monitor_tick_in_two_parts r now resp rnd s job :
  r ∈ intervals (dash s) -> store (dash s) !! r = Some job ->
  stopped (job_status job) = false ->
  dash (answers (fun q => q) (length (inflight s)) now resp rnd (fires r now s))
  = monitor_tick r now resp rnd (dash s).
Proof.
  intros Hin Hjob Hs. rewrite (fires_polls r now s job Hin Hjob Hs).
  unfold answers, monitor_tick. simpl inflight. simpl dash.
  rewrite list_lookup_middle by reflexivity. cbn zeta.
  rewrite bool_decide_eq_true_2 by exact Hin. rewrite Hjob.
  assert (Callback.resume_frame (fun q => q) resp rnd job
          = tick_frame resp rnd job) as ->.
  { unfold tick_frame. rewrite Hs. reflexivity. }
  destruct (tick_frame resp rnd job) as [[] f]; reflexivity.
Qed.

(** C5: when the answer to a poll lists the job with a positive page
    total, the callback stores [min(95, pages_printed / total_pages * 100)]
    as the progress of the job, the quotient and the product each rounded
    as the doubles of the script are; the stored progress is at most 95.
    This holds whatever the status of the job is by then, and whether or
    not the printer-failure branch follows. *)
Theorem matched_tick_progress (fl : Q -> Q) (s : Session) (i r : nat)
    (now : N) (ps : PrinterStatus) (rnd : Q) (job : Job) (cur : QueueEntry)
    (total : Z) :
  inflight s !! i = Some r -> store (dash s) !! r = Some job ->
  currentJob ps job = Some cur ->
  total_pages cur = Some total -> (0 < total)%Z ->
  exists job',
    store (dash (answers fl i now (Ok ps) rnd s)) !! r = Some job'
    /\ job_progress job'
       = Qmin 95 (fl (fl (inject_Z (pages_printed cur) / inject_Z total)
                      * 100))%Q
    /\ (job_progress job' <= 95)%Q.
Proof.
  intros Hi Hjob Hcur Htot Hpos.
  destruct (answers_live fl i now (Ok ps) rnd s r job Hi Hjob) as (Hst & _).
  rewrite Hst, lookup_insert_eq. eexists. split; [reflexivity|].
  pose proof (rounded_queue_progress_matched fl ps (mkFrame job false 0)
                cur total Hcur Htot Hpos) as Hq.
  assert (job_progress (fr_job (Callback.resume_frame fl (Ok ps) rnd job).2)
          = Qmin 95 (fl (fl (inject_Z (pages_printed cur) / inject_Z total)
                         * 100))%Q) as Hp.
  { destruct (printer_failed ps) eqn:Hf.
    - rewrite resume_frame_failed by assumption. simpl. rewrite Hq.
      reflexivity.
    - rewrite resume_frame_polled by assumption. rewrite Hq.
      rewrite ensure_cap_below; [reflexivity|]. simpl.
      eapply Qle_lt_trans; [apply Qmin_le_l | reflexivity]. }
  split; [exact Hp|]. rewrite Hp. apply Qmin_le_l.
Qed.

Lemma matched_tick_progress_witness :
  exists job',
    store (dash (answers double 0 0 (queued 1 3) 0%Q (waiting 1 (polled 1)))) !! 1
    = Some job'
    /\ (job_progress job' == 2345624805922133 # 70368744177664)%Q
    /\ ~ (job_progress job' == 100 # 3)%Q.
Proof.
  destruct (matched_tick_progress double (waiting 1 (polled 1)) 0 1 0%N
              (mkPrinterStatus (js "ready") None
                 (Some [mkQueueEntry (Some report) 1 (Some 3%Z)]))
              0%Q (mkJob 1 report Printing 15 None)
              (mkQueueEntry (Some report) 1 (Some 3%Z)) 3%Z)
    as (job' & Hjob' & Hp & _).
  - vm_compute. reflexivity.
  - vm_compute. reflexivity.
  - vm_compute. reflexivity.
  - reflexivity.
  - reflexivity.
  - exists job'. split; [exact Hjob'|]. rewrite Hp.
    split; vm_compute; [reflexivity | discriminate].
Defined.

(** C6, as stated, fails: the interval fires twice while the first request
    is still pending. The first answer says ['offline']: the job, at 90 per
    cent, gets the status ['error'] and the interval is cleared. The second
    callback is not stopped by that: when its answer comes, without the
    document in the printer queue, it runs to its end and marks the failed
    job as completed. *)
Lemma waiting_callback_runs_after_failure :
  inflight (waiting 2 (polled 6)) = [1; 1]
  /\ status_of 1 (dash (answers double 0 0 printer_offline 0%Q
                          (waiting 2 (polled 6)))) = Some Error
  /\ (1 ∉ intervals (dash (answers double 0 0 printer_offline 0%Q
                             (waiting 2 (polled 6)))))
  /\ status_of 1 (dash (answers double 0 1 (printer_ready []) 0%Q
                          (answers double 0 0 printer_offline 0%Q
                             (waiting 2 (polled 6))))) = Some Completed
  /\ progress_of 1 (dash (answers double 0 1 (printer_ready []) 0%Q
                            (answers double 0 0 printer_offline 0%Q
                               (waiting 2 (polled 6))))) = Some 100%Q.
Proof.
  split; [vm_compute; reflexivity|]. split; [vm_compute; reflexivity|].
  split.
  { intros H. apply (bool_decide_pack _) in H. vm_compute in H. exact H. }
  split; vm_compute; reflexivity.
Qed.

(** C6, amended: when the answer to a poll gives the printer status
    ['error'] or ['offline'], the callback sets the status of the job to
    ['error'] and its error to [Printer <status>: <message>], with
    [Unknown error] for a missing or empty message, and clears the interval
    of the monitor before it returns. From then on the interval is never
    live again, whatever happens to the session: when its timer fires,
    nothing runs, so no further tick starts. The callbacks that were
    waiting for their answer beside this one keep waiting. *)
Theorem printer_failure_stops_monitor (fl : Q -> Q) (s : Session) (i r : nat)
    (now : N) (ps : PrinterStatus) (rnd : Q) (job : Job) :
  session_ok s ->
  inflight s !! i = Some r -> store (dash s) !! r = Some job ->
  ps_status ps = js "error" \/ ps_status ps = js "offline" ->
  let s' := answers fl i now (Ok ps) rnd s in
  (exists job',
     store (dash s') !! r = Some job'
     /\ job_status job' = Error
     /\ job_error job'
        = Some (js "Printer " ++ ps_status ps ++ js ": "
                ++ match ps_message ps with
                   | Some (c :: message) => c :: message
                   | _ => js "Unknown error"
                   end))
  /\ (r ∉ intervals (dash s'))
  /\ inflight s' = delete i (inflight s)
  /\ forall actions,
       (r ∉ intervals (dash (session_run fl s' actions)))
       /\ forall now',
            fires r now' (session_run fl s' actions)
            = session_run fl s' actions.
Proof.
  intros (Hwf & Hwait) Hi Hjob Hstatus s'. subst s'.
  assert (printer_failed ps = true) as Hf.
  { unfold printer_failed. destruct Hstatus as [-> | ->]; reflexivity. }
  destruct (answers_live fl i now (Ok ps) rnd s r job Hi Hjob)
    as (Hst & Hc & Ha & Hint & _ & Hrest).
  rewrite resume_frame_failed in Hst, Hint by assumption. simpl in Hst, Hint.
  assert (r ∉ intervals (dash (answers fl i now (Ok ps) rnd s))) as Hout
    by (rewrite Hint; set_solver).
  split; [|split; [exact Hout|split; [exact Hrest|]]].
  - rewrite Hst, lookup_insert_eq. eexists. split; [reflexivity|].
    split; [reflexivity|]. simpl. unfold failure_message, or_default.
    destruct (ps_message ps) as [[|c message]|]; reflexivity.
  - intros actions.
    assert (retired r (dash (answers fl i now (Ok ps) rnd s))) as Hret.
    { destruct (Hwait r) as (Hlt & Hna).
      - apply list_elem_of_lookup. eauto.
      - split; [rewrite Hc; exact Hlt|]. split; [rewrite Ha; exact Hna|].
        exact Hout. }
    destruct (retired_session_run fl r actions _ Hret) as (_ & _ & Hgone).
    split; [exact Hgone|]. intros now'. apply fires_dead, Hgone.
Qed.

Lemma printer_failure_stops_monitor_witness :
  (exists job',
     store (dash (answers double 0 0 printer_offline 0%Q
                    (waiting 2 (polled 2)))) !! 1 = Some job'
     /\ job_status job' = Error
     /\ job_error job' = Some (js "Printer offline: Out of paper"))
  /\ (1 ∉ intervals (dash (answers double 0 0 printer_offline 0%Q
                             (waiting 2 (polled 2)))))
  /\ inflight (answers double 0 0 printer_offline 0%Q (waiting 2 (polled 2)))
     = [1].
Proof.
  destruct (printer_failure_stops_monitor double (waiting 2 (polled 2)) 0 1 0%N
              (mkPrinterStatus (js "offline") (Some (js "Out of paper"))
                 (Some []))
              0%Q (mkJob 1 report Printing 30 None))
    as ((job' & Hjob' & Hst & Herr) & Hout & Hrest & _).
  - apply session_ok_waiting, wf_polled.
  - vm_compute. reflexivity.
  - vm_compute. reflexivity.
  - right. reflexivity.
  - split; [|split].
    + exists job'. split; [exact Hjob'|]. split; [exact Hst|].
      rewrite Herr. reflexivity.
    + exact Hout.
    + etransitivity; [exact Hrest|]. vm_compute. reflexivity.
Defined.

(** C7, as stated, fails: at a progress of 95 a poll that throws adds at
    least 5, the progress reaches 100, the job is marked completed by the
    estimate alone and the interval is cleared: polling does not go on. *)
Lemma unreachable_provider_ends_polling :
  status_of 1 (polled 7) = Some Printing
  /\ progress_of 1 (polled 7) = Some 95%Q
  /\ 1 ∈ intervals (polled 7)
  /\ status_of 1 (step (polled 7) (Tick 1 0 FetchThrows (1 # 2))) = Some Completed
  /\ progress_of 1 (step (polled 7) (Tick 1 0 FetchThrows (1 # 2))) = Some 100%Q
  /\ 1 ∉ intervals (step (polled 7) (Tick 1 0 FetchThrows (1 # 2))).
Proof.
  split; [vm_compute; reflexivity|]. split; [vm_compute; reflexivity|].
  split; [apply (bool_decide_unpack _); vm_compute; exact I|].
  split; [vm_compute; reflexivity|]. split; [vm_compute; reflexivity|].
  intros H. apply (bool_decide_pack _) in H. vm_compute in H. exact H.
Qed.

(** C7, amended: when the answer to a poll is that the status provider
    cannot be reached, the callback leaves the error detail of the job as it
    is and shows no message; it adds [Math.random() * 10 + 5] to the
    progress, each operation rounded as the doubles of the script are. When
    that sum is below 100 it is the new progress, and the status and the
    interval are as before, so polling goes on; otherwise the progress is
    100, the job is marked completed and the interval is cleared. For a
    rounding that keeps the order and the small integers, the new progress
    lies between the old one plus 5, at most 100, and the old one plus 15,
    each rounded. *)
Theorem unreachable_provider_tick (fl : Q -> Q) (s : Session) (i r : nat)
    (now : N) (resp : Response) (rnd : Q) (job : Job) :
  inflight s !! i = Some r -> store (dash s) !! r = Some job ->
  unreachable resp ->
  let s' := answers fl i now resp rnd s in
  let estimate := (fl (job_progress job + fl (fl (rnd * 10) + 5)))%Q in
  exists job',
    store (dash s') !! r = Some job'
    /\ job_error job' = job_error job
    /\ messages (dash s') = messages (dash s)
    /\ (job_status job' = job_status job \/ job_status job' = Completed)
    /\ ((estimate < 100)%Q ->
        job_progress job' = estimate
        /\ job_status job' = job_status job
        /\ intervals (dash s') = intervals (dash s))
    /\ ((100 <= estimate)%Q ->
        job_progress job' = 100%Q
        /\ job_status job' = Completed /\ r ∉ intervals (dash s'))
    /\ (rounding fl -> (0 <= rnd)%Q -> (rnd <= 1)%Q ->
        (Qmin 100 (fl (job_progress job + 5)) <= job_progress job')%Q
        /\ (job_progress job' <= fl (job_progress job + 15))%Q).
Proof.
  intros Hi Hjob Hun s' estimate. subst s'.
  destruct (answers_live fl i now resp rnd s r job Hi Hjob)
    as (Hst & _ & _ & Hint & Hm & _).
  rewrite resume_frame_unreachable in Hst, Hint by assumption.
  simpl in Hst, Hint.
  rewrite Hst, lookup_insert_eq. eexists. split; [reflexivity|].
  set (f := mkFrame (Callback.simulated fl rnd job) false 0) in *.
  assert (job_progress (fr_job f) = estimate) as Hest by reflexivity.
  assert (rounding fl -> (0 <= rnd)%Q -> (rnd <= 1)%Q ->
          (fl (job_progress job + 5) <= estimate)%Q
          /\ (estimate <= fl (job_progress job + 15))%Q) as Hbounds.
  { intros (Hmono & Hint') Hlo Hhi.
    pose proof (Hint' 0%Z ltac:(vm_compute; discriminate)) as H0.
    pose proof (Hint' 5%Z ltac:(vm_compute; discriminate)) as H5.
    pose proof (Hint' 10%Z ltac:(vm_compute; discriminate)) as H10.
    pose proof (Hint' 15%Z ltac:(vm_compute; discriminate)) as H15.
    change (inject_Z 0) with 0%Q in H0. change (inject_Z 5) with 5%Q in H5.
    change (inject_Z 10) with 10%Q in H10.
    change (inject_Z 15) with 15%Q in H15.
    assert (0 <= fl (rnd * 10))%Q as Ha.
    { apply Qle_trans with (fl 0%Q); [rewrite H0; lra | apply Hmono; lra]. }
    assert (fl (rnd * 10) <= 10)%Q as Hb.
    { apply Qle_trans with (fl 10%Q); [apply Hmono; lra | rewrite H10; lra]. }
    assert (5 <= fl (fl (rnd * 10) + 5))%Q as Hc.
    { apply Qle_trans with (fl 5%Q); [rewrite H5; lra | apply Hmono; lra]. }
    assert (fl (fl (rnd * 10) + 5) <= 15)%Q as Hd.
    { apply Qle_trans with (fl 15%Q); [apply Hmono; lra | rewrite H15; lra]. }
    subst estimate. split; apply Hmono; lra. }
  destruct (Qlt_le_dec estimate 100) as [Hbelow|Hreached].
  - rewrite ensure_cap_below in * by (rewrite Hest; exact Hbelow).
    simpl. split; [reflexivity|]. split; [exact Hm|]. split; [auto|].
    split; [|split].
    + intros _. rewrite Hint. auto.
    + intros H. exfalso. lra.
    + intros Hr Hlo Hhi. destruct (Hbounds Hr Hlo Hhi) as (H1 & H2).
      fold estimate. split; [|exact H2].
      eapply Qle_trans; [apply Q.le_min_r | exact H1].
  - rewrite ensure_cap_reached in * by (rewrite Hest; exact Hreached).
    simpl. split; [reflexivity|]. split; [exact Hm|]. split; [auto|].
    split; [|split].
    + intros H. exfalso. lra.
    + intros _. rewrite Hint. split; [reflexivity|]. split; [reflexivity|].
      set_solver.
    + intros Hr Hlo Hhi. destruct (Hbounds Hr Hlo Hhi) as (H1 & H2).
      split; [apply Q.le_min_l | lra].
Qed.

(** With doubles, the progress 90 and [Math.random()] just below one half,
    the rounded sum is 100 although the exact sum is below it: the job is
    completed. *)
Lemma unreachable_provider_tick_witness :
  (90 + ((4503599627370495 # 9007199254740992) * 10 + 5) < 100)%Q
  /\ exists job',
       store (dash (answers double 0 0 NotOk
                      (4503599627370495 # 9007199254740992)
                      (waiting 1 (polled 6)))) !! 1 = Some job'
       /\ job_progress job' = 100%Q
       /\ job_status job' = Completed
       /\ (Qmin 100 (double (90 + 5)) <= job_progress job')%Q
       /\ (job_progress job' <= double (90 + 15))%Q.
Proof.
  split; [vm_compute; reflexivity|].
  destruct (unreachable_provider_tick double (waiting 1 (polled 6)) 0 1 0%N
              NotOk (4503599627370495 # 9007199254740992)
              (mkJob 1 report Printing 90 None))
    as (job' & Hjob' & _ & _ & _ & _ & Hreached & Hbounds).
  - vm_compute. reflexivity.
  - vm_compute. reflexivity.
  - left. reflexivity.
  - exists job'. split; [exact Hjob'|].
    destruct Hreached as (Hp & Hst & _); [vm_compute; discriminate|].
    split; [exact Hp|]. split; [exact Hst|].
    apply Hbounds; [apply rounding_double|vm_compute; discriminate..].
Defined.




(* ===================================================================== *)
(** ** Form fields: trimming, page-range settings, the posted form *)
(* ===================================================================== *)

Section FormFacts.

Implicit Types (s t : jsstring) (c : code_unit).

Lemma trimStart_length s : length (trimStart s) <= length s.
Proof.
  induction s as [|c s IH]; simpl; [lia|].
  destruct (is_space c); simpl; lia.
Qed.

Lemma trimStart_fixed_head c s :
  trimStart (c :: s) = c :: s -> is_space c = false.
Proof.
  simpl. destruct (is_space c); [|reflexivity].
  intros H. pose proof (trimStart_length s) as Hl.
  rewrite H in Hl. simpl in Hl. lia.
Qed.

Lemma trimStart_idem s : trimStart (trimStart s) = trimStart s.
Proof.
  induction s as [|c s IH]; simpl; [reflexivity|].
  destruct (is_space c) eqn:Hc; [exact IH|]. simpl. rewrite Hc. reflexivity.
Qed.

Lemma trimEnd_cons c s :
  is_space c = false -> trimEnd (c :: s) = c :: trimEnd s.
Proof. intros Hc. simpl. destruct (trimEnd s); rewrite ?Hc; reflexivity. Qed.

Lemma trimEnd_idem s : trimEnd (trimEnd s) = trimEnd s.
Proof.
  induction s as [|c s IH]; simpl; [reflexivity|].
  destruct (trimEnd s) as [|d t] eqn:Ht.
  - destruct (is_space c) eqn:Hc; [reflexivity|]. simpl. rewrite Hc. reflexivity.
  - change (trimEnd (c :: d :: t)) with
      (match trimEnd (d :: t) with
       | [] => if is_space c then [] else [c]
       | t' => c :: t'
       end).
    rewrite IH. reflexivity.
Qed.

Lemma trimStart_trimEnd s :
  trimStart s = s -> trimStart (trimEnd s) = trimEnd s.
Proof.
  destruct s as [|c s]; [reflexivity|]. intros Hc%trimStart_fixed_head.
  rewrite trimEnd_cons by exact Hc. simpl. rewrite Hc. reflexivity.
Qed.

Lemma trim_idem s : trim (trim s) = trim s.
Proof.
  unfold trim.
  rewrite (trimStart_trimEnd (trimStart s)) by apply trimStart_idem.
  apply trimEnd_idem.
Qed.

Lemma strip_trimStart s : strip_spaces (trimStart s) = strip_spaces s.
Proof.
  induction s as [|c s IH]; simpl; [reflexivity|].
  destruct (is_space c) eqn:Hc; simpl; [exact IH|]. rewrite Hc. reflexivity.
Qed.

Lemma strip_trimEnd s : strip_spaces (trimEnd s) = strip_spaces s.
Proof.
  induction s as [|c s IH]; [reflexivity|].
  change (trimEnd (c :: s)) with
    (match trimEnd s with
     | [] => if is_space c then [] else [c]
     | t' => c :: t'
     end).
  change (strip_spaces (c :: s)) with (strip_spaces ([c] ++ s)).
  rewrite (strip_spaces_app [c] s), <- IH.
  destruct (trimEnd s) as [|d t].
  - destruct (is_space c) eqn:Hc; unfold strip_spaces; cbn; rewrite ?Hc;
      reflexivity.
  - apply (strip_spaces_app [c] (d :: t)).
Qed.

Lemma strip_trim s : strip_spaces (trim s) = strip_spaces s.
Proof. unfold trim. rewrite strip_trimEnd. apply strip_trimStart. Qed.

Lemma trimStart_spaceless s : spaceless s -> trimStart s = s.
Proof. destruct 1 as [|c s Hc _]; simpl; [|rewrite Hc]; reflexivity. Qed.

Lemma trimEnd_spaceless s : spaceless s -> trimEnd s = s.
Proof.
  induction 1 as [|c s Hc _ IH]; [reflexivity|].
  rewrite trimEnd_cons by exact Hc. rewrite IH. reflexivity.
Qed.

Lemma trim_spaceless s : spaceless s -> trim s = s.
Proof.
  intros H. unfold trim. rewrite (trimStart_spaceless s H).
  apply trimEnd_spaceless, H.
Qed.

Lemma truthy_nonempty s : truthy s = true <-> s <> [].
Proof. destruct s; simpl; split; congruence. Qed.

(** *** The shape of an accepted page range *)

Lemma digit_range_char c : is_digit c = true -> range_char c = true.
Proof. intros H. unfold range_char. rewrite H. reflexivity. Qed.

Lemma digit_string_shape a :
  digit_string a ->
  Forall (fun c => range_char c = true) a
  /\ (exists c post, a = c :: post /\ is_digit c = true)
  /\ (exists pre c, a = pre ++ [c] /\ is_digit c = true).
Proof.
  intros [Hne Hall]. split; [|split].
  - eapply Forall_impl; [exact Hall|]. apply digit_range_char.
  - destruct Hall as [|c post Hc _]; [congruence|]. eauto.
  - destruct (exists_last Hne) as (pre & c & ->).
    apply Forall_app in Hall as [_ Hc]. inversion Hc; subst. eauto.
Qed.

Lemma Token_shape t :
  Token t ->
  Forall (fun c => range_char c = true) t
  /\ (exists c post, t = c :: post /\ is_digit c = true)
  /\ (exists pre c, t = pre ++ [c] /\ is_digit c = true).
Proof.
  destruct 1 as [a Ha|a b Ha Hb]; [apply digit_string_shape, Ha|].
  destruct (digit_string_shape a Ha) as (Fa & (c & post & -> & Hc) & _).
  destruct (digit_string_shape b Hb) as (Fb & _ & (pre & c' & -> & Hc')).
  split; [|split].
  - apply Forall_app. split; [exact Fa|]. constructor; [reflexivity | exact Fb].
  - exists c, (post ++ hyphen :: pre ++ [c']). split; [reflexivity | exact Hc].
  - exists ((c :: post) ++ hyphen :: pre), c'. split; [|exact Hc'].
    rewrite <- app_assoc. reflexivity.
Qed.

Lemma Continuation_shape rest :
  Continuation rest ->
  Forall (fun c => range_char c = true) rest
  /\ (rest = [] \/ exists pre c, rest = pre ++ [c] /\ is_digit c = true).
Proof.
  induction 1 as [|ws t rest Hws Ht _ (Fr & Hr)]; [split; [constructor | auto]|].
  destruct (Token_shape t Ht) as (Ft & _ & (pre & c & -> & Hc)).
  split.
  - constructor; [reflexivity|]. apply Forall_app. split.
    + eapply Forall_impl; [exact Hws|]. intros x Hx. unfold range_char.
      rewrite Hx. apply orb_true_r.
    + apply Forall_app. split; assumption.
  - right. destruct Hr as [->|(pre' & c' & -> & Hc')].
    + exists (comma :: ws ++ pre), c. split; [|exact Hc].
      rewrite app_nil_r. simpl. rewrite <- app_assoc. reflexivity.
    + exists (comma :: ws ++ (pre ++ [c]) ++ pre'), c'. split; [|exact Hc'].
      simpl. rewrite <- !app_assoc. reflexivity.
Qed.

Lemma PageRangeGrammar_shape s :
  PageRangeGrammar s ->
  Forall (fun c => range_char c = true) s
  /\ (exists c post, s = c :: post /\ is_digit c = true)
  /\ (exists pre c, s = pre ++ [c] /\ is_digit c = true).
Proof.
  intros (t & rest & -> & Ht & Hrest).
  destruct (Token_shape t Ht) as (Ft & (c & post & -> & Hc) & (pre & c' & E & Hc')).
  destruct (Continuation_shape rest Hrest) as (Fr & Hr).
  split; [|split].
  - apply Forall_app. split; assumption.
  - exists c, (post ++ rest). split; [reflexivity | exact Hc].
  - destruct Hr as [->|(pre' & c'' & -> & Hc'')].
    + rewrite app_nil_r. eauto.
    + exists ((c :: post) ++ pre'), c''. split; [|exact Hc''].
      rewrite <- app_assoc. reflexivity.
Qed.

Lemma Forall_unstrip (P : code_unit -> Prop) s :
  (forall c, is_space c = true -> P c) ->
  Forall P (strip_spaces s) -> Forall P s.
Proof.
  intros Hsp. induction s as [|c s IH]; [constructor|].
  unfold strip_spaces. cbn. fold (strip_spaces s).
  destruct (is_space c) eqn:Hc; cbn.
  - intros H. constructor; auto.
  - inversion 1; subst. constructor; auto.
Qed.

End FormFacts.

(** X1: a string that [validatePageRange] accepts holds only digits,
    hyphens, commas and white space, and, white space apart, begins and ends
    with a digit; so the empty string, a string of white space, a string
    with a letter, and a string that ends in a hyphen or a comma are all
    refused. *)
Theorem accepted_range_shape (s : jsstring) :
  validatePageRange s = true ->
  Forall (fun c => range_char c = true) s
  /\ (exists c post, strip_spaces s = c :: post /\ is_digit c = true)
  /\ (exists pre c, strip_spaces s = pre ++ [c] /\ is_digit c = true).
Proof.
  intros H%validatePageRange_spec%PageRangeGrammar_shape.
  destruct H as (Hall & Hhead & Hlast). split; [|auto].
  apply Forall_unstrip; [|exact Hall].
  intros c Hc. unfold range_char. rewrite Hc. apply orb_true_r.
Qed.

Lemma accepted_range_shape_witness :
  exists c post, strip_spaces (js "1 - 5, 8") = c :: post /\ is_digit c = true.
Proof.
  destruct (accepted_range_shape (js "1 - 5, 8")) as (_ & H & _).
  - reflexivity.
  - exact H.
Defined.

(** X2: the page range that [getPrintSettings] returns is never the empty
    string and never has white space at its ends: it is the trimmed input
    of the range field, or ["odd"], or ["even"]. *)
Theorem page_range_setting_trimmed (pageRangeType pageRangeInput s : jsstring) :
  getPrintSettings_page_range pageRangeType pageRangeInput = Some s ->
  s <> [] /\ trim s = s
  /\ ((pageRangeType = js "range" /\ s = trim pageRangeInput)
      \/ (pageRangeType = js "odd" /\ s = js "odd")
      \/ (pageRangeType = js "even" /\ s = js "even")).
Proof.
  unfold getPrintSettings_page_range.
  destruct (jsstring_eqb pageRangeType (js "range")) eqn:Hr; simpl.
  - apply jsstring_eqb_eq in Hr.
    destruct (truthy (trim pageRangeInput)) eqn:Ht.
    + intros [= <-]. apply truthy_nonempty in Ht.
      split; [exact Ht|]. split; [apply trim_idem | auto].
    + subst pageRangeType. simpl. discriminate.
  - destruct (jsstring_eqb pageRangeType (js "odd")) eqn:Ho.
    + apply jsstring_eqb_eq in Ho. intros [= <-].
      split; [discriminate|]. split; [reflexivity | auto].
    + destruct (jsstring_eqb pageRangeType (js "even")) eqn:He; [|discriminate].
      apply jsstring_eqb_eq in He. intros [= <-].
      split; [discriminate|]. split; [reflexivity | auto].
Qed.

Lemma page_range_setting_trimmed_witness :
  trim (js "1-5, 8") = js "1-5, 8".
Proof.
  destruct (page_range_setting_trimmed (js "range") (js "  1-5, 8 ") (js "1-5, 8"))
    as (_ & H & _).
  - reflexivity.
  - exact H.
Defined.

(** X3: with the settings that [getPrintSettings] builds, the page-range
    check of [printDocument] lets the submission pass exactly when the range
    type is not ["range"], or the trimmed range field is empty, is ["odd"]
    or ["even"], or is in the grammar; so white space around the range is
    tolerated and white space inside a token is not. *)
Theorem printDocument_gate_on_settings (pageRangeType pageRangeInput : jsstring) :
  printDocument_gate (getPrintSettings_page_range pageRangeType pageRangeInput)
    = Proceeds
  <-> pageRangeType <> js "range"
      \/ trim pageRangeInput = []
      \/ trim pageRangeInput = js "odd"
      \/ trim pageRangeInput = js "even"
      \/ PageRangeGrammar (trim pageRangeInput).
Proof.
  unfold getPrintSettings_page_range.
  destruct (jsstring_eqb pageRangeType (js "range")) eqn:Hr; simpl.
  - apply jsstring_eqb_eq in Hr.
    destruct (truthy (trim pageRangeInput)) eqn:Ht.
    + rewrite printDocument_gate_spec. tauto.
    + subst pageRangeType. simpl.
      destruct (trim pageRangeInput); [|discriminate]. tauto.
  - assert (pageRangeType <> js "range") as Hne
      by (intros E%jsstring_eqb_eq; congruence).
    destruct (jsstring_eqb pageRangeType (js "odd")); [simpl; tauto|].
    destruct (jsstring_eqb pageRangeType (js "even")); simpl; tauto.
Qed.

(** X4: a range field that the check of [printDocument] accepts as an
    explicit range is also accepted by [validatePageRange] of web/app.js:
    the validator of the control panel is the more lenient of the two. *)
Theorem dashboard_range_accepted_by_panel (pageRangeInput : jsstring) :
  PageRangeGrammar (trim pageRangeInput) ->
  validatePageRange pageRangeInput = true
  /\ submitPrintJob_gate (js "range") pageRangeInput = Proceeds.
Proof.
  intros Hg.
  assert (validatePageRange pageRangeInput = true) as Hv.
  { apply validatePageRange_spec. rewrite <- strip_trim.
    apply PageRangeGrammar_strip, Hg. }
  split; [exact Hv|]. apply submitPrintJob_gate_spec. auto.
Qed.

Lemma dashboard_range_accepted_by_panel_witness :
  validatePageRange (js " 1-5, 8 ") = true.
Proof.
  apply (dashboard_range_accepted_by_panel (js " 1-5, 8 ")).
  apply pageRangePattern_grammar, regex_test_Lang. reflexivity.
Defined.

Lemma posted_file_id f :
  formData_get (js "file_id") (submitPrintJob_formData f)
  = Some (or_default (currentFileId f) []).
Proof. reflexivity. Qed.

Lemma posted_page_range f :
  formData_get (js "page_range") (submitPrintJob_formData f)
  = if jsstring_eqb (pageRangeType f) (js "range") && truthy (pageRange f)
    then Some (pageRange f) else None.
Proof.
  unfold submitPrintJob_formData.
  destruct (jsstring_eqb (fitToPage f) (js "custom")),
           (jsstring_eqb (pageRangeType f) (js "range") && truthy (pageRange f));
    reflexivity.
Qed.

Lemma posted_custom_scale f :
  formData_get (js "custom_scale") (submitPrintJob_formData f)
  = if jsstring_eqb (fitToPage f) (js "custom")
    then Some (customScale f) else None.
Proof.
  unfold submitPrintJob_formData.
  destruct (jsstring_eqb (fitToPage f) (js "custom")),
           (jsstring_eqb (pageRangeType f) (js "range") && truthy (pageRange f));
    reflexivity.
Qed.

(** X5: when [submitPrintJob] of web/app.js posts the form, a file id and a
    printer are set; the form carries a [page_range] only for the range type
    ["range"] with a non-empty field that [validatePageRange] accepts, and
    then it carries the field as typed, white space included; it carries a
    [custom_scale] exactly when the fit mode is ["custom"]. *)
Theorem submitPrintJob_posted_form (f : PrintForm)
    (formData : list (jsstring * jsstring)) :
  submitPrintJob f = Posted formData ->
  (exists fileId, currentFileId f = Some fileId /\ fileId <> []
                  /\ formData_get (js "file_id") formData = Some fileId)
  /\ printerSelect f <> []
  /\ (forall v, formData_get (js "page_range") formData = Some v ->
        pageRangeType f = js "range" /\ v = pageRange f /\ v <> []
        /\ validatePageRange v = true)
  /\ (pageRangeType f = js "range" -> pageRange f <> [] ->
      formData_get (js "page_range") formData = Some (pageRange f))
  /\ formData_get (js "custom_scale") formData
     = (if jsstring_eqb (fitToPage f) (js "custom")
        then Some (customScale f) else None).
Proof.
  unfold submitPrintJob.
  destruct (truthy (or_default (currentFileId f) [])) eqn:Hfile;
    [|discriminate].
  destruct (truthy (printerSelect f)) eqn:Hprinter; [|discriminate].
  destruct (submitPrintJob_gate (pageRangeType f) (pageRange f)) eqn:Hgate;
    [discriminate|].
  cbn [negb]. intros [= <-].
  rewrite posted_file_id, posted_page_range, posted_custom_scale.
  split.
  { unfold or_default in *. destruct (currentFileId f) as [i|]; [|discriminate].
    destruct i as [|c i]; [discriminate|]. exists (c :: i).
    split; [reflexivity|]. split; [discriminate | reflexivity]. }
  split; [apply truthy_nonempty, Hprinter|].
  split; [|split; [|reflexivity]].
  - intros v.
    destruct (jsstring_eqb (pageRangeType f) (js "range")) eqn:Hrange;
      [|discriminate].
    destruct (truthy (pageRange f)) eqn:Htruthy; [|discriminate].
    cbn [andb]. intros [= <-].
    apply jsstring_eqb_eq in Hrange. apply truthy_nonempty in Htruthy.
    rewrite Hrange in Hgate. apply submitPrintJob_gate_spec in Hgate.
    destruct Hgate; [contradiction | auto].
  - intros Hrange%jsstring_eqb_eq Htruthy%truthy_nonempty.
    rewrite Hrange, Htruthy. reflexivity.
Qed.

Lemma submitPrintJob_posted_form_witness :
  let f := mkPrintForm (Some (js "f1")) (js "EPSON L120") (js "1") (js "color")
             (js "A4") (js "portrait") (js "normal") (js "none") (js "fit")
             (js "100") (js "range") (js "1 - 5") (js "20") (js "20")
             (js "20") (js "20") true true in
  exists formData,
    submitPrintJob f = Posted formData
    /\ formData_get (js "page_range") formData = Some (js "1 - 5").
Proof.
  intros f.
  assert (exists formData, submitPrintJob f = Posted formData)
    as (formData & Hposted) by (eexists; reflexivity).
  exists formData. split; [exact Hposted|].
  destruct (submitPrintJob_posted_form f formData Hposted)
    as (_ & _ & _ & Hraw & _).
  apply Hraw; [reflexivity | discriminate].
Defined.

(* ===================================================================== *)
(** ** The fall-back keywords of the configuration page *)
(* ===================================================================== *)

Section KeywordFacts.

Implicit Types (s t k : jsstring) (c : code_unit) (ks : list jsstring).




(** The pieces of a split hold no comma; a property of the other code units
    of the string holds in every piece. *)
Lemma split_comma_pieces (P : code_unit -> Prop) s :
  Forall (fun c => is_comma c = true \/ P c) s ->
  Forall (Forall (fun c => is_comma c = false /\ P c)) (split_comma s).
Proof.
  induction 1 as [|c s Hc _ IH]; [repeat constructor|].
  simpl. destruct (is_comma c) eqn:E.
  - constructor; [constructor | exact IH].
  - destruct Hc as [Hc|Hc]; [congruence|].
    destruct (split_comma s) as [|w ws]; [repeat constructor; auto|].
    inversion IH; subst. constructor; [constructor; auto | assumption].
Qed.

Lemma trimStart_Forall (P : code_unit -> Prop) s :
  Forall P s -> Forall P (trimStart s).
Proof.
  induction 1 as [|c s Hc Hs IH]; simpl; [constructor|].
  destruct (is_space c); [exact IH | constructor; assumption].
Qed.

Lemma trimEnd_Forall (P : code_unit -> Prop) s :
  Forall P s -> Forall P (trimEnd s).
Proof.
  induction 1 as [|c s Hc Hs IH]; simpl; [constructor|].
  destruct (trimEnd s).
  - destruct (is_space c); repeat constructor; assumption.
  - constructor; assumption.
Qed.

Lemma trim_Forall (P : code_unit -> Prop) s : Forall P s -> Forall P (trim s).
Proof. intros H. apply trimEnd_Forall, trimStart_Forall, H. Qed.

Lemma trim_spaces s : Forall (fun c => is_space c = true) s -> trim s = [].
Proof.
  intros H. unfold trim.
  assert (trimStart s = []) as ->; [|reflexivity].
  induction H as [|c s Hc _ IH]; simpl; [reflexivity|]. rewrite Hc. exact IH.
Qed.


Lemma parse_keywords_In v k :
  In k (parse_keywords v) <->
  k <> [] /\ exists w, In w (split_comma v) /\ k = trim w.
Proof.
  unfold parse_keywords. rewrite List.filter_In, List.in_map_iff.
  rewrite Nat.ltb_lt. split.
  - intros [(w & <- & Hw) Hlen]. split; [|eauto].
    intros E. rewrite E in Hlen. simpl in Hlen. lia.
  - intros [Hne (w & Hw & ->)]. split; [eauto|].
    destruct (trim w); [congruence | simpl; lia].
Qed.


Lemma parse_keywords_clean v k : In k (parse_keywords v) -> clean_keyword k.
Proof.
  intros (Hne & w & Hw & ->)%parse_keywords_In.
  split; [exact Hne|]. split; [apply trim_idem|].
  apply trim_Forall.
  pose proof (split_comma_pieces (fun _ => True) v) as Hp.
  assert (Forall (fun c => is_comma c = true \/ True) v) as Hall
    by (apply Forall_forall; auto).
  specialize (Hp Hall). rewrite Forall_forall in Hp.
  apply list_elem_of_In in Hw. specialize (Hp w Hw).
  eapply Forall_impl; [exact Hp|]. intros c [Hc _]. exact Hc.
Qed.

End KeywordFacts.

(** X6: every keyword that [handleConfigUpdate] sends is non-empty, holds
    no comma and has no white space at its ends; a field of commas and white
    space alone gives no keyword at all. *)
Theorem parsed_keywords_clean (value : jsstring) :
  (forall k, In k (parse_keywords value) -> clean_keyword k)
  /\ (Forall (fun c => is_comma c = true \/ is_space c = true) value ->
      parse_keywords value = []).
Proof.
  split; [apply parse_keywords_clean|].
  - intros Hall.
    destruct (parse_keywords value) as [|k ks] eqn:E; [reflexivity|].
    assert (In k (parse_keywords value)) as Hin by (rewrite E; left; reflexivity).
    apply parse_keywords_In in Hin as (Hne & w & Hw & ->).
    pose proof (split_comma_pieces _ value Hall) as Hp.
    rewrite Forall_forall in Hp.
    apply list_elem_of_In in Hw. specialize (Hp w Hw).
    exfalso. apply Hne. apply trim_spaces.
    eapply Forall_impl; [exact Hp|]. intros c [_ Hc]. exact Hc.
Qed.

Lemma parsed_keywords_clean_witness : parse_keywords (js " , ,, ") = [].
Proof.
  destruct (parsed_keywords_clean (js " , ,, ")) as (_ & H).
  apply H.
  repeat (apply List.Forall_cons;
          [first [left; reflexivity | right; reflexivity]|]).
  apply List.Forall_nil.
Defined.



(* ===================================================================== *)
(** ** Paging and up-time of the control panel *)
(* ===================================================================== *)

Section PanelFacts.

Local Open Scope Z_scope.

Lemma page_numbers_In cur total n :
  In n (page_numbers cur total)
  <-> 1 <= n <= total /\ cur - 2 <= n <= cur + 2.
Proof.
  unfold page_numbers. rewrite List.in_map_iff. split.
  - intros (k & <- & Hk%List.in_seq). lia.
  - intros H. exists (Z.to_nat (n - Z.max 1 (cur - 2))). split; [lia|].
    apply List.in_seq. lia.
Qed.

Lemma page_numbers_length cur total :
  (length (page_numbers cur total) <= 5)%nat.
Proof. unfold page_numbers. rewrite List.length_map, List.length_seq. lia. Qed.

Lemma changePage_ge page cur : 1 <= cur -> 1 <= changePage page cur.
Proof.
  intros H. unfold changePage. destruct (Z.ltb_spec page 1); lia.
Qed.

Lemma click_pages_ge clicks : forall cur, 1 <= cur -> 1 <= click_pages cur clicks.
Proof.
  unfold click_pages. induction clicks as [|page clicks IH]; intros cur H; simpl.
  - exact H.
  - apply IH, changePage_ge, H.
Qed.

Lemma Qtruncate_nonneg (x : Q) : (0 <= x)%Q -> Qtruncate x = Qfloor x.
Proof.
  intros H. unfold Qtruncate. apply Qle_bool_iff in H. rewrite H. reflexivity.
Qed.

Lemma Qfloor_bounds (x : Q) :
  (inject_Z (Qfloor x) <= x)%Q /\ (x < inject_Z (Qfloor x) + 1)%Q.
Proof.
  split; [apply Qfloor_le|].
  pose proof (Qlt_floor x) as H. rewrite inject_Z_plus in H. exact H.
Qed.

End PanelFacts.

(** X8: the numbered links that [updatePagination] draws are exactly the
    pages between 1 and the page total that are at most two away from the
    current page, so at most five of them; the current page is among them
    whenever it is an existing page; and the only link marked active is the
    one of the current page. *)
Theorem pagination_window (currentPage totalPages : Z) :
  (forall n, In n (page_numbers currentPage totalPages)
             <-> (1 <= n <= totalPages
                  /\ currentPage - 2 <= n <= currentPage + 2)%Z)
  /\ length (page_numbers currentPage totalPages) <= 5
  /\ length (updatePagination currentPage totalPages) <= 7
  /\ (forall item, In item (updatePagination currentPage totalPages) ->
        item_class item = js "active" -> item_target item = currentPage).
Proof.
  split; [intros n; apply page_numbers_In|].
  split; [apply page_numbers_length|]. split.
  - unfold updatePagination.
    rewrite !length_app, List.length_map. simpl.
    pose proof (page_numbers_length currentPage totalPages). lia.
  - intros item. unfold updatePagination.
    rewrite !List.in_app_iff, List.in_map_iff. simpl.
    intros [[<-|[]]|[(i & <- & _)|[<-|[]]]]; simpl.
    + destruct (currentPage =? 1)%Z; discriminate.
    + destruct (Z.eqb_spec i currentPage); [auto | discriminate].
    + destruct (currentPage =? totalPages)%Z; discriminate.
Qed.

(** X9: [changePage] never takes the current page below 1, whatever is
    clicked: the previous link of page 1 does nothing. It has no upper
    bound: the next link is always drawn, and clicking it on the last page,
    where it is only styled as disabled, moves past the last page. *)
Theorem changePage_bounds :
  (forall currentPage clicks,
     (1 <= currentPage)%Z -> (1 <= click_pages currentPage clicks)%Z)
  /\ changePage (1 - 1) 1 = 1%Z
  /\ (forall totalPages,
        (1 <= totalPages)%Z ->
        In (mkPageItem (js "disabled") (totalPages + 1))
           (updatePagination totalPages totalPages)
        /\ changePage (totalPages + 1) totalPages = (totalPages + 1)%Z).
Proof.
  split; [intros cur clicks; apply click_pages_ge|].
  split; [reflexivity|].
  intros total Htotal. split.
  - unfold updatePagination. rewrite !List.in_app_iff. right. right.
    rewrite Z.eqb_refl. left. reflexivity.
  - unfold changePage. destruct (Z.ltb_spec (total + 1) 1); [lia | reflexivity].
Qed.

Lemma changePage_bounds_witness :
  (1 <= click_pages 3 [2; 0; -4; 1; 0]%Z)%Z.
Proof.
  destruct changePage_bounds as (H & _). apply H. lia.
Defined.

(** X10: for a non-negative number of seconds, the minutes that
    [formatUptime] prints are between 0 and 59, the hours are not negative,
    and hours and minutes are the up-time rounded down to the minute. *)
Theorem formatUptime_rounds_down (seconds : Q) :
  (0 <= seconds)%Q ->
  (0 <= uptime_hours seconds)%Z
  /\ (0 <= uptime_minutes seconds < 60)%Z
  /\ (3600 * inject_Z (uptime_hours seconds)
      + 60 * inject_Z (uptime_minutes seconds) <= seconds)%Q
  /\ (seconds < 3600 * inject_Z (uptime_hours seconds)
                + 60 * inject_Z (uptime_minutes seconds) + 60)%Q.
Proof.
  intros Hs. unfold uptime_hours, uptime_minutes, js_rem.
  assert (3600 * (seconds / 3600) == seconds)%Q as Eq
    by (apply Qmult_div_r; discriminate).
  set (q := (seconds / 3600)%Q) in *.
  assert (0 <= q)%Q as Hq by lra.
  rewrite (Qtruncate_nonneg _ Hq).
  set (h := Qfloor q).
  destruct (Qfloor_bounds q) as (Hh1 & Hh2). fold h in Hh1, Hh2.
  set (r := (seconds - 3600 * inject_Z h)%Q).
  assert (0 <= r /\ r < 3600)%Q as (Hr1 & Hr2) by (subst r; split; lra).
  assert (60 * (r / 60) == r)%Q as Er by (apply Qmult_div_r; discriminate).
  set (p := (r / 60)%Q) in *.
  set (m := Qfloor p).
  destruct (Qfloor_bounds p) as (Hm1 & Hm2). fold m in Hm1, Hm2.
  assert (0 <= h)%Z as Hh0.
  { change 0%Z with (Qfloor 0). apply Qfloor_resp_le, Hq. }
  assert (0 <= m)%Z as Hm0.
  { change 0%Z with (Qfloor 0). apply Qfloor_resp_le. lra. }
  assert (m < 60)%Z as Hm60.
  { rewrite Zlt_Qlt. change (inject_Z 60) with 60%Q. lra. }
  split; [exact Hh0|]. split; [lia|].
  subst r. split; lra.
Qed.

Lemma formatUptime_rounds_down_witness :
  (0 <= uptime_minutes 7384 < 60)%Z.
Proof.
  destruct (formatUptime_rounds_down 7384) as (_ & H & _).
  - unfold Qle. simpl. lia.
  - exact H.
Defined.

(* ===================================================================== *)
(** ** Where a job is: queue and history *)
(* ===================================================================== *)

Section PlaceFacts.

Implicit Types (d : Dashboard) (job : Job) (r jobId i : nat).

Lemma findIndex_Some {A} (p : A -> bool) (l : list A) i :
  findIndex p l = Some i -> exists x, l !! i = Some x /\ p x = true.
Proof.
  revert i. induction l as [|x l IH]; intros i; simpl; [discriminate|].
  destruct (p x) eqn:Hx.
  - intros [= <-]. eauto.
  - destruct (findIndex p l) as [j|]; [|discriminate].
    intros [= <-]. apply (IH j eq_refl).
Qed.

Lemma findIndex_None {A} (p : A -> bool) (l : list A) x :
  findIndex p l = None -> x ∈ l -> p x = false.
Proof.
  induction l as [|y l IH]; simpl; [intros _ H; inversion H|].
  destruct (p y) eqn:Hy; [discriminate|].
  destruct (findIndex p l); [discriminate|].
  intros _ [->|H]%elem_of_cons; auto.
Qed.

(** Job objects are stored under their ids. *)
Lemma wf_ids d :
  wf d -> forall r job, store d !! r = Some job -> job_id job = r.
Proof. intros (Hstore & _) r job H. apply (Hstore _ _ H). Qed.

(** With job objects stored under their ids, the index that [findIndex]
    returns for an id is the place of that very reference in the queue. *)
Lemma findIndex_id d jobId i :
  (forall r job, store d !! r = Some job -> job_id job = r) ->
  findIndex (has_id d jobId) (jobQueue d) = Some i ->
  jobQueue d !! i = Some jobId /\ is_Some (store d !! jobId).
Proof.
  intros Hids (r & Hr & Hid)%findIndex_Some.
  unfold has_id in Hid. destruct (store d !! r) as [job|] eqn:Hjob;
    [|discriminate].
  apply Nat.eqb_eq in Hid. rewrite (Hids _ _ Hjob) in Hid. subst r.
  split; [exact Hr | eauto].
Qed.

Lemma findIndex_queued d r job :
  store d !! r = Some job -> job_id job = r -> r ∈ jobQueue d ->
  is_Some (findIndex (has_id d r) (jobQueue d)).
Proof.
  intros Hjob Hid Hin.
  destruct (findIndex (has_id d r) (jobQueue d)) as [i|] eqn:E; [eauto|].
  pose proof (findIndex_None _ _ r E Hin) as Hno.
  unfold has_id in Hno. rewrite Hjob, Hid, Nat.eqb_refl in Hno. discriminate.
Qed.

Lemma with_queue_same d : with_queue (jobQueue d) d = d.
Proof. destruct d; reflexivity. Qed.

Lemma updateJobInQueue_ids d r :
  (forall r job, store d !! r = Some job -> job_id job = r) ->
  updateJobInQueue r d = d.
Proof.
  intros Hids. unfold updateJobInQueue.
  destruct (store d !! r) as [job|] eqn:Hjob; [|reflexivity].
  destruct (findIndex _ _) as [i|] eqn:E; [|reflexivity].
  apply (findIndex_id d _ i Hids) in E as (Hi & _).
  rewrite (Hids _ _ Hjob) in Hi.
  rewrite (list_insert_id _ _ _ Hi). apply with_queue_same.
Qed.

Lemma removeJobFromQueue_absent now jobId d :
  (forall r job, store d !! r = Some job -> job_id job = r) ->
  jobId ∉ jobQueue d -> removeJobFromQueue now jobId d = d.
Proof.
  intros Hids Hout. unfold removeJobFromQueue.
  destruct (findIndex _ _) as [i|] eqn:E; [|reflexivity].
  apply (findIndex_id d _ i Hids) in E as (Hi & _).
  exfalso. apply Hout. apply list_elem_of_lookup. eauto.
Qed.

Lemma removeJobFromQueue_present now d r job :
  (forall r job, store d !! r = Some job -> job_id job = r) ->
  r ∈ jobQueue d -> store d !! r = Some job ->
  exists i, jobQueue d !! i = Some r
    /\ removeJobFromQueue now r d
       = addJobToHistory now job (with_queue (delete i (jobQueue d)) d).
Proof.
  intros Hids Hin Hjob. unfold removeJobFromQueue.
  destruct (findIndex_queued d r job Hjob (Hids _ _ Hjob) Hin) as (i & E).
  rewrite E. apply (findIndex_id d _ i Hids) in E as (Hi & _).
  exists i. split; [exact Hi|]. rewrite Hi. simpl. rewrite Hjob. reflexivity.
Qed.

Lemma NoDup_delete_out (l : list nat) i x :
  NoDup l -> l !! i = Some x -> x ∉ delete i l.
Proof.
  intros Hnd Hi. rewrite delete_take_drop.
  rewrite <- (take_drop_middle l i x Hi) in Hnd.
  apply NoDup_app in Hnd as (_ & Hdisj & Htail).
  apply NoDup_cons in Htail as (Hx & _).
  intros [H|H]%elem_of_app; [|contradiction].
  apply (Hdisj x H). left.
Qed.

Lemma elem_of_delete_other (l : list nat) i x y :
  l !! i = Some x -> y <> x -> y ∈ l -> y ∈ delete i l.
Proof.
  intros Hi Hne Hy. rewrite delete_take_drop.
  rewrite <- (take_drop_middle l i x Hi) in Hy.
  apply elem_of_app in Hy as [H|H]; apply elem_of_app; [auto|].
  apply elem_of_cons in H as [->|H]; [contradiction | auto].
Qed.

Lemma history_ids_add now job d :
  history_ids (addJobToHistory now job d)
  = take 20 (job_id job :: history_ids d).
Proof.
  unfold history_ids. rewrite addJobToHistory_history.
  destruct (Nat.ltb_spec 20 (length (mkEntry job now :: jobHistory d)))
    as [_|Hle].
  - rewrite fmap_take. reflexivity.
  - rewrite take_ge; [reflexivity|].
    simpl in *. rewrite length_fmap. exact Hle.
Qed.

Lemma addJobToHistory_take now job d :
  jobHistory (addJobToHistory now job d)
  = take 20 (mkEntry job now :: jobHistory d).
Proof.
  rewrite addJobToHistory_history.
  destruct (Nat.ltb_spec 20 (length (mkEntry job now :: jobHistory d)))
    as [_|Hle]; [reflexivity|].
  rewrite take_ge; [reflexivity | exact Hle].
Qed.

Lemma take_app_take {A} (n : nat) (l k : list A) :
  take n (l ++ take n k) = take n (l ++ k).
Proof.
  rewrite !take_app, take_take. f_equal. f_equal. lia.
Qed.

(** *** Clearing the queue *)

Lemma cancelled_entry_insert now (m : gmap nat Job) r job r' :
  m !! r = Some job ->
  cancelled_entry now (<[r := set_status Cancelled job]> m) r'
  = cancelled_entry now m r'.
Proof.
  intros Hjob. unfold cancelled_entry.
  destruct (decide (r = r')) as [<-|Hne].
  - rewrite lookup_insert_eq, Hjob. reflexivity.
  - rewrite lookup_insert_ne by exact Hne. reflexivity.
Qed.

Lemma omap_cancelled_cons now (m : gmap nat Job) r (q : list nat) :
  omap (cancelled_entry now m) (r :: q)
  = match m !! r with
    | Some job =>
        mkEntry (set_status Cancelled job) now :: omap (cancelled_entry now m) q
    | None => omap (cancelled_entry now m) q
    end.
Proof.
  change (omap (cancelled_entry now m) (r :: q))
    with (match cancelled_entry now m r with
          | Some e => e :: omap (cancelled_entry now m) q
          | None => omap (cancelled_entry now m) q
          end).
  unfold cancelled_entry at 1. destruct (m !! r); reflexivity.
Qed.

Lemma clearQueue_fold_history now (q : list nat) : forall d,
  let each := fun d r =>
    match store d !! r with
    | None => d
    | Some job =>
        addJobToHistory now (set_status Cancelled job)
          (with_store (<[r := set_status Cancelled job]> (store d)) d)
    end in
  length (jobHistory d) <= 20 ->
  jobHistory (fold_left each q d)
  = take 20 (reverse (omap (cancelled_entry now (store d)) q) ++ jobHistory d).
Proof.
  induction q as [|r q IH]; intros d each Hcap.
  - simpl. rewrite take_ge; [reflexivity | exact Hcap].
  - change (fold_left each (r :: q) d) with (fold_left each q (each d r)).
    subst each. cbn beta. rewrite omap_cancelled_cons.
    destruct (store d !! r) as [job|] eqn:Hjob; simpl.
    + rewrite IH by apply addJobToHistory_length.
      rewrite addJobToHistory_take. simpl store. simpl jobHistory.
      rewrite (list_omap_ext _ (cancelled_entry now (store d)) q q)
        by (apply Forall2_same_length_lookup_2; [reflexivity|];
            intros i x y Hx Hy; rewrite Hx in Hy; injection Hy as <-;
            apply cancelled_entry_insert; exact Hjob).
      rewrite take_app_take, reverse_cons, <- app_assoc. reflexivity.
    + apply IH, Hcap.
Qed.

Lemma clearQueue_fold_lookup now (q : list nat) : forall d r,
  let each := fun d r =>
    match store d !! r with
    | None => d
    | Some job =>
        addJobToHistory now (set_status Cancelled job)
          (with_store (<[r := set_status Cancelled job]> (store d)) d)
    end in
  store (fold_left each q d) !! r
  = if decide (r ∈ q) then set_status Cancelled <$> store d !! r
    else store d !! r.
Proof.
  induction q as [|r0 q IH]; intros d r each.
  - simpl. destruct (decide (r ∈ [])) as [H|_]; [inversion H | reflexivity].
  - change (fold_left each (r0 :: q) d) with (fold_left each q (each d r0)).
    rewrite IH. subst each. cbn beta.
    destruct (store d !! r0) as [job0|] eqn:H0; simpl.
    + destruct (decide (r0 = r)) as [->|Hne].
      * rewrite lookup_insert_eq, H0.
        repeat case_decide; try reflexivity; set_solver.
      * rewrite lookup_insert_ne by exact Hne.
        repeat case_decide; try reflexivity; set_solver.
    + repeat case_decide; try reflexivity; try set_solver.
      assert (r = r0) as -> by set_solver. rewrite H0. reflexivity.
Qed.

End PlaceFacts.

(** X11: [removeJobFromQueue] moves a job: in a well-formed dashboard whose
    queue holds no reference twice, the queued job with the id leaves the
    queue, the other queued jobs stay, a copy of the job with the current
    time becomes the first entry of the history, and no job object is
    written; for an id that is not queued nothing changes. *)
Theorem removeJobFromQueue_moves (now : N) (d : Dashboard) (r : nat) (job : Job) :
  wf d -> NoDup (jobQueue d) ->
  store d !! r = Some job ->
  let d' := removeJobFromQueue now r d in
  store d' = store d
  /\ (r ∈ jobQueue d ->
      (r ∉ jobQueue d')
      /\ (forall r', r' <> r -> r' ∈ jobQueue d -> r' ∈ jobQueue d')
      /\ length (jobQueue d') + 1 = length (jobQueue d)
      /\ head (jobHistory d') = Some (mkEntry job now))
  /\ (r ∉ jobQueue d -> d' = d).
Proof.
  intros Hwf Hnd Hjob d'. subst d'.
  split; [apply removeJobFromQueue_same_jobs|]. split.
  - intros Hin.
    destruct (removeJobFromQueue_present now d r job (wf_ids d Hwf) Hin Hjob)
      as (i & Hi & ->).
    rewrite addJobToHistory_queue. simpl jobQueue.
    split; [apply NoDup_delete_out; assumption|].
    split; [intros r' Hne Hr'; apply (elem_of_delete_other _ i r); assumption|].
    split.
    + rewrite length_delete by eauto.
      apply lookup_lt_Some in Hi. lia.
    + apply addJobToHistory_head.
  - apply removeJobFromQueue_absent, wf_ids, Hwf.
Qed.

Lemma removeJobFromQueue_moves_witness :
  head (jobHistory (removeJobFromQueue 7 1 (polled 8)))
  = Some (mkEntry (mkJob 1 report Completed 100 None) 7).
Proof.
  destruct (removeJobFromQueue_moves 7 (polled 8) 1
              (mkJob 1 report Completed 100 None))
    as (_ & H & _).
  - apply wf_polled.
  - vm_compute. repeat constructor. intros H. inversion H.
  - vm_compute. reflexivity.
  - apply H. apply list_elem_of_In. vm_compute. left. reflexivity.
Defined.

(** X12: in a well-formed dashboard [updateJobInQueue] changes nothing: the
    queue already holds the very object that the monitor and [cancelJob]
    write to. So [cancelJob] leaves the queue and the history as they are;
    the job leaves the queue only when the time-out fires. *)
Theorem queue_untouched_by_update (d : Dashboard) :
  wf d ->
  (forall r, updateJobInQueue r d = d)
  /\ (forall jobId,
        jobQueue (cancelJob jobId d) = jobQueue d
        /\ jobHistory (cancelJob jobId d) = jobHistory d).
Proof.
  intros Hwf. split.
  - intros r. apply updateJobInQueue_ids, wf_ids, Hwf.
  - intros jobId. unfold cancelJob.
    destruct (List.find _ _) as [r|]; [|auto].
    destruct (store d !! r) as [job|] eqn:Hjob; [|auto].
    rewrite updateJobInQueue_ids; [auto|].
    simpl. intros r' job'. destruct (decide (r = r')) as [<-|Hne].
    + rewrite lookup_insert_eq. intros [= <-]. simpl.
      apply (wf_ids d Hwf _ _ Hjob).
    + rewrite lookup_insert_ne by exact Hne. apply wf_ids, Hwf.
Qed.

Lemma queue_untouched_by_update_witness :
  jobQueue (cancelJob 1 (polled 2)) = jobQueue (polled 2).
Proof.
  destruct (queue_untouched_by_update (polled 2) (wf_polled 2)) as (_ & H).
  apply H.
Defined.

(** X13: [clearQueue] empties the queue, sets the status of every queued
    job to ['cancelled'] without touching its progress or any other job,
    and inserts a copy of each into the history, the last of the queue
    first, keeping the 20 most recent entries; it clears no interval, so
    the monitors stop only at their next tick. *)
Theorem clearQueue_effect (now : N) (d : Dashboard) :
  length (jobHistory d) <= 20 ->
  let d' := clearQueue now d in
  jobQueue d' = []
  /\ jobHistory d'
     = take 20 (reverse (omap (cancelled_entry now (store d)) (jobQueue d))
                ++ jobHistory d)
  /\ (forall r, r ∈ jobQueue d ->
                store d' !! r = set_status Cancelled <$> store d !! r)
  /\ (forall r, r ∉ jobQueue d -> store d' !! r = store d !! r)
  /\ intervals d' = intervals d.
Proof.
  intros Hcap d'. subst d'. unfold clearQueue.
  split; [reflexivity|]. split.
  { simpl jobHistory. apply clearQueue_fold_history, Hcap. }
  split; [|split].
  - intros r Hin. simpl store. rewrite clearQueue_fold_lookup.
    destruct (decide (r ∈ jobQueue d)); [reflexivity | contradiction].
  - intros r Hout. simpl store. rewrite clearQueue_fold_lookup.
    destruct (decide (r ∈ jobQueue d)); [contradiction | reflexivity].
  - simpl. apply clearQueue_fold_fields.
Qed.

Lemma clearQueue_effect_witness :
  jobHistory (clearQueue 9 (polled 2))
  = [mkEntry (mkJob 1 report Cancelled 30 None) 9].
Proof.
  destruct (clearQueue_effect 9 (polled 2)) as (_ & H & _).
  - vm_compute. lia.
  - rewrite H. vm_compute. reflexivity.
Defined.

(* ===================================================================== *)
(** ** Cancelling and the monitor *)
(* ===================================================================== *)

Section StopFacts.

Implicit Types (d : Dashboard) (job : Job) (r jobId : nat).

Lemma commit_stopped r job d :
  store d !! r = Some job ->
  commit r (mkFrame job true 0) d = clearInterval r d.
Proof.
  intros Hjob. unfold commit, clearInterval, with_timeouts, with_intervals,
    with_store. simpl. rewrite (insert_id _ _ _ Hjob), app_nil_r.
  reflexivity.
Qed.

(** The guard of the callback: a job that is already ['error'] or
    ['cancelled'] is not polled; the interval is cleared and the job is
    removed from the queue. *)
Lemma monitor_tick_stopped r now resp rnd d job :
  wf d -> r ∈ intervals d -> store d !! r = Some job ->
  stopped (job_status job) = true ->
  monitor_tick r now resp rnd d = removeJobFromQueue now r (clearInterval r d).
Proof.
  intros Hwf Hin Hjob Hs. unfold monitor_tick.
  rewrite bool_decide_eq_true_2 by exact Hin. rewrite Hjob.
  rewrite tick_frame_stopped by exact Hs.
  rewrite (commit_stopped r job d Hjob), (wf_ids d Hwf _ _ Hjob). reflexivity.
Qed.

Lemma cancelJob_queue jobId d :
  wf d ->
  jobQueue (cancelJob jobId d) = jobQueue d
  /\ jobHistory (cancelJob jobId d) = jobHistory d.
Proof.
  intros Hwf. unfold cancelJob.
  destruct (List.find _ _) as [r|]; [|auto].
  destruct (store d !! r) as [job|] eqn:Hjob; [|auto].
  rewrite updateJobInQueue_ids; [auto|].
  simpl. intros r' job'. destruct (decide (r = r')) as [<-|Hne].
  - rewrite lookup_insert_eq. intros [= <-]. simpl.
    apply (wf_ids d Hwf _ _ Hjob).
  - rewrite lookup_insert_ne by exact Hne. apply wf_ids, Hwf.
Qed.

End StopFacts.

(** X14: a tick of the monitor of a job that is already ['error'] or
    ['cancelled'] does not poll the printer and writes to no job object: it
    clears the interval and moves the job out of the queue, and when the
    job has left the queue before, queue and history stay as they are. *)
Theorem stopped_job_tick (d : Dashboard) (r : nat) (now : N)
    (resp : Response) (rnd : Q) (job : Job) :
  wf d -> r ∈ intervals d -> store d !! r = Some job ->
  stopped (job_status job) = true ->
  let d' := monitor_tick r now resp rnd d in
  d' = removeJobFromQueue now r (clearInterval r d)
  /\ store d' = store d
  /\ (r ∉ intervals d')
  /\ messages d' = messages d
  /\ (r ∉ jobQueue d ->
      jobQueue d' = jobQueue d /\ jobHistory d' = jobHistory d).
Proof.
  intros Hwf Hin Hjob Hs d'. subst d'.
  rewrite (monitor_tick_stopped r now resp rnd d job Hwf Hin Hjob Hs).
  destruct (removeJobFromQueue_same_jobs now r (clearInterval r d))
    as (Hst & _ & _ & Hi & Hm).
  split; [reflexivity|]. split; [exact Hst|].
  split; [rewrite Hi; simpl; set_solver|]. split; [exact Hm|].
  intros Hout. rewrite removeJobFromQueue_absent; [auto | | exact Hout].
  apply (wf_ids d Hwf).
Qed.

Lemma stopped_job_tick_witness :
  store (monitor_tick 1 5 (queued 3 4) 0 (cancelJob 1 (polled 2))) !! 1
  = Some (mkJob 1 report Cancelled 0 None).
Proof.
  destruct (stopped_job_tick (cancelJob 1 (polled 2)) 1 5%N (queued 3 4) 0%Q
              (mkJob 1 report Cancelled 0 None))
    as (_ & H & _).
  - apply wf_cancelJob, wf_polled.
  - apply (bool_decide_unpack _). vm_compute. exact I.
  - vm_compute. reflexivity.
  - reflexivity.
  - rewrite H. vm_compute. reflexivity.
Defined.




(* ===================================================================== *)
(** ** Every job is at one place *)
(* ===================================================================== *)

Section TidyFacts.

Implicit Types (d : Dashboard) (job : Job) (r jobId i : nat) (e : event).

Lemma NoDup_move (q1 q2 hids : list nat) r :
  NoDup ((q1 ++ r :: q2) ++ hids) ->
  NoDup ((q1 ++ q2) ++ take 20 (r :: hids)).
Proof.
  intros H.
  apply (sublist_NoDup _ ((q1 ++ q2) ++ r :: hids)).
  - rewrite <- Permutation_middle. rewrite <- Permutation_middle in H.
    exact H.
  - apply sublist_app; [reflexivity | apply sublist_take].
Qed.

Lemma elem_of_move (q1 q2 hids : list nat) r x :
  x ∈ (q1 ++ q2) ++ take 20 (r :: hids) -> x ∈ (q1 ++ r :: q2) ++ hids.
Proof.
  intros [[H|H]%elem_of_app|H]%elem_of_app.
  - set_solver.
  - set_solver.
  - apply elem_of_take in H as (i & Hi & _).
    apply list_elem_of_lookup_2 in Hi. set_solver.
Qed.

Lemma tidy_fields d d' :
  jobQueue d' = jobQueue d -> jobHistory d' = jobHistory d ->
  jobIdCounter d' = jobIdCounter d -> tidy d -> tidy d'.
Proof.
  unfold tidy, history_ids. intros -> -> ->. auto.
Qed.

Lemma tidy_move now d i r job :
  tidy d -> jobQueue d !! i = Some r -> job_id job = r ->
  tidy (addJobToHistory now job (with_queue (delete i (jobQueue d)) d)).
Proof.
  intros (Hnd & Hlt) Hi Hid. unfold tidy.
  rewrite history_ids_add, addJobToHistory_queue, Hid. simpl jobQueue.
  change (history_ids (with_queue (delete i (jobQueue d)) d))
    with (history_ids d).
  change (jobIdCounter (addJobToHistory now job
                          (with_queue (delete i (jobQueue d)) d)))
    with (jobIdCounter d).
  rewrite delete_take_drop.
  rewrite <- (take_drop_middle (jobQueue d) i r Hi) in Hnd, Hlt.
  split; [apply NoDup_move, Hnd|].
  intros x Hx. apply Hlt, elem_of_move, Hx.
Qed.

Lemma tidy_removeJobFromQueue now jobId d :
  (forall r job, store d !! r = Some job -> job_id job = r) ->
  tidy d -> tidy (removeJobFromQueue now jobId d).
Proof.
  intros Hids Ht. unfold removeJobFromQueue.
  destruct (findIndex _ _) as [i|] eqn:E; [|exact Ht].
  destruct (findIndex_id d jobId i Hids E) as (Hi & (job & Hjob)).
  rewrite Hi. simpl. rewrite Hjob.
  apply (tidy_move now d i jobId job);
    [exact Ht | exact Hi | apply (Hids _ _ Hjob)].
Qed.

Lemma commit_places r f d :
  jobQueue (commit r f d) = jobQueue d
  /\ jobHistory (commit r f d) = jobHistory d
  /\ jobIdCounter (commit r f d) = jobIdCounter d.
Proof. unfold commit. destruct (fr_cleared f); repeat split. Qed.

Lemma commit_ids r f d job :
  (forall r job, store d !! r = Some job -> job_id job = r) ->
  job_id (fr_job f) = r ->
  forall r' job', store (commit r f d) !! r' = Some job' -> job_id job' = r'.
Proof.
  intros Hids Hid r' job'.
  destruct (commit_fields r f d) as (-> & _).
  destruct (decide (r = r')) as [<-|Hne].
  - rewrite lookup_insert_eq. intros [= <-]. exact Hid.
  - rewrite lookup_insert_ne by exact Hne. apply Hids.
Qed.

Lemma insert_ids d r job job' :
  (forall r job, store d !! r = Some job -> job_id job = r) ->
  store d !! r = Some job -> job_id job' = job_id job ->
  forall r0 job0,
    <[r := job']> (store d) !! r0 = Some job0 -> job_id job0 = r0.
Proof.
  intros Hids Hjob Hid r0 job0. destruct (decide (r = r0)) as [<-|Hne].
  - rewrite lookup_insert_eq. intros [= <-]. rewrite Hid. apply (Hids _ _ Hjob).
  - rewrite lookup_insert_ne by exact Hne. apply Hids.
Qed.

Lemma tidy_monitor_tick r now resp rnd d :
  wf d -> tidy d -> tidy (monitor_tick r now resp rnd d).
Proof.
  intros Hwf Ht. unfold monitor_tick.
  destruct (bool_decide _); [|exact Ht].
  destruct (store d !! r) as [job|] eqn:Hjob; [|exact Ht].
  pose proof (tick_frame_id resp rnd job) as Hid.
  rewrite (wf_ids d Hwf _ _ Hjob) in Hid.
  destruct (tick_frame resp rnd job) as [fl f]. simpl in Hid.
  destruct (commit_places r f d) as (Hq & Hh & Hc).
  pose proof (commit_ids r f d job (wf_ids d Hwf) Hid) as Hids.
  assert (tidy (commit r f d)) as Ht' by (apply (tidy_fields d); assumption).
  destruct fl.
  - apply tidy_removeJobFromQueue; assumption.
  - rewrite updateJobInQueue_ids by exact Hids. exact Ht'.
Qed.

Lemma printResponse_places r o d :
  wf d ->
  jobQueue (printResponse r o d) = jobQueue d
  /\ jobHistory (printResponse r o d) = jobHistory d
  /\ jobIdCounter (printResponse r o d) = jobIdCounter d.
Proof.
  intros Hwf. unfold printResponse.
  destruct (bool_decide _); [|auto]. simpl store.
  destruct (store d !! r) as [job|] eqn:Hjob; [|auto].
  pose proof (wf_ids d Hwf) as Hids.
  destruct o as [|detail|message]; cbn zeta;
    match goal with |- context [updateJobInQueue r ?x] =>
      rewrite (updateJobInQueue_ids x r)
        by (apply (insert_ids d r job _ Hids Hjob); reflexivity)
    end; repeat split.
Qed.

Lemma cancelJob_places jobId d :
  wf d ->
  jobQueue (cancelJob jobId d) = jobQueue d
  /\ jobHistory (cancelJob jobId d) = jobHistory d
  /\ jobIdCounter (cancelJob jobId d) = jobIdCounter d.
Proof.
  intros Hwf. destruct (cancelJob_queue jobId d Hwf) as (Hq & Hh).
  split; [exact Hq|]. split; [exact Hh|].
  destruct (List.find (has_id d jobId) (jobQueue d)) as [r|] eqn:Hfind.
  - destruct (find_has_id _ _ _ Hfind) as (_ & job & Hjob & _).
    apply (cancelJob_found jobId d r job Hfind Hjob).
  - rewrite cancelJob_missing by exact Hfind. reflexivity.
Qed.

Lemma clearQueue_fold_tidy now (q : list nat) : forall d,
  let each := fun d r =>
    match store d !! r with
    | None => d
    | Some job =>
        addJobToHistory now (set_status Cancelled job)
          (with_store (<[r := set_status Cancelled job]> (store d)) d)
    end in
  (forall r job, store d !! r = Some job -> job_id job = r) ->
  NoDup (q ++ history_ids d) ->
  NoDup (history_ids (fold_left each q d))
  /\ forall x, x ∈ history_ids (fold_left each q d) -> x ∈ q ++ history_ids d.
Proof.
  induction q as [|r q IH]; intros d each Hids Hnd.
  - simpl in *. auto.
  - change (fold_left each (r :: q) d) with (fold_left each q (each d r)).
    subst each. cbn beta.
    destruct (store d !! r) as [job|] eqn:Hjob.
    + match goal with |- context [fold_left ?g q ?d1] =>
        destruct (IH d1) as (IH1 & IH2)
      end.
      * simpl. apply (insert_ids d r job); auto.
      * rewrite history_ids_add. simpl job_id.
        rewrite (Hids _ _ Hjob).
        change (history_ids (with_store _ d)) with (history_ids d).
        apply (NoDup_move [] q (history_ids d) r). exact Hnd.
      * split; [exact IH1|]. intros x Hx. apply IH2 in Hx.
        rewrite history_ids_add in Hx. simpl job_id in Hx.
        rewrite (Hids _ _ Hjob) in Hx.
        change (history_ids (with_store _ d)) with (history_ids d) in Hx.
        apply (elem_of_move [] q (history_ids d) r x Hx).
    + destruct (IH d Hids) as (IH1 & IH2).
      * simpl in Hnd. apply NoDup_cons in Hnd as (_ & Hnd). exact Hnd.
      * split; [exact IH1|]. intros x Hx. apply IH2 in Hx. set_solver.
Qed.

Lemma tidy_clearQueue now d : wf d -> tidy d -> tidy (clearQueue now d).
Proof.
  intros Hwf (Hnd & Hlt). unfold tidy, clearQueue.
  destruct (clearQueue_fold_tidy now (jobQueue d) d (wf_ids d Hwf) Hnd)
    as (H1 & H2).
  destruct (clearQueue_fold_fields now (jobQueue d) d) as (Hc & _).
  simpl jobQueue. simpl jobIdCounter. rewrite Hc.
  change (history_ids (showMessage ?m ?t (with_queue [] ?x)))
    with (history_ids x).
  split; [exact H1|]. intros x Hx. apply Hlt, H2, Hx.
Qed.

Lemma removeJobFromQueue_sublist now jobId d :
  jobQueue (removeJobFromQueue now jobId d) `sublist_of` jobQueue d
  /\ jobIdCounter (removeJobFromQueue now jobId d) = jobIdCounter d.
Proof.
  unfold removeJobFromQueue.
  destruct (findIndex _ _) as [i|]; [|split; reflexivity].
  destruct (_ ≫= _) as [job|]; [|split; reflexivity].
  rewrite addJobToHistory_queue. simpl. split; [|reflexivity].
  apply sublist_delete.
Qed.

Lemma distinct_queue_sub d d' :
  jobQueue d' `sublist_of` jobQueue d -> jobIdCounter d' = jobIdCounter d ->
  distinct_queue d -> distinct_queue d'.
Proof.
  intros Hsub Hc (Hnd & Hlt). split.
  - eapply sublist_NoDup; eassumption.
  - intros r Hr. rewrite Hc. apply Hlt.
    eapply elem_of_sublist; eassumption.
Qed.

Lemma distinct_queue_step d e :
  wf d -> distinct_queue d -> distinct_queue (step d e).
Proof.
  intros Hwf Ht.
  destruct e as [sel pr|r o|r now resp rnd|jobId|k now|now|]; cbn [step].
  - unfold printDocument. destruct sel as [name|]; [|exact Ht].
    destruct (printDocument_gate pr); [exact Ht|].
    destruct Ht as (Hnd & Hlt). unfold distinct_queue. simpl.
    split.
    + rewrite <- Permutation_cons_append. apply NoDup_cons. split; [|exact Hnd].
      intros Hin. apply Hlt in Hin. lia.
    + intros x [Hx|Hx]%elem_of_app.
      * apply Hlt in Hx. lia.
      * apply list_elem_of_singleton in Hx. lia.
  - destruct (printResponse_places r o d Hwf) as (Hq & Hh & Hc).
    apply (distinct_queue_sub d); [rewrite Hq; reflexivity | exact Hc | exact Ht].
  - unfold monitor_tick.
    destruct (bool_decide _); [|exact Ht].
    destruct (store d !! r) as [job|] eqn:Hjob; [|exact Ht].
    pose proof (tick_frame_id resp rnd job) as Hid.
    rewrite (wf_ids d Hwf _ _ Hjob) in Hid.
    destruct (tick_frame resp rnd job) as [fl f]. simpl in Hid.
    destruct (commit_places r f d) as (Hq & Hh & Hc).
    pose proof (commit_ids r f d job (wf_ids d Hwf) Hid) as Hids.
    destruct fl.
    + match goal with |- distinct_queue (removeJobFromQueue ?n ?j ?x) =>
        destruct (removeJobFromQueue_sublist n j x) as (Hs & Hc')
      end.
      apply (distinct_queue_sub d);
        [rewrite <- Hq; exact Hs | rewrite Hc'; exact Hc | exact Ht].
    + rewrite updateJobInQueue_ids by exact Hids.
      apply (distinct_queue_sub d); [rewrite Hq; reflexivity | exact Hc | exact Ht].
  - destruct (cancelJob_places jobId d Hwf) as (Hq & Hh & Hc).
    apply (distinct_queue_sub d); [rewrite Hq; reflexivity | exact Hc | exact Ht].
  - unfold timeout_fires. destruct (timeouts d !! k); [|exact Ht].
    match goal with |- distinct_queue (removeJobFromQueue ?n ?j ?x) =>
      destruct (removeJobFromQueue_sublist n j x) as (Hs & Hc)
    end.
    eapply distinct_queue_sub; [exact Hs | exact Hc |]. exact Ht.
  - destruct (clearQueue_fold_fields now (jobQueue d) d) as (Hc & _).
    split.
    + unfold clearQueue. simpl. constructor.
    + unfold clearQueue. simpl. intros x Hx. inversion Hx.
  - exact Ht.
Qed.

Lemma distinct_queue_run events :
  forall d, wf d -> distinct_queue d -> distinct_queue (run d events).
Proof.
  unfold run. induction events as [|e events IH]; intros d Hwf Ht; simpl.
  - exact Ht.
  - apply IH; [apply wf_step, Hwf | apply distinct_queue_step; assumption].
Qed.

Lemma wf_loadJobHistory saved : wf (loadJobHistory saved new_dashboard).
Proof.
  destruct saved as [history|]; [|apply wf_new].
  split; [|split]; simpl.
  - intros r job H. rewrite lookup_empty in H. discriminate.
  - set_solver.
  - set_solver.
Qed.

Lemma tidy_step d e : wf d -> tidy d -> tidy (step d e).
Proof.
  intros Hwf Ht.
  destruct e as [sel pr|r o|r now resp rnd|jobId|k now|now|]; cbn [step].
  - unfold printDocument. destruct sel as [name|]; [|exact Ht].
    destruct (printDocument_gate pr); [exact Ht|].
    destruct Ht as (Hnd & Hlt). unfold tidy, history_ids. simpl.
    fold (history_ids d).
    assert (jobIdCounter d ∉ jobQueue d ++ history_ids d) as Hfresh.
    { intros Hin. apply Hlt in Hin. lia. }
    split.
    + rewrite <- app_assoc. simpl. rewrite <- Permutation_middle.
      apply NoDup_cons. split; [exact Hfresh | exact Hnd].
    + intros x Hx.
      assert (x = jobIdCounter d \/ x ∈ jobQueue d ++ history_ids d) as [->|H]
        by set_solver; [lia|].
      apply Hlt in H. lia.
  - destruct (printResponse_places r o d Hwf) as (Hq & Hh & Hc).
    apply (tidy_fields d); assumption.
  - apply tidy_monitor_tick; assumption.
  - destruct (cancelJob_places jobId d Hwf) as (Hq & Hh & Hc).
    apply (tidy_fields d); assumption.
  - unfold timeout_fires. destruct (timeouts d !! k); [|exact Ht].
    apply tidy_removeJobFromQueue; [apply (wf_ids d Hwf) | exact Ht].
  - apply tidy_clearQueue; assumption.
  - destruct Ht as (Hnd & Hlt). unfold tidy, history_ids. simpl.
    rewrite app_nil_r. apply NoDup_app in Hnd as (Hq & _ & _).
    split; [exact Hq|]. intros x Hx. apply Hlt. set_solver.
Qed.

Lemma tidy_run events : forall d, wf d -> tidy d -> tidy (run d events).
Proof.
  unfold run. induction events as [|e events IH]; intros d Hwf Ht; simpl.
  - exact Ht.
  - apply IH; [apply wf_step, Hwf | apply tidy_step; assumption].
Qed.

End TidyFacts.

(** *** Sessions with waiting callbacks keep the invariants *)

Section SessionFacts.

Variable fl : Q -> Q.

Implicit Types (s : Session) (a : action).

Lemma distinct_queue_act s a :
  session_ok s -> distinct_queue (dash s) -> distinct_queue (dash (act fl s a)).
Proof.
  intros (Hwf & _) Hq.
  destruct a as [r now|i now resp rnd|sel pr|r o|jobId|k now|now|]; cbn [act].
  - destruct (decide (r ∈ intervals (dash s))) as [Hin|Hout].
    2: { rewrite fires_dead by exact Hout. exact Hq. }
    destruct (store (dash s) !! r) as [job|] eqn:Hjob.
    2: { unfold fires. rewrite Hjob. destruct (bool_decide _); exact Hq. }
    destruct (stopped (job_status job)) eqn:Hs.
    + rewrite (fires_stopped r now FetchThrows 0%Q s job Hin Hjob Hs).
      apply (distinct_queue_step (dash s) (Tick r now FetchThrows 0%Q) Hwf Hq).
    + rewrite (fires_polls r now s job Hin Hjob Hs). exact Hq.
  - unfold answers. destruct (inflight s !! i) as [r|]; [|exact Hq].
    cbn zeta. destruct (store (dash s) !! r) as [job|] eqn:Hjob; [|exact Hq].
    pose proof (resume_frame_id fl resp rnd job) as Hid.
    rewrite (wf_ids (dash s) Hwf _ _ Hjob) in Hid.
    destruct (Callback.resume_frame fl resp rnd job) as [flow f].
    simpl in Hid.
    destruct (commit_places r f (dash s)) as (Hcq & _ & Hcc).
    pose proof (commit_ids r f (dash s) job (wf_ids (dash s) Hwf) Hid) as Hids.
    destruct flow; cbn [dash].
    + match goal with |- distinct_queue (removeJobFromQueue ?n ?j ?x) =>
        destruct (removeJobFromQueue_sublist n j x) as (Hs & Hc')
      end.
      apply (distinct_queue_sub (dash s));
        [rewrite <- Hcq; exact Hs | rewrite Hc'; exact Hcc | exact Hq].
    + rewrite updateJobInQueue_ids by exact Hids.
      apply (distinct_queue_sub (dash s));
        [rewrite Hcq; reflexivity | exact Hcc | exact Hq].
  - apply (distinct_queue_step (dash s) (PrintDocument sel pr) Hwf Hq).
  - apply (distinct_queue_step (dash s) (PrintResponse r o) Hwf Hq).
  - apply (distinct_queue_step (dash s) (CancelJob jobId) Hwf Hq).
  - apply (distinct_queue_step (dash s) (TimeoutFires k now) Hwf Hq).
  - apply (distinct_queue_step (dash s) (ClearQueue now) Hwf Hq).
  - apply (distinct_queue_step (dash s) ClearHistory Hwf Hq).
Qed.

(** Every session that the dashboard reaches from its constructor is in
    order, and its queue holds no job twice. *)
Lemma session_reachable (saved : option (list HistoryEntry)) actions :
  let s := session_run fl (mkSession (loadJobHistory saved new_dashboard) [])
                       actions in
  session_ok s /\ NoDup (jobQueue (dash s)).
Proof.
  assert (forall actions s, session_ok s -> distinct_queue (dash s) ->
            session_ok (session_run fl s actions)
            /\ distinct_queue (dash (session_run fl s actions))) as Hrun.
  { unfold session_run. clear actions.
    induction actions as [|a actions IH]; intros s Hok Hq; simpl; [auto|].
    apply IH; [apply session_ok_act, Hok | apply distinct_queue_act; assumption]. }
  destruct (Hrun actions (mkSession (loadJobHistory saved new_dashboard) []))
    as (Hok & Hnd & _).
  - apply session_ok_start, wf_loadJobHistory.
  - destruct saved; split; simpl;
      first [apply NoDup_nil_2 | intros r H; inversion H].
  - split; assumption.
Qed.

End SessionFacts.

(** X17: whatever history the constructor loads from the local storage,
    the queue of the print dashboard never holds the same job twice. *)
Theorem queue_holds_distinct_jobs
    (saved : option (list HistoryEntry)) (events : list event) :
  NoDup (jobQueue (run (loadJobHistory saved new_dashboard) events)).
Proof.
  apply (distinct_queue_run events (loadJobHistory saved new_dashboard)).
  - apply wf_loadJobHistory.
  - destruct saved; split; simpl;
      first [apply NoDup_nil_2 | intros r H; inversion H].
Qed.

(** X18: when the local storage holds no saved history, every job is at one
    place only in every state the dashboard reaches: the history holds no job
    twice, and no job is in the queue and in the history at once. *)
Theorem job_in_one_place (events : list event) :
  NoDup (history_ids (run (loadJobHistory None new_dashboard) events))
  /\ forall r, r ∈ jobQueue (run (loadJobHistory None new_dashboard) events) ->
               r ∉ history_ids (run (loadJobHistory None new_dashboard) events).
Proof.
  assert (tidy (run (loadJobHistory None new_dashboard) events)) as (Hnd & _).
  { apply tidy_run; [apply wf_new|]. split; simpl.
    - constructor.
    - intros r H. inversion H. }
  apply NoDup_app in Hnd as (Hq & Hqh & Hh). auto.
Qed.

Section EndFacts.

Implicit Types (d : Dashboard) (job : Job) (r : nat).

Lemma simulate_frame_advances rnd job :
  stopped (job_status job) = false -> (0 <= rnd)%Q ->
  advances job (simulate_frame rnd job).2.
Proof.
  intros Hs Hrnd. unfold simulate_frame, ensure_cap. rewrite Hs. simpl.
  destruct (Qle_bool 100 _) eqn:E; simpl.
  - left. auto.
  - right. simpl. apply Qle_bool_false in E.
    repeat split; try assumption; try reflexivity; lra.
Qed.

Lemma tick_frame_advances fileName t job :
  stopped (job_status job) = false -> job_fileName job = fileName ->
  quiet fileName t ->
  advances job (tick_frame (snd (fst t)) (snd t) job).2.
Proof.
  destruct t as [[now resp] rnd]. simpl. intros Hs Hname (Hrnd & Hq).
  simpl in Hrnd, Hq. unfold tick_frame. rewrite Hs.
  destruct resp as [| |ps]; simpl.
  - unfold ensure_cap, simulated. simpl.
    destruct (Qle_bool 100 _) eqn:E; simpl; [left; auto|].
    right. simpl. apply Qle_bool_false in E.
    repeat split; try assumption; try reflexivity; lra.
  - unfold ensure_cap, simulated. simpl.
    destruct (Qle_bool 100 _) eqn:E; simpl; [left; auto|].
    right. simpl. apply Qle_bool_false in E.
    repeat split; try assumption; try reflexivity; lra.
  - destruct Hq as (Hf & Hcur). rewrite Hf.
    unfold queue_progress. simpl. rewrite (Hcur job Hname).
    destruct (Qltb (job_progress job) 95) eqn:E; simpl.
    + apply Qltb_true in E. unfold ensure_cap. simpl.
      destruct (Qle_bool 100 _) eqn:E2; simpl; [left; auto|].
      right. simpl. apply Qle_bool_false in E2. simpl in E2.
      repeat split; try assumption; try reflexivity; try lra.
      destruct (Q.min_spec 95 (job_progress job + 15)) as [(_ & Hm)|(_ & Hm)];
        rewrite Hm; [right | left]; lra.
    + left. unfold ensure_cap. simpl. auto.
Qed.

Lemma simulate_tick_dead r now rnd d :
  r ∉ intervals d -> simulate_tick r now rnd d = d.
Proof.
  intros H. unfold simulate_tick. rewrite bool_decide_eq_false_2 by exact H.
  reflexivity.
Qed.

Lemma simulate_tick_live r now rnd d job :
  r ∈ intervals d -> store d !! r = Some job ->
  let f := (simulate_frame rnd job).2 in
  let d' := simulate_tick r now rnd d in
  store d' = <[r := fr_job f]> (store d)
  /\ intervals d' = (if fr_cleared f then intervals d ∖ {[r]} else intervals d).
Proof.
  intros Hin Hjob. unfold simulate_tick.
  rewrite bool_decide_eq_true_2 by exact Hin. rewrite Hjob.
  destruct (simulate_frame rnd job) as [fl f]. simpl.
  destruct (commit_fields r f d) as (Cs & Cc & Ca & Ci & Cm).
  destruct fl.
  - destruct (removeJobFromQueue_same_jobs now (job_id job) (commit r f d))
      as (Hs & Hc & Ha & Hi & Hm).
    split; congruence.
  - destruct (updateJobInQueue_same_jobs r (commit r f d))
      as (Hs & Hc & Ha & Hi & Hm).
    split; congruence.
Qed.

Lemma Qlength_cons {A} (x : A) (l : list A) :
  (inject_Z (Z.of_nat (length (x :: l)))
   == inject_Z (Z.of_nat (length l)) + 1)%Q.
Proof.
  simpl length. rewrite Nat2Z.inj_succ, <- Z.add_1_r, inject_Z_plus.
  reflexivity.
Qed.

Lemma Qlength_nonneg {A} (l : list A) :
  (0 <= inject_Z (Z.of_nat (length l)))%Q.
Proof.
  change 0%Q with (inject_Z 0). rewrite <- Zle_Qle. lia.
Qed.

(** Firings that advance a running job complete it as soon as their number
    covers what is missing to 100 at 5 per firing. *)
Lemma advancing_ticks_complete {T : Type}
    (tick : T -> Dashboard -> Dashboard) (ok : Job -> T -> Prop) r :
  (forall t d, r ∉ intervals d -> tick t d = d) ->
  (forall t d job,
     r ∈ intervals d -> store d !! r = Some job ->
     stopped (job_status job) = false -> ok job t ->
     exists f,
       advances job f
       /\ (fr_cleared f = false -> forall t', ok job t' -> ok (fr_job f) t')
       /\ store (tick t d) !! r = Some (fr_job f)
       /\ (r ∈ intervals (tick t d) <-> fr_cleared f = false)) ->
  forall ticks d job,
    r ∈ intervals d -> store d !! r = Some job ->
    stopped (job_status job) = false ->
    Forall (ok job) ticks ->
    (job_progress job < 100)%Q ->
    (100 <= job_progress job + 5 * inject_Z (Z.of_nat (length ticks)))%Q ->
    done r (fold_left (fun d t => tick t d) ticks d).
Proof.
  intros Hdead Hlive.
  assert (forall ticks d, r ∉ intervals d ->
            fold_left (fun d t => tick t d) ticks d = d) as Hrest.
  { induction ticks as [|t ticks IH]; intros d Hd; simpl; [reflexivity|].
    rewrite (Hdead t d Hd). apply IH, Hd. }
  induction ticks as [|t ticks IH]; intros d job Hin Hjob Hs Hok Hlt Hlen.
  - change (inject_Z (Z.of_nat (@length T []))) with 0%Q in Hlen. lra.
  - apply Forall_cons in Hok as (Ht & Hok).
    destruct (Hlive t d job Hin Hjob Hs Ht) as (f & Hadv & Hmono & Hst & Hint).
    simpl fold_left.
    destruct Hadv as [(Hc & Hstat & Hp)
                     |(Hc & Hs' & _ & Hlt' & Hlow & Hup)].
    + rewrite Hrest by (rewrite Hint, Hc; discriminate).
      exists (fr_job f). repeat split; try assumption.
      rewrite Hint, Hc. discriminate.
    + apply (IH (tick t d) (fr_job f)); try assumption.
      * apply Hint, Hc.
      * eapply Forall_impl; [exact Hok|]. intros t'. apply Hmono, Hc.
      * rewrite Qlength_cons in Hlen.
        destruct ticks as [|t2 ticks];
          [change (inject_Z (Z.of_nat (@length T []))) with 0%Q in Hlen; lra|].
        pose proof (Qlength_nonneg ticks) as Hn.
        rewrite Qlength_cons in Hlen |- *.
        destruct Hup; lra.
Qed.

End EndFacts.

(** X19: in the first version of the dashboard, a job that is neither failed
    nor cancelled and whose simulator interval is live is completed, with the
    progress 100 and the interval cleared, once the simulator has fired often
    enough to cover what is missing to 100 at 5 per firing: 20 firings from
    the progress 0. *)
Theorem simulated_job_completes
    (r : nat) (ticks : list (N * Q)) (d : Dashboard) (job : Job) :
  r ∈ intervals d -> store d !! r = Some job ->
  stopped (job_status job) = false ->
  Forall (fun t => (0 <= snd t)%Q) ticks ->
  (job_progress job < 100)%Q ->
  (100 <= job_progress job + 5 * inject_Z (Z.of_nat (length ticks)))%Q ->
  done r (simulate_ticks r ticks d).
Proof.
  intros Hin Hjob Hs Hok Hlt Hlen. unfold simulate_ticks.
  apply (advancing_ticks_complete
           (fun t d => simulate_tick r (fst t) (snd t) d)
           (fun _ t => (0 <= snd t)%Q) r) with (job := job);
    try assumption.
  - intros t d0. apply simulate_tick_dead.
  - intros t d0 job0 Hin0 Hjob0 Hs0 Ht.
    exists (simulate_frame (snd t) job0).2.
    destruct (simulate_tick_live r (fst t) (snd t) d0 job0 Hin0 Hjob0)
      as (Hst & Hint).
    pose proof (simulate_frame_advances (snd t) job0 Hs0 Ht) as Hadv.
    split; [exact Hadv|]. split; [auto|]. split.
    + rewrite Hst. apply lookup_insert_eq.
    + rewrite Hint.
      destruct (fr_cleared (simulate_frame (snd t) job0).2); set_solver.
Qed.

Lemma simulated_job_completes_witness :
  done 1 (simulate_ticks 1 (repeat (0%N, 0%Q) 20) printing_dashboard).
Proof.
  apply (simulated_job_completes 1 (repeat (0%N, 0%Q) 20) printing_dashboard
           (mkJob 1 report Printing 0 None)).
  - apply (bool_decide_unpack _). vm_compute. exact I.
  - vm_compute. reflexivity.
  - reflexivity.
  - repeat (apply List.Forall_cons; [simpl; lra|]). apply List.Forall_nil.
  - simpl. lra.
  - vm_compute. intros H. discriminate H.
Defined.

(** X20: a job that is neither failed nor cancelled and whose monitor is
    live is completed, with the progress 100 and the interval cleared, once
    the monitor has fired often enough to cover what is missing to 100 at 5
    per firing, provided that no poll finds the document in the queue of the
    printer or reports a printer failure (an unreachable provider counts as
    such a poll). *)
Theorem unmatched_job_completes
    (r : nat) (ticks : list (N * Response * Q)) (d : Dashboard) (job : Job) :
  r ∈ intervals d -> store d !! r = Some job ->
  stopped (job_status job) = false ->
  Forall (quiet (job_fileName job)) ticks ->
  (job_progress job < 100)%Q ->
  (100 <= job_progress job + 5 * inject_Z (Z.of_nat (length ticks)))%Q ->
  done r (monitor_ticks r ticks d).
Proof.
  intros Hin Hjob Hs Hok Hlt Hlen. unfold monitor_ticks.
  apply (advancing_ticks_complete
           (fun t d => monitor_tick r (fst (fst t)) (snd (fst t)) (snd t) d)
           (fun job t => quiet (job_fileName job) t) r) with (job := job);
    try assumption.
  - intros t d0. apply monitor_tick_dead.
  - intros t d0 job0 Hin0 Hjob0 Hs0 Ht.
    exists (tick_frame (snd (fst t)) (snd t) job0).2.
    destruct (monitor_tick_live r (fst (fst t)) (snd (fst t)) (snd t)
                d0 job0 Hin0 Hjob0) as (Hst & _ & _ & Hint & _).
    pose proof (tick_frame_advances _ t job0 Hs0 eq_refl Ht) as Hadv.
    split; [exact Hadv|]. split; [|split].
    + intros Hc t' Ht'.
      destruct Hadv as [(Hc' & _)|(_ & _ & Hname & _)]; [congruence|].
      rewrite Hname. exact Ht'.
    + rewrite Hst. apply lookup_insert_eq.
    + rewrite Hint.
      destruct (fr_cleared (tick_frame (snd (fst t)) (snd t) job0).2);
        set_solver.
Qed.

Lemma unmatched_job_completes_witness :
  done 1 (monitor_ticks 1
            ((0%N, FetchThrows, 0%Q) :: repeat (0%N, printer_ready [], 0%Q) 19)
            printing_dashboard).
Proof.
  apply (unmatched_job_completes 1
           ((0%N, FetchThrows, 0%Q) :: repeat (0%N, printer_ready [], 0%Q) 19)
           printing_dashboard (mkJob 1 report Printing 0 None)).
  - apply (bool_decide_unpack _). vm_compute. exact I.
  - vm_compute. reflexivity.
  - reflexivity.
  - apply List.Forall_cons; [split; [simpl; lra | exact I]|].
    repeat (apply List.Forall_cons;
            [split; [simpl; lra | split; [reflexivity | intros; reflexivity]]|]).
    apply List.Forall_nil.
  - simpl. lra.
  - vm_compute. intros H. discriminate H.
Defined.

(** X21: in the settings that [getPrintSettings] returns, [split_pdf] is set
    exactly when a [split_page_range] goes with it, and that range is never
    blank: it is ["all"] or the trimmed, non-empty input of the split
    field. *)
Theorem split_setting_consistent (pdfSplit splitRange : jsstring) :
  let settings := getPrintSettings_split pdfSplit splitRange in
  (settings.1 = true <-> settings.2 <> None)
  /\ forall s, settings.2 = Some s ->
       s <> [] /\ trim s = s
       /\ ((pdfSplit = js "pages" /\ s = trim splitRange)
           \/ (pdfSplit = js "single" /\ s = js "all")).
Proof.
  unfold getPrintSettings_split.
  destruct (jsstring_eqb pdfSplit (js "pages")) eqn:Hp; simpl.
  - apply jsstring_eqb_eq in Hp.
    destruct (truthy (trim splitRange)) eqn:Ht; simpl.
    + split; [split; [discriminate | reflexivity]|].
      intros s [= <-]. apply truthy_nonempty in Ht.
      split; [exact Ht|]. split; [apply trim_idem | auto].
    + subst pdfSplit. simpl.
      split; [split; [discriminate | intros H; contradiction H; reflexivity]|].
      discriminate.
  - destruct (jsstring_eqb pdfSplit (js "single")) eqn:Hs; simpl.
    + apply jsstring_eqb_eq in Hs.
      split; [split; [discriminate | reflexivity]|].
      intros s [= <-]. split; [discriminate|]. split; [reflexivity | auto].
    + split; [split; [discriminate | intros H; contradiction H; reflexivity]|].
      discriminate.
Qed.
